(** * grab-ld-binaries: the ld.so.cache reader, its lookup and the import closure

    A shallow embedding of [dlcache/dlcache.go] and of the import traversal of
    [main.go], followed by the properties of the comparator, the lookup, the
    decoder and the dependency resolver.

    Conventions.
    - A Go [string] is a sequence of bytes: it is Rocq's [string], whose
      characters are the 8-bit [ascii].  A Go [[]byte] is a [list ascii].
    - Go's [int] is taken to be 64 bits wide (no index or midpoint computed
      here can wrap), and is modelled by [Z]; slice indices that are known to
      be non-negative are [nat].
    - A run-time panic is an explicit outcome, next to a normal return.
    - A reader ([io.Reader]) is the list of the bytes it delivers before it
      ends; memory is not bounded ([make] and [append] always succeed).
    - The file system and the environment do not change during a run. *)

From Stdlib Require Import ZArith Lia Bool Ascii String List.
From stdpp Require Import base tactics option list gmap sets strings sorting relations.

#[local] Set Warnings "-clear-no-such-hyp".

Local Open Scope string_scope.
Local Open Scope Z_scope.

(** ** Outcomes of a Go function call *)

(** The error values of [strconv.NumError] that [strconv.ParseInt] reports. *)
Inductive num_error : Type :=
| ErrSyntax
| ErrRange.

(** The run-time panics the embedded code can raise. *)
Inductive panic : Type :=
| PanicNumError (e : num_error)   (* [panic(err)] of [parseLeadingNum] *)
| PanicIndexOutOfRange            (* [s[i]] with [i] outside the slice *)
| PanicSliceBounds.               (* [s[i:j]] with bounds out of range *)

(** A call returns normally, panics, or (only for the models that iterate on a
    fuel) is cut off before it ends. *)
Inductive outcome (A : Type) : Type :=
| Ret (a : A)
| Panics (p : panic)
| OutOfFuel.

Arguments Ret {A} a.
Arguments Panics {A} p.
Arguments OutOfFuel {A}.

#[global] Instance outcome_bind : MBind outcome := fun A B k m =>
  match m with
  | Ret a => k a
  | Panics p => Panics p
  | OutOfFuel => OutOfFuel
  end.

(** ** Go strings *)

Module GoString.

(** [byteZ c]: the byte [c] as an unsigned integer, also [rune(c)]. *)
Definition byteZ (c : ascii) : Z := Z.of_N (N_of_ascii c).

(** [len(s)]. *)
Definition len (s : string) : nat := String.length s.

(** [s[i]], when [i] is in range. *)
Definition at_ (s : string) (i : nat) : option ascii := String.get i s.

(** [s[i:]] for [i <= len(s)]. *)
Fixpoint slice_from (s : string) (i : nat) : string :=
  match i, s with
  | O, _ => s
  | S i', String _ s' => slice_from s' i'
  | S _, EmptyString => EmptyString
  end.

(** [s[:n]] for [n <= len(s)]. *)
Fixpoint slice_to (s : string) (n : nat) : string :=
  match n, s with
  | O, _ => EmptyString
  | S n', String c s' => String c (slice_to s' n')
  | S _, EmptyString => EmptyString
  end.

End GoString.
Import GoString.

(** ** The parts of Go's standard library that the code calls *)

Module Utf8.

Definition RuneError : Z := 0xFFFD.

(** The table [first] of [unicode/utf8]: for a leading byte at or above
    [0x80], the length of the sequence and the range accepted for its second
    byte; [None] for the bytes that start no sequence. *)
Definition first (s0 : Z) : option (nat * Z * Z) :=
  if s0 <? 0xC2 then None
  else if s0 <? 0xE0 then Some (2%nat, 0x80, 0xBF)
  else if s0 =? 0xE0 then Some (3%nat, 0xA0, 0xBF)
  else if s0 <? 0xED then Some (3%nat, 0x80, 0xBF)
  else if s0 =? 0xED then Some (3%nat, 0x80, 0x9F)
  else if s0 <? 0xF0 then Some (3%nat, 0x80, 0xBF)
  else if s0 =? 0xF0 then Some (4%nat, 0x90, 0xBF)
  else if s0 <? 0xF4 then Some (4%nat, 0x80, 0xBF)
  else if s0 =? 0xF4 then Some (4%nat, 0x80, 0x8F)
  else None.

Definition outside (b lo hi : Z) : bool := (b <? lo) || (hi <? b).

(** [utf8.DecodeRuneInString], which is also what [for i, r := range s]
    does at each step: the rune at the head of [s] and its width in bytes;
    an invalid or short sequence gives [(RuneError, 1)]. *)
Definition DecodeRuneInString (s : string) : Z * nat :=
  match s with
  | EmptyString => (RuneError, 0%nat)
  | String c0 t0 =>
    let s0 := byteZ c0 in
    if s0 <? 0x80 then (s0, 1%nat) else
    match first s0 with
    | None => (RuneError, 1%nat)
    | Some (sz, lo, hi) =>
      match t0 with
      | EmptyString => (RuneError, 1%nat)
      | String c1 t1 =>
        let s1 := byteZ c1 in
        if outside s1 lo hi then (RuneError, 1%nat) else
        if (sz =? 2)%nat then
          (Z.lor (Z.shiftl (Z.land s0 0x1F) 6) (Z.land s1 0x3F), 2%nat)
        else
        match t1 with
        | EmptyString => (RuneError, 1%nat)
        | String c2 t2 =>
          let s2 := byteZ c2 in
          if outside s2 0x80 0xBF then (RuneError, 1%nat) else
          if (sz =? 3)%nat then
            (Z.lor (Z.lor (Z.shiftl (Z.land s0 0x0F) 12)
                          (Z.shiftl (Z.land s1 0x3F) 6))
                   (Z.land s2 0x3F), 3%nat)
          else
          match t2 with
          | EmptyString => (RuneError, 1%nat)
          | String c3 _ =>
            let s3 := byteZ c3 in
            if outside s3 0x80 0xBF then (RuneError, 1%nat) else
            (Z.lor (Z.lor (Z.lor (Z.shiftl (Z.land s0 0x07) 18)
                                 (Z.shiftl (Z.land s1 0x3F) 12))
                          (Z.shiftl (Z.land s2 0x3F) 6))
                   (Z.land s3 0x3F), 4%nat)
          end
        end
      end
    end
  end.

End Utf8.

Module Unicode.

Definition MaxLatin1 : Z := 0xFF.

(** The range table [unicode.Digit] (general category Nd) above Latin-1, as
    the pairs [(Lo, Hi)] of its ranges, all of stride 1 (Unicode 15.0.0). *)
Definition Digit : list (Z * Z) :=
  [ (0x0660, 0x0669); (0x06f0, 0x06f9); (0x07c0, 0x07c9); (0x0966, 0x096f);
    (0x09e6, 0x09ef); (0x0a66, 0x0a6f); (0x0ae6, 0x0aef); (0x0b66, 0x0b6f);
    (0x0be6, 0x0bef); (0x0c66, 0x0c6f); (0x0ce6, 0x0cef); (0x0d66, 0x0d6f);
    (0x0de6, 0x0def); (0x0e50, 0x0e59); (0x0ed0, 0x0ed9); (0x0f20, 0x0f29);
    (0x1040, 0x1049); (0x1090, 0x1099); (0x17e0, 0x17e9); (0x1810, 0x1819);
    (0x1946, 0x194f); (0x19d0, 0x19d9); (0x1a80, 0x1a89); (0x1a90, 0x1a99);
    (0x1b50, 0x1b59); (0x1bb0, 0x1bb9); (0x1c40, 0x1c49); (0x1c50, 0x1c59);
    (0xa620, 0xa629); (0xa8d0, 0xa8d9); (0xa900, 0xa909); (0xa9d0, 0xa9d9);
    (0xa9f0, 0xa9f9); (0xaa50, 0xaa59); (0xabf0, 0xabf9); (0xff10, 0xff19);
    (0x104a0, 0x104a9); (0x10d30, 0x10d39); (0x11066, 0x1106f);
    (0x110f0, 0x110f9); (0x11136, 0x1113f); (0x111d0, 0x111d9);
    (0x112f0, 0x112f9); (0x11450, 0x11459); (0x114d0, 0x114d9);
    (0x11650, 0x11659); (0x116c0, 0x116c9); (0x11730, 0x11739);
    (0x118e0, 0x118e9); (0x11950, 0x11959); (0x11c50, 0x11c59);
    (0x11d50, 0x11d59); (0x11da0, 0x11da9); (0x11f50, 0x11f59);
    (0x16a60, 0x16a69); (0x16ac0, 0x16ac9); (0x16b50, 0x16b59);
    (0x1d7ce, 0x1d7ff); (0x1e140, 0x1e149); (0x1e2f0, 0x1e2f9);
    (0x1e4f0, 0x1e4f9); (0x1e950, 0x1e959); (0x1fbf0, 0x1fbf9) ].

Definition isExcludingLatin (tab : list (Z * Z)) (r : Z) : bool :=
  existsb (fun '(lo, hi) => (lo <=? r) && (r <=? hi)) tab.

(** [unicode.IsDigit]: below [MaxLatin1] only ['0'..'9'] are digits. *)
Definition IsDigit (r : Z) : bool :=
  if r <=? MaxLatin1 then (48 <=? r) && (r <=? 57)
  else isExcludingLatin Digit r.

End Unicode.

Module Strings.

(** [strings.IndexFunc(s, f)]: the byte index of the first rune of [s] that
    satisfies [f], or [-1].  [i] is the index of the head of [s] in the
    whole string and [skip] counts the bytes of [s] that still belong to the
    rune decoded last. *)
Fixpoint indexFunc (f : Z -> bool) (s : string) (i skip : nat) : Z :=
  match s with
  | EmptyString => -1
  | String _ s' =>
    match skip with
    | S k => indexFunc f s' (S i) k
    | O =>
      let '(r, w) := Utf8.DecodeRuneInString s in
      if f r then Z.of_nat i else indexFunc f s' (S i) (w - 1)
    end
  end.

Definition IndexFunc (s : string) (f : Z -> bool) : Z := indexFunc f s 0 0.

(** [strings.Split(s, sep)] for a separator of one byte. *)
Fixpoint Split (s : string) (sep : ascii) : list string :=
  match s with
  | EmptyString => [EmptyString]
  | String c s' =>
    if Ascii.eqb c sep then EmptyString :: Split s' sep
    else match Split s' sep with
         | h :: t => String c h :: t
         | [] => [String c EmptyString]
         end
  end.

End Strings.

Module Strconv.

Definition maxUint64 : Z := 2 ^ 64 - 1.

(** The digit loop of [strconv.ParseUint(s, 10, bitSize)] with [n] the value
    read so far. *)
Fixpoint parseUintLoop (maxVal : Z) (s : string) (n : Z) : Z + num_error :=
  match s with
  | EmptyString => inl n
  | String c s' =>
    let b := byteZ c in
    if (48 <=? b) && (b <=? 57) then
      if maxUint64 / 10 + 1 <=? n then inr ErrRange
      else
        let n1 := n * 10 + (b - 48) in
        if maxVal <? n1 then inr ErrRange else parseUintLoop maxVal s' n1
    else inr ErrSyntax
  end.

Definition ParseUint10 (s : string) (bitSize : Z) : Z + num_error :=
  match s with
  | EmptyString => inr ErrSyntax
  | _ => parseUintLoop (2 ^ bitSize - 1) s 0
  end.

(** [strconv.ParseInt(s, 10, bitSize)]. *)
Definition ParseInt10 (s : string) (bitSize : Z) : Z + num_error :=
  match s with
  | EmptyString => inr ErrSyntax
  | String c s' =>
    let b := byteZ c in
    let neg := b =? 45 in
    let body := if (b =? 43) || (b =? 45) then s' else s in
    match ParseUint10 body bitSize with
    | inr e => inr e
    | inl un =>
      let cutoff := 2 ^ (bitSize - 1) in
      if negb neg && (cutoff <=? un) then inr ErrRange
      else if neg && (cutoff <? un) then inr ErrRange
      else inl (if neg then - un else un)
    end
  end.

End Strconv.

(** ** The host *)

(** The errors the embedded functions return as values. *)
Inductive error : Type :=
| ErrMagic                      (* "Magic does not start with ld.so." *)
| EOF                           (* [io.EOF] *)
| ErrUnexpectedEOF              (* [io.ErrUnexpectedEOF] *)
| PathError (op path : string) (notExist : bool)   (* [*os.PathError] *)
| FormatError (msg : string).   (* [*elf.FormatError] and the like *)

(** What the code takes from its host: the environment, the file system and
    the library functions that are used as given. *)
Record ElfFile : Type := {
  ImportedLibraries : error + list string   (* [ImportedLibraries] of an [elf.File] *)
}.

Record File : Type := {
  elf_NewFile : error + ElfFile             (* [elf.NewFile(fd)] *)
}.

Record Host : Type := {
  Getenv : string -> string;                (* [os.Getenv] *)
  Stat : string -> bool;                    (* [os.Stat(p)] gives a nil error *)
  filepath_Join : string -> string -> string;   (* [filepath.Join(dir, name)] *)
  Open : string -> error + File             (* [os.Open] *)
}.

(** [os.IsNotExist]. *)
Definition IsNotExist (e : error) : bool :=
  match e with
  | PathError _ _ b => b
  | _ => false
  end.

(** ** [dlcache]: the comparator *)

Module Dlcache.

(** [unicode.IsDigit(rune(c))] for a byte [c] of a string. *)
Definition isDigitByte (c : ascii) : bool := Unicode.IsDigit (byteZ c).

(** The closure [nonDigit] of [parseLeadingNum]. *)
Definition nonDigit (r : Z) : bool := negb (Unicode.IsDigit r).

(** The closure [parseLeadingNum] of [_dl_cache_libcmp]. *)
Definition parseLeadingNum (s : string) : outcome Z :=
  let firstNonDigit := Strings.IndexFunc s nonDigit in
  let firstNonDigit :=
    if firstNonDigit =? -1 then len s else Z.to_nat firstNonDigit in
  match Strconv.ParseInt10 (slice_to s firstNonDigit) 32 with
  | inr err => Panics (PanicNumError err)
  | inl n => Ret n
  end.

(** The loop [for i := 0; i < l; i++] of [_dl_cache_libcmp], with [n] the
    number of iterations left ([l - i]).  [Some r] is a [return r] from
    inside the loop; [None] is the loop running to its end. *)
Fixpoint libcmp_loop (p1 p2 : string) (n : nat) (i : nat) : outcome (option Z) :=
  match n with
  | O => Ret None
  | S n' =>
    match at_ p1 i, at_ p2 i with
    | Some p1c, Some p2c =>
      if isDigitByte p1c && isDigitByte p2c then
        n1 ← parseLeadingNum (slice_from p1 i);
        n2 ← parseLeadingNum (slice_from p2 i);
        if n1 <? n2 then Ret (Some (-1))
        else if n2 <? n1 then Ret (Some 1)
        else libcmp_loop p1 p2 n' (S i)
      else if isDigitByte p1c then Ret (Some 1)
      else if isDigitByte p2c then Ret (Some (-1))
      else if byteZ p1c <? byteZ p2c then Ret (Some (-1))
      else if byteZ p2c <? byteZ p1c then Ret (Some 1)
      else libcmp_loop p1 p2 n' (S i)
    | _, _ => Panics PanicIndexOutOfRange
    end
  end.

Definition _dl_cache_libcmp (p1 p2 : string) : outcome Z :=
  let l := len p1 in
  let l := if (len p2 <? l)%nat then len p2 else l in
  r ← libcmp_loop p1 p2 l 0;
  match r with
  | Some x => Ret x
  | None =>
    if (len p1 <? len p2)%nat then Ret (-1)
    else if (len p2 <? len p1)%nat then Ret 1
    else Ret 0
  end.

(** ** [dlcache]: the cache and its lookup *)

(** [fileEntry], the decoded entry. *)
Record fileEntry : Type := {
  Flags : Z;
  Key : string;
  Value : string
}.

(** [DLCache]. *)
Record DLCache : Type := {
  FileEntries : list fileEntry
}.

Definition Is64 (fe : fileEntry) : bool := Z.land (Flags fe) 0x300 =? 0x300.

(** [es[j]] on a slice, with Go's bounds check. *)
Definition index_at {A : Type} (es : list A) (j : Z) : outcome A :=
  if (0 <=? j) && (j <? Z.of_nat (length es)) then
    match es !! Z.to_nat j with
    | Some e => Ret e
    | None => Panics PanicIndexOutOfRange
    end
  else Panics PanicIndexOutOfRange.

(** The first part of [Lookup]: the directories of [LD_LIBRARY_PATH]. *)
Fixpoint lookup_paths (h : Host) (paths : list string) (library : string)
  : option string :=
  match paths with
  | [] => None
  | path :: rest =>
    let maybePath := filepath_Join h path library in
    if Stat h maybePath then Some maybePath
    else lookup_paths h rest library
  end.

Definition lookup_override (h : Host) (library : string) : option string :=
  let ldPath := Getenv h "LD_LIBRARY_PATH" in
  if negb (String.eqb ldPath "") then
    lookup_paths h (Strings.Split ldPath ":"%char) library
  else None.

(** The loop [for lo < hi] of [Lookup].  [Some v] is [return v, true] from
    inside the loop, [None] is the loop ending with [lo >= hi]. *)
Fixpoint bisect (es : list fileEntry) (library : string) (fuel : nat)
  (lo hi : Z) : outcome (option string) :=
  if lo <? hi then
    match fuel with
    | O => OutOfFuel
    | S fuel' =>
      let mid := Z.quot (lo + hi) 2 in
      e ← index_at es mid;
      x ← _dl_cache_libcmp (Key e) library;
      if x =? 0 then
        if Is64 e then Ret (Some (Value e))
        else bisect es library fuel' lo mid
      else if x =? -1 then bisect es library fuel' lo mid
      else if x =? 1 then bisect es library fuel' (mid + 1) hi
      else bisect es library fuel' lo hi
    end
  else Ret None.

(** The loop [for j := i - 10; j < i+10; j++] that logs the neighbours of a
    match: only the indexing of [dc.FileEntries[j]] is kept, the text that is
    logged is not modelled.  [n] is the number of iterations left. *)
Fixpoint log_neighbours (es : list fileEntry) (n : nat) (j : Z) : outcome unit :=
  match n with
  | O => Ret tt
  | S n' => _ ← index_at es j; log_neighbours es n' (j + 1)
  end.

(** The loop [for i, entry := range dc.FileEntries] of [Lookup]: [rest] is
    what is left of the entries from index [i] on. *)
Fixpoint slow_scan (es rest : list fileEntry) (library : string) (i : Z)
  : outcome (string * bool) :=
  match rest with
  | [] => Ret ("", false)
  | entry :: rest' =>
    if String.eqb (Key entry) library then
      _ ← log_neighbours es (Z.to_nat ((i + 10) - (i - 10))) (i - 10);
      Ret (Value entry, true)
    else slow_scan es rest' library (i + 1)
  end.

(** The method [Lookup] of [DLCache].  The bisection halves [hi - lo] at
    every turn: the number of entries is fuel enough for it. *)
Definition Lookup (h : Host) (dc : DLCache) (library : string)
  : outcome (string * bool) :=
  match lookup_override h library with
  | Some maybePath => Ret (maybePath, true)
  | None =>
    let es := FileEntries dc in
    r ← bisect es library (length es) 0 (Z.of_nat (length es));
    match r with
    | Some v => Ret (v, true)
    | None => slow_scan es es library 0
    end
  end.

(** ** [dlcache]: the decoder *)

Definition cacheMagic : string :=
  "ld.so-1.7.0" ++ String (ascii_of_nat 0) EmptyString.

(** [_fileEntry], the record as it is laid out in the file. *)
Record _fileEntry : Type := {
  _Flags : Z;   (* int32 *)
  _Key : Z;     (* uint32 *)
  _Value : Z    (* uint32 *)
}.

(** [io.ReadFull] of [n > 0] bytes on a reader that holds the bytes [r]:
    what is read, or the error, and the bytes left in the reader. *)
Definition readFull (n : nat) (r : list ascii) : (error + list ascii) * list ascii :=
  match r with
  | [] => (inl EOF, [])
  | _ =>
    if (length r <? n)%nat then (inl ErrUnexpectedEOF, [])
    else (inr (take n r), drop n r)
  end.

(** Little-endian decoding of [binary.Read]. *)
Fixpoint le_uint (bs : list ascii) : Z :=
  match bs with
  | [] => 0
  | b :: bs' => Z.lor (byteZ b) (Z.shiftl (le_uint bs') 8)
  end.

Definition to_int32 (u : Z) : Z := if u <? 2 ^ 31 then u else u - 2 ^ 32.

Definition decode_fileEntry (bs : list ascii) : _fileEntry :=
  {| _Flags := to_int32 (le_uint (take 4 bs));
     _Key := le_uint (take 4 (drop 4 bs));
     _Value := le_uint (take 4 (drop 8 bs)) |}.

(** The loop [for i := range fileEntries] that reads the [n] records. *)
Fixpoint read_entries (n : nat) (r : list ascii)
  : (error + list _fileEntry) * list ascii :=
  match n with
  | O => (inr [], r)
  | S n' =>
    match readFull 12 r with
    | (inl err, r') => (inl err, r')
    | (inr bs, r') =>
      match read_entries n' r' with
      | (inl err, r'') => (inl err, r'')
      | (inr es, r'') => (inr (decode_fileEntry bs :: es), r'')
      end
    end
  end.

(** [s[lo:hi]] on a byte slice whose capacity is its length. *)
Definition slice (s : list ascii) (lo hi : Z) : outcome (list ascii) :=
  if (0 <=? lo) && (lo <=? hi) && (hi <=? Z.of_nat (length s)) then
    Ret (take (Z.to_nat (hi - lo)) (drop (Z.to_nat lo) s))
  else Panics PanicSliceBounds.

(** [bytes.IndexByte(b, c)]. *)
Fixpoint IndexByte (b : list ascii) (c : ascii) : Z :=
  match b with
  | [] => -1
  | x :: b' =>
    if Ascii.eqb x c then 0
    else let r := IndexByte b' c in if r =? -1 then -1 else r + 1
  end.

(** The closure [readString] of [ReadDLCache]. *)
Definition readString (stringTable : list ascii) (index : Z) : outcome string :=
  tail ← slice stringTable index (Z.of_nat (length stringTable));
  let l := IndexByte tail (ascii_of_nat 0) in
  bs ← slice stringTable index (index + l);
  Ret (string_of_list_ascii bs).

(** The loop [for _, entry := range fileEntries] that builds the cache. *)
Fixpoint build_entries (stringTable : list ascii) (es : list _fileEntry)
  : outcome (list fileEntry) :=
  match es with
  | [] => Ret []
  | entry :: es' =>
    k ← readString stringTable (_Key entry);
    v ← readString stringTable (_Value entry);
    rest ← build_entries stringTable es';
    Ret ({| Flags := _Flags entry; Key := k; Value := v |} :: rest)
  end.

(** [ReadDLCache], on a reader that delivers the bytes [r] and then ends.
    The error of the first read is dropped by the code: when the read falls
    short, [magic] keeps its zero bytes. *)
Definition ReadDLCache (r : list ascii) : outcome (error + DLCache) :=
  let '(m, r) := readFull (len cacheMagic) r in
  let magic :=
    match m with
    | inr bs => bs
    | inl _ => replicate (len cacheMagic) (ascii_of_nat 0)
    end in
  if negb (String.eqb (string_of_list_ascii (take 5 magic)) "ld.so") then
    Ret (inl ErrMagic)
  else
    match readFull 4 r with
    | (inl err, _) => Ret (inl err)
    | (inr bs, r) =>
      let nlibs := le_uint bs in
      match read_entries (Z.to_nat nlibs) r with
      | (inl err, _) => Ret (inl err)
      | (inr fileEntries, r) =>
        let stringTable := r in
        es ← build_entries stringTable fileEntries;
        Ret (inr {| FileEntries := es |})
      end
    end.

End Dlcache.
Import Dlcache.

(** ** [main]: the imports of a file and their closure *)

Module Main.

(** [readImports]: the imports of one ELF file, with a lookup into the cache
    when the name does not open as a path. *)
Definition readImports (h : Host) (dc : DLCache) (filename : string)
  : outcome (error + list string) :=
  let opened := Open h filename in
  opened ←
    match opened with
    | inl err =>
      if IsNotExist err then
        '(filename', ok) ← Lookup h dc filename;
        if ok : bool then Ret (Open h filename') else Ret opened
      else Ret opened
    | inr _ => Ret opened
    end;
  match opened with
  | inl err => Ret (inl err)
  | inr fd =>
    match elf_NewFile fd with
    | inl err => Ret (inl err)
    | inr elf =>
      match ImportedLibraries elf with
      | inl err => Ret (inl err)
      | inr importedLibs => Ret (inr importedLibs)
      end
    end
  end.

(** The variables that the closure [visit] captures: the maps [seen] and
    [imports], and, as a ghost, the list [reads] of the names [readImports]
    was called with, in the order of the calls.  (The counter [depth] of the
    source is only read by a log line that is commented out.) *)
Record state : Type := {
  seen : gset string;
  imports : gset string;
  reads : list string
}.

(** How a call of [visit] ends: it returns its error (or nil), it panics, or
    the model runs out of fuel (the fuel bounds the depth of the recursion). *)
Inductive status : Type :=
| Done (err : option error)
| Panicked (p : panic)
| Starved.

(** The loop [for _, dep := range importedLibs] of [visit], over the [visit]
    of the next depth. *)
Fixpoint visit_deps (visit_dep : string -> state -> status * state)
  (deps : list string) (st : state) : status * state :=
  match deps with
  | [] => (Done None, st)
  | dep :: deps' =>
    let st := {| seen := seen st;
                 imports := {[dep]} ∪ imports st;
                 reads := reads st |} in
    match visit_dep dep st with
    | (Done None, st') => visit_deps visit_dep deps' st'
    | stopped => stopped
    end
  end.

(** The closure [visit] of [recursiveImports]. *)
Fixpoint visit (h : Host) (dc : DLCache) (fuel : nat) (filename : string)
  (st : state) : status * state :=
  match fuel with
  | O => (Starved, st)
  | S fuel' =>
    if decide (filename ∈ seen st) then (Done None, st)
    else
      let st := {| seen := {[filename]} ∪ seen st;
                   imports := imports st;
                   reads := reads st ++ [filename] |} in
      match readImports h dc filename with
      | Panics p => (Panicked p, st)
      | OutOfFuel => (Starved, st)
      | Ret (inl err) => (Done (Some err), st)
      | Ret (inr importedLibs) => visit_deps (visit h dc fuel') importedLibs st
      end
  end.

Definition initial : state := {| seen := ∅; imports := ∅; reads := [] |}.

(** [recursiveImports]: [return imports, visit(filename)], the map together
    with the error. *)
Definition recursiveImports (h : Host) (dc : DLCache) (fuel : nat)
  (filename : string) : outcome (gset string * option error) :=
  match visit h dc fuel filename initial with
  | (Done err, st) => Ret (imports st, err)
  | (Panicked p, _) => Panics p
  | (Starved, _) => OutOfFuel
  end.

End Main.
Import Main.

(** ** Notions used to state the properties *)

(** *** Digit runs *)

(** A byte that is one of ['0'..'9']. *)
Definition isAsciiDigit (c : ascii) : bool := (48 <=? byteZ c) && (byteZ c <=? 57).

(** The maximal run of decimal digits at the head of a string. *)
Fixpoint digit_run (s : string) : string :=
  match s with
  | String c s' => if isAsciiDigit c then String c (digit_run s') else EmptyString
  | EmptyString => EmptyString
  end.

(** The base-10 value of a string of digits, continuing from [acc]. *)
Fixpoint decimal_from (acc : Z) (s : string) : Z :=
  match s with
  | EmptyString => acc
  | String c s' => decimal_from (acc * 10 + (byteZ c - 48)) s'
  end.

Definition decimal (s : string) : Z := decimal_from 0 s.

(** The value of the maximal digit run at the head of [s]. *)
Definition run_value (s : string) : Z := decimal (digit_run s).

(** The digit run at the head of [s] is directly followed by a rune that
    [unicode.IsDigit] accepts (a decimal digit outside ASCII, encoded on
    several bytes). *)
Definition followed_by_unicode_digit (s : string) : bool :=
  match slice_from s (len (digit_run s)) with
  | EmptyString => false
  | rest => Unicode.IsDigit (fst (Utf8.DecodeRuneInString rest))
  end.

(** The digit run at the head of [s] is one that [parseLeadingNum] accepts:
    it ends where the scan of [strings.IndexFunc] ends and its value fits a
    signed 32-bit integer. *)
Definition int32_run (s : string) : bool :=
  negb (followed_by_unicode_digit s) && (run_value s <? 2 ^ 31).

(** Where the scan of [parseLeadingNum] stops, for a string that starts at
    byte [i] of the whole. *)
Definition scan_end (s : string) (i : nat) : nat :=
  let k := Strings.indexFunc nonDigit s i 0 in
  if k =? -1 then (i + len s)%nat else Z.to_nat k.

(** *** Positions of a comparison *)

Definition both_digits (p1 p2 : string) (i : nat) : bool :=
  match at_ p1 i, at_ p2 i with
  | Some c1, Some c2 => isAsciiDigit c1 && isAsciiDigit c2
  | _, _ => false
  end.

(** The scan of the comparator goes on past position [j]: it holds the same
    byte, not a digit, in both strings, or two digit runs of equal value. *)
Definition tie_at (p1 p2 : string) (j : nat) : bool :=
  match at_ p1 j, at_ p2 j with
  | Some c1, Some c2 =>
    if isAsciiDigit c1 && isAsciiDigit c2 then
      run_value (slice_from p1 j) =? run_value (slice_from p2 j)
    else negb (isAsciiDigit c1) && negb (isAsciiDigit c2) && Ascii.eqb c1 c2
  | _, _ => false
  end.

(** The scan reaches position [i]: it goes on past every earlier one. *)
Definition reached (p1 p2 : string) (i : nat) : bool :=
  forallb (tie_at p1 p2) (seq 0 i).

(** The digit runs that start at [i] are compared: the scan reaches [i] and
    finds a digit there in both strings. *)
Definition compared (p1 p2 : string) (i : nat) : bool :=
  reached p1 p2 i && both_digits p1 p2 i.

(** [i] is the first position where both strings hold a digit. *)
Definition first_both_digits (p1 p2 : string) (i : nat) : Prop :=
  both_digits p1 p2 i = true /\
  forall j, (j < i)%nat -> both_digits p1 p2 j = false.

(** One turn of the comparator's loop on the heads [c1], [c2] of [p1], [p2],
    with [k] the comparison of what follows them. *)
Definition libcmp_step (p1 p2 : string) (c1 c2 : ascii) (k : outcome Z) : outcome Z :=
  if isDigitByte c1 && isDigitByte c2 then
    n1 ← parseLeadingNum p1;
    n2 ← parseLeadingNum p2;
    if n1 <? n2 then Ret (-1)
    else if n2 <? n1 then Ret 1
    else k
  else if isDigitByte c1 then Ret 1
  else if isDigitByte c2 then Ret (-1)
  else if byteZ c1 <? byteZ c2 then Ret (-1)
  else if byteZ c2 <? byteZ c1 then Ret 1
  else k.

(** *** Caches *)

(** [a >= b] for the comparator, on strings it compares without a panic. *)
Definition cmp_ge (a b : string) : bool :=
  match _dl_cache_libcmp a b with
  | Ret r => 0 <=? r
  | _ => false
  end.

(** The entries are sorted by the comparator in descending order, the order
    the bisection of [Lookup] follows: no entry is below a later one. *)
Fixpoint sorted_desc (es : list fileEntry) : bool :=
  match es with
  | [] => true
  | e :: rest =>
    cmp_ge (Key e) (Key e)
    && forallb (fun e' => cmp_ge (Key e) (Key e')) rest
    && sorted_desc rest
  end.

(** Among the entries of one key, the 64-bit ones come first: no entry that
    is not 64-bit precedes a 64-bit entry of the same key. *)
Fixpoint arch_first (es : list fileEntry) : bool :=
  match es with
  | [] => true
  | e :: rest =>
    (Is64 e || forallb (fun e' => negb (String.eqb (Key e') (Key e) && Is64 e')) rest)
    && arch_first rest
  end.

(** The index of the first entry whose key is exactly [library]. *)
Fixpoint first_match (es : list fileEntry) (library : string) : option nat :=
  match es with
  | [] => None
  | e :: rest =>
    if String.eqb (Key e) library then Some O
    else S <$> first_match rest library
  end.

(** The entries that the bisection of [Lookup] compares with [library] when
    it works on the range [lo, hi): the one in the middle, and those of the
    half it goes on with. *)
Inductive probed (es : list fileEntry) (library : string)
  : Z -> Z -> fileEntry -> Prop :=
| probed_here lo hi e :
    lo < hi ->
    index_at es (Z.quot (lo + hi) 2) = Ret e ->
    probed es library lo hi e
| probed_low lo hi m x e :
    lo < hi ->
    index_at es (Z.quot (lo + hi) 2) = Ret m ->
    _dl_cache_libcmp (Key m) library = Ret x ->
    x = -1 \/ (x = 0 /\ Is64 m = false) ->
    probed es library lo (Z.quot (lo + hi) 2) e ->
    probed es library lo hi e
| probed_high lo hi m e :
    lo < hi ->
    index_at es (Z.quot (lo + hi) 2) = Ret m ->
    _dl_cache_libcmp (Key m) library = Ret 1 ->
    probed es library (Z.quot (lo + hi) 2 + 1) hi e ->
    probed es library lo hi e.

(** *** Cache files *)

(** The four bytes of a 32-bit value, little-endian. *)
Definition le32 (v : Z) : list ascii :=
  map (fun k => ascii_of_N (Z.to_N (Z.land (Z.shiftr v (8 * k)) 0xFF)))
      [0; 1; 2; 3].

(** The twelve bytes of a record. *)
Definition record_bytes (flags key value : Z) : list ascii :=
  le32 flags ++ le32 key ++ le32 value.

(** The key and value offsets that a 12-byte record holds. *)
Definition key_offset (rec : list ascii) : Z := le_uint (take 4 (drop 4 rec)).
Definition value_offset (rec : list ascii) : Z := le_uint (take 4 (drop 8 rec)).

(** A record points outside a string table of [n] bytes. *)
Definition offset_out_of_range (n : nat) (rec : list ascii) : bool :=
  (Z.of_nat n <=? key_offset rec) || (Z.of_nat n <=? value_offset rec).

(** A header that [ReadDLCache] accepts: as long as the magic, and starting
    with the five bytes of "ld.so". *)
Definition good_header (hd : list ascii) : bool :=
  (length hd =? len cacheMagic)%nat
  && String.eqb (string_of_list_ascii (take 5 hd)) "ld.so".

(** The errors that report the end of the stream. *)
Definition is_truncated (e : error) : bool :=
  match e with
  | EOF | ErrUnexpectedEOF => true
  | _ => false
  end.

(** *** Dependency graphs *)

(** A synthetic file system: every node of the graph [g] is a file that opens
    and declares the listed imports, no other name opens, and
    [LD_LIBRARY_PATH] is not set. *)
Definition graph_host (g : list (string * list string)) : Host :=
  {| Getenv := fun _ => EmptyString;
     Stat := fun _ => false;
     filepath_Join := fun dir name => (dir ++ "/" ++ name)%string;
     Open := fun name =>
       match list_find (fun nd => String.eqb nd.1 name = true) g with
       | Some (_, (_, deps)) =>
         inr {| elf_NewFile := inr {| ImportedLibraries := inr deps |} |}
       | None => inl (PathError "open" name true)
       end |}.

(** The names [readImports] was called with are all different, and all
    marked as seen. *)
Definition reads_inv (st : state) : Prop :=
  NoDup (reads st) /\ forall f, f ∈ reads st -> f ∈ seen st.

(** None of the calls of [readImports] with the names [l] returned an
    error. *)
Definition reads_ok (h : Host) (dc : DLCache) (l : list string) : Prop :=
  forall f, f ∈ l -> forall e, readImports h dc f <> Ret (inl e).

(** What the calls of [readImports] returned, by the way [visit] ended: when
    it ends with the error [e], the last call returned [e] and no call before
    it returned an error; when it ends in any other way, no call returned an
    error. *)
Definition trace_shape (h : Host) (dc : DLCache) (s : status) (st : state) : Prop :=
  match s with
  | Done (Some e) =>
    exists (l : list string) (f : string), reads st = (l ++ [f])%list /\
      reads_ok h dc l /\ readImports h dc f = Ret (inl e)
  | _ => reads_ok h dc (reads st)
  end.

(** Within the finite set [U] of names, a recursion of depth [n] is enough
    for what is not seen yet in [st]. *)
Definition fits (U : gset string) (n : nat) (st : state) : Prop :=
  seen st ⊆ U /\ (size (U ∖ seen st) < n)%nat.

(** From [st] to [st'] the names seen grow, within [U]. *)
Definition grows (U : gset string) (st st' : state) : Prop :=
  seen st ⊆ seen st' /\ seen st' ⊆ U.

Definition empty_cache : DLCache := {| FileEntries := [] |}.

Definition diamond : list (string * list string) :=
  [ ("A", ["B"; "C"]); ("B", ["D"]); ("C", ["D"]); ("D", []) ].

Definition cycle : list (string * list string) :=
  [ ("A", ["B"]); ("B", ["A"]) ].

(** *** Inputs of the examples *)

(** The digit [1] followed by U+0660 (ARABIC-INDIC DIGIT ZERO), which UTF-8
    encodes on the two bytes [0xD9 0xA0]. *)
Definition one_arabic_zero : string :=
  String "1" (String (ascii_of_nat 217) (String (ascii_of_nat 160) EmptyString)).

Definition entry (flags : Z) (key value : string) : fileEntry :=
  {| Flags := flags; Key := key; Value := value |}.

(** A cache of one entry that is not flagged 64-bit. *)
Definition cache_32bit_only : DLCache :=
  {| FileEntries := [ entry 0 "libc.so.6" "/lib/libc.so.6" ] |}.

(** A cache in ascending order of its keys. *)
Definition cache_ascending : DLCache :=
  {| FileEntries := [ entry 0x300 "a" "/lib64/a"; entry 0x300 "b" "/lib64/b" ] |}.

(** A sorted cache in which a key has its 32-bit entry before its 64-bit
    one. *)
Definition cache_32bit_first : DLCache :=
  {| FileEntries := [ entry 0x300 "b" "/lib64/b";
                      entry 0 "a" "/lib32/a";
                      entry 0x300 "a" "/lib64/a" ] |}.

(** A sorted cache in which a key has its 64-bit entry first. *)
Definition cache_64bit_first : DLCache :=
  {| FileEntries := [ entry 0x300 "b" "/lib64/b";
                      entry 0x300 "a" "/lib64/a";
                      entry 0 "a" "/lib32/a" ] |}.

(** A sorted cache of 21 entries, with the two entries of the key "m" in the
    middle, the 32-bit one first. *)
Definition cache_21 : DLCache :=
  {| FileEntries :=
       map (fun k => entry 0x300 k ("/lib64/" ++ k))
           ["n9"; "n8"; "n7"; "n6"; "n5"; "n4"; "n3"; "n2"; "n1"; "n0"]
       ++ [ entry 0 "m" "/lib32/m"; entry 0x300 "m" "/lib64/m" ]
       ++ map (fun k => entry 0x300 k ("/lib64/" ++ k))
           ["a8"; "a7"; "a6"; "a5"; "a4"; "a3"; "a2"; "a1"; "a0"] |}.

(** A cache whose only key holds a digit run beyond 32 bits. *)
Definition cache_big_run : DLCache :=
  {| FileEntries := [ entry 0x300 "99999999999" "/lib/big" ] |}.

(** A host without files and without [LD_LIBRARY_PATH]. *)
Definition bare_host : Host := graph_host [].

(** A cache file of one record whose value offset is the length of its
    string table. *)
Definition file_bad_offset : list ascii :=
  list_ascii_of_string cacheMagic ++ le32 1 ++ record_bytes 0x300 0 5
  ++ list_ascii_of_string "a" ++ [ascii_of_nat 0]
  ++ list_ascii_of_string "/a" ++ [ascii_of_nat 0].

(** A cache file that ends inside the last string of its table, before the
    terminator. *)
Definition file_cut_string : list ascii :=
  list_ascii_of_string cacheMagic ++ le32 1 ++ record_bytes 0x300 0 2
  ++ list_ascii_of_string "a" ++ [ascii_of_nat 0]
  ++ list_ascii_of_string "/a".

(** A graph in which the import of the start file does not exist. *)
Definition dangling : list (string * list string) := [ ("A", ["B"]) ].

(** The cache and the file system of the end-to-end example: one 64-bit
    entry for "libc.so.6", and a program that imports it by name. *)
Definition cache_libc : DLCache :=
  {| FileEntries := [ entry 0x300 "libc.so.6" "/lib/libc.so.6" ] |}.

Definition host_libc : Host :=
  graph_host [ ("prog", ["libc.so.6"]); ("/lib/libc.so.6", []) ].

(** ** [main]: the rest of the command *)

Module Cli.

(** The errors that [resolveBinary] returns: the one of [os.Stat], the one of
    [exec.LookPath], and its own. *)
Inductive bin_error : Type :=
| OsError (e : error)
| ExecError (name : string)          (* [*exec.Error] *)
| ErrUnableToLocate (name : string). (* "Unable to locate %q" *)

(** What [resolveBinary] takes from its host besides the file system of
    [Host]: the error of [os.Stat] ([None] for nil) and [exec.LookPath]. *)
Record PathHost : Type := {
  StatErr : string -> option error;
  LookPath : string -> bin_error + string
}.

(** [resolveBinary]: the name and the error it returns. *)
Definition resolveBinary (h : Host) (ph : PathHost) (dc : DLCache)
  (filename : string) : outcome (string * option bin_error) :=
  match StatErr ph filename with
  | Some err =>
    if IsNotExist err then
      match LookPath ph filename with
      | inr fn => Ret (fn, None)
      | inl err' =>
        '(fn, ok) ← Lookup h dc filename;
        if ok : bool then Ret (fn, Some err')
        else Ret (filename, Some (ErrUnableToLocate filename))
      end
    else Ret (filename, Some (OsError err))
  | None => Ret (filename, None)
  end.

(** The order of [sort.Strings]: the bytes of the strings, lexicographically. *)
Definition str_le (a b : string) : Prop := String.leb a b = true.

#[global] Instance str_le_dec a b : Decision (str_le a b).
Proof. unfold str_le. apply _. Defined.

(** [sortedSet], on the elements of the set in the order [iter] in which the
    loop [for element := range set] yields them. *)
Definition sortedSet (iter : list string) : list string := merge_sort str_le iter.

(** The loop [for _, lib := range sortedSet(imports)] of [main], which
    gathers the paths to archive; the log lines are not modelled. *)
Fixpoint main_paths (h : Host) (dc : DLCache) (libs : list string)
  (paths : list string) : outcome (list string) :=
  match libs with
  | [] => Ret paths
  | lib :: libs' =>
    '(path, ok) ← Lookup h dc lib;
    if ok : bool then main_paths h dc libs' (paths ++ [path])
    else main_paths h dc libs' paths
  end.

(** How [main] ends before it writes the archive: with the paths to archive,
    or with [log.Fatal] on an error. *)
Inductive plan : Type :=
| Archive (paths : list string)
| FatalResolve (name : string) (err : bin_error)
| FatalImports (err : error).

(** [main] from the resolution of its argument to the list [paths], given
    the cache and the order [iter] in which the set of imports is ranged. *)
Definition main_plan (h : Host) (ph : PathHost) (dc : DLCache) (fuel : nat)
  (iter : gset string -> list string) (arg : string) : outcome plan :=
  '(filename, err) ← resolveBinary h ph dc arg;
  match err with
  | Some e => Ret (FatalResolve filename e)
  | None =>
    '(imports, err) ← recursiveImports h dc fuel filename;
    match err with
    | Some e => Ret (FatalImports e)
    | None =>
      paths ← main_paths h dc (sortedSet (iter imports)) [filename];
      Ret (Archive paths)
    end
  end.

End Cli.
Import Cli.

(** ** More notions used to state the properties *)

(** *** Strings without digits *)

Fixpoint digit_free (s : string) : bool :=
  match s with
  | EmptyString => true
  | String c s' => negb (isAsciiDigit c) && digit_free s'
  end.

(** A comparison as the integer the comparator returns. *)
Definition sign (c : comparison) : Z :=
  match c with
  | Lt => -1
  | Eq => 0
  | Gt => 1
  end.

(** *** Strings of a string table *)

Definition NUL : ascii := ascii_of_nat 0.

(** The bytes before the first [NUL] of [bs], if there is one. *)
Fixpoint cstring (bs : list ascii) : option (list ascii) :=
  match bs with
  | [] => None
  | b :: bs' => if Ascii.eqb b NUL then Some [] else (b ::.) <$> cstring bs'
  end.

(** The string that starts at offset [off] of the table and ends before the
    next [NUL]. *)
Definition cstring_at (tab : list ascii) (off : Z) : option string :=
  string_of_list_ascii <$> cstring (drop (Z.to_nat off) tab).

(** The flags that a 12-byte record holds, as a signed 32-bit integer. *)
Definition record_flags (rec : list ascii) : Z := to_int32 (le_uint (take 4 rec)).

(** The entry that a record denotes in a string table, if both its offsets
    point to a terminated string. *)
Definition decode_record (tab : list ascii) (rec : list ascii) : option fileEntry :=
  k ← cstring_at tab (key_offset rec);
  v ← cstring_at tab (value_offset rec);
  Some {| Flags := record_flags rec; Key := k; Value := v |}.

Definition nul_free (s : string) : bool :=
  forallb (fun c => negb (Ascii.eqb c NUL)) (list_ascii_of_string s).

(** The bytes of an entry in the string table: the key and the value, each
    with its terminator. *)
Definition entry_strings (e : fileEntry) : list ascii :=
  list_ascii_of_string (Key e) ++ [NUL] ++ list_ascii_of_string (Value e) ++ [NUL].

(** The records of the entries [es] whose strings are laid out one after the
    other from offset [off] of the table. *)
Fixpoint layout_records (es : list fileEntry) (off : Z) : list (list ascii) :=
  match es with
  | [] => []
  | e :: es' =>
    let koff := off in
    let voff := off + Z.of_nat (String.length (Key e)) + 1 in
    record_bytes (Flags e) koff voff
    :: layout_records es' (off + Z.of_nat (length (entry_strings e)))
  end.

Definition layout_table (es : list fileEntry) : list ascii :=
  concat (map entry_strings es).

(** A cache file for the entries of [dc], in the layout that [ReadDLCache]
    reads. *)
Definition encode (dc : DLCache) : list ascii :=
  list_ascii_of_string cacheMagic
  ++ le32 (Z.of_nat (length (FileEntries dc)))
  ++ concat (layout_records (FileEntries dc) 0)
  ++ layout_table (FileEntries dc).

(** The caches that such a file can hold: flags of 32 bits, strings without
    [NUL], a count and offsets of 32 bits. *)
Definition encodable (dc : DLCache) : Prop :=
  Forall (fun e => - 2 ^ 31 <= Flags e < 2 ^ 31 /\
                   nul_free (Key e) = true /\ nul_free (Value e) = true)
         (FileEntries dc) /\
  Z.of_nat (length (FileEntries dc)) < 2 ^ 32 /\
  Z.of_nat (length (layout_table (FileEntries dc))) < 2 ^ 32.

(** *** The graph of the imports *)

(** [d] is an import that the file named [f] declares. *)
Definition edge (h : Host) (dc : DLCache) (f d : string) : Prop :=
  exists libs, readImports h dc f = Ret (inr libs) /\ d ∈ libs.

(** [d] is reached from [f] by one or more imports. *)
Definition reach (h : Host) (dc : DLCache) : string -> string -> Prop :=
  tc (edge h dc).

(** From [st] to [st'] the two sets grow, the names newly seen are [root] or
    reached from it, and the names newly recorded are reached from [root]. *)
Definition sound_step (h : Host) (dc : DLCache) (root : string)
  (st st' : state) : Prop :=
  seen st ⊆ seen st' /\ imports st ⊆ imports st' /\
  (forall x, x ∈ seen st' -> x ∈ seen st \/ x = root \/ reach h dc root x) /\
  (forall d, d ∈ imports st' -> d ∈ imports st \/ reach h dc root d).

(** The same for the loop over the imports of [root]. *)
Definition sound_deps (h : Host) (dc : DLCache) (root : string)
  (st st' : state) : Prop :=
  seen st ⊆ seen st' /\ imports st ⊆ imports st' /\
  (forall x, x ∈ seen st' -> x ∈ seen st \/ reach h dc root x) /\
  (forall d, d ∈ imports st' -> d ∈ imports st \/ reach h dc root d).

(** The names seen in [st'] and not in [st] have all their imports seen and
    recorded in [st'']. *)
Definition closed_new (h : Host) (dc : DLCache) (st st' st'' : state) : Prop :=
  forall x, x ∈ seen st' -> x ∉ seen st ->
  forall d, edge h dc x d -> d ∈ seen st'' /\ d ∈ imports st''.

(** What the calls of [readImports] did, by the way [visit] ended: when it
    ends with the panic [p], the last call raised [p] and no call before it
    panicked; when it ends in any other way, no call panicked. *)
Definition panic_shape (h : Host) (dc : DLCache) (s : status) (st : state) : Prop :=
  match s with
  | Panicked p =>
    exists (l : list string) (f : string), reads st = (l ++ [f])%list /\
      (forall g q, g ∈ l -> readImports h dc g <> Panics q) /\
      readImports h dc f = Panics p
  | _ => forall f p, f ∈ reads st -> readImports h dc f <> Panics p
  end.

(** *** More inputs of the examples *)

(** A program whose import exists only in the cache, under a key that makes
    the fallback of [Lookup] panic. *)
Definition host_prog_libc : Host := graph_host [ ("prog", ["libc.so.6"]) ].

Definition diamond_names : gset string := {[ "A"; "B"; "C"; "D" ]}.

Definition cycle_names : gset string := {[ "A"; "B" ]}.

(** A host whose [LD_LIBRARY_PATH] lists two directories, the second of
    which holds "libz.so". *)
Definition host_ld_path : Host :=
  {| Getenv := fun name =>
       if String.eqb name "LD_LIBRARY_PATH" then "/opt/lib:/usr/lib" else "";
     Stat := fun p => String.eqb p "/usr/lib/libz.so";
     filepath_Join := fun dir name => (dir ++ "/" ++ name)%string;
     Open := fun name => inl (PathError "open" name true) |}.


(** *** The command *)

(** The path that [Lookup] gives for [lib], when it returns one as found. *)
Definition found_path (h : Host) (dc : DLCache) (lib : string) : option string :=
  match Lookup h dc lib with
  | Ret (path, true) => Some path
  | _ => None
  end.

(** A loop over a map yields each of its keys once, in some order. *)
Definition ranges (iter : gset string -> list string) : Prop :=
  forall s, NoDup (iter s) /\ forall x, x ∈ iter s <-> x ∈ s.

(** The argument is a file that exists, or one that [exec.LookPath] finds
    under the name [filename]. *)
Definition on_disk_or_path (ph : PathHost) (arg filename : string) : Prop :=
  (StatErr ph arg = None /\ filename = arg) \/
  (exists err, StatErr ph arg = Some err /\ IsNotExist err = true /\
               LookPath ph arg = inr filename).

(** A host on which "prog" exists and nothing else does, and one on which
    nothing exists; [exec.LookPath] finds nothing on either. *)
Definition path_host_prog : PathHost :=
  {| StatErr := fun name =>
       if String.eqb name "prog" then None else Some (PathError "stat" name true);
     LookPath := fun name => inl (ExecError name) |}.

Definition path_host_none : PathHost :=
  {| StatErr := fun name => Some (PathError "stat" name true);
     LookPath := fun name => inl (ExecError name) |}.

(** *** What the maps hold while [visit] runs *)

(** In [st] the names seen are the names read, each of them but [start] was
    recorded as an import before it was seen, and every name recorded is an
    import that a file read did declare. *)
Definition tidy (h : Host) (dc : DLCache) (start : string) (st : state) : Prop :=
  (forall x, x ∈ seen st <-> x ∈ reads st) /\
  (forall x, x ∈ seen st -> x = start \/ x ∈ imports st) /\
  (forall d, d ∈ imports st ->
     exists g libs, g ∈ reads st /\ readImports h dc g = Ret (inr libs) /\ d ∈ libs).

(** A call that starts in [st] and ends as [r] keeps the state tidy and the
    names read, and, unless the model ran out of fuel, leaves every name
    recorded as seen. *)
Definition kept (h : Host) (dc : DLCache) (start : string) (st : state)
  (r : status * state) : Prop :=
  tidy h dc start r.2 /\
  (forall x, x ∈ reads st -> x ∈ reads r.2) /\
  (r.1 <> Starved -> forall d, d ∈ imports r.2 -> d ∈ seen r.2).
(** * Properties *)

(** ** Strings and bytes *)

Section string_facts.

Lemma byteZ_range c : 0 <= byteZ c < 256.
Proof.
  unfold byteZ. pose proof (N_ascii_bounded c). lia.
Qed.

Lemma byteZ_inj c1 c2 : byteZ c1 = byteZ c2 -> c1 = c2.
Proof.
  unfold byteZ. intros H. apply N2Z.inj in H.
  rewrite <- (ascii_N_embedding c1), <- (ascii_N_embedding c2). congruence.
Qed.

Lemma at_cons c s i : at_ (String c s) (S i) = at_ s i.
Proof. reflexivity. Qed.

Lemma at_lt s : forall i, (i < len s)%nat -> exists c, at_ s i = Some c.
Proof.
  induction s as [|c s IH]; intros i Hi; cbn in *; [lia|].
  destruct i as [|i]; [eexists; reflexivity|].
  apply IH. unfold len. lia.
Qed.

Lemma at_Some_lt s : forall i c, at_ s i = Some c -> (i < len s)%nat.
Proof.
  induction s as [|c s IH]; intros i c' H; cbn in *; [discriminate|].
  destruct i as [|i]; [lia|]. apply IH in H. unfold len in H. lia.
Qed.

Lemma slice_from_0 s : slice_from s 0 = s.
Proof. destruct s; reflexivity. Qed.

Lemma slice_from_at s : forall i c,
  at_ s i = Some c -> exists s', slice_from s i = String c s'.
Proof.
  induction s as [|c s IH]; intros i c' H; cbn in *; [discriminate|].
  destruct i as [|i]; cbn.
  - injection H as <-. eexists; reflexivity.
  - apply IH, H.
Qed.

Lemma slice_to_at s : forall n j, (j < n)%nat -> at_ (slice_to s n) j = at_ s j.
Proof.
  induction s as [|c s IH]; intros n j Hj; destruct n as [|n]; try lia; cbn.
  - reflexivity.
  - destruct j as [|j]; [reflexivity|]. apply IH. lia.
Qed.

Lemma slice_to_head c s n : slice_to (String c s) (S n) = String c (slice_to s n).
Proof. reflexivity. Qed.

End string_facts.

(** ** The comparator, turn by turn *)

Section libcmp_unfold.

Lemma libcmp_loop_shift c1 s1 c2 s2 n : forall i,
  libcmp_loop (String c1 s1) (String c2 s2) n (S i) = libcmp_loop s1 s2 n i.
Proof.
  induction n as [|n IH]; intros i; [reflexivity|].
  cbn [libcmp_loop]. rewrite !at_cons. cbn [slice_from].
  rewrite IH. reflexivity.
Qed.

(** The comparison of two non-empty strings is one turn on their heads,
    followed by the comparison of their tails. *)
Lemma libcmp_cons c1 s1 c2 s2 :
  _dl_cache_libcmp (String c1 s1) (String c2 s2) =
  libcmp_step (String c1 s1) (String c2 s2) c1 c2 (_dl_cache_libcmp s1 s2).
Proof.
  unfold _dl_cache_libcmp, libcmp_step.
  change (len (String c1 s1)) with (S (len s1)).
  change (len (String c2 s2)) with (S (len s2)).
  change (S (len s2) <? S (len s1))%nat with (len s2 <? len s1)%nat.
  change (S (len s1) <? S (len s2))%nat with (len s1 <? len s2)%nat.
  set (l := if (len s2 <? len s1)%nat then len s2 else len s1).
  replace (if (len s2 <? len s1)%nat then S (len s2) else S (len s1)) with (S l)
    by (subst l; destruct (len s2 <? len s1)%nat; reflexivity).
  cbn [libcmp_loop at_ String.get slice_from].
  rewrite libcmp_loop_shift.
  destruct (isDigitByte c1), (isDigitByte c2); cbn [andb]; try reflexivity.
  - destruct (parseLeadingNum (String c1 s1)) as [n1| |]; try reflexivity.
    destruct (parseLeadingNum (String c2 s2)) as [n2| |]; try reflexivity.
    cbn. destruct (n1 <? n2); [reflexivity|].
    destruct (n2 <? n1); reflexivity.
  - destruct (byteZ c1 <? byteZ c2); [reflexivity|].
    destruct (byteZ c2 <? byteZ c1); reflexivity.
Qed.

Lemma libcmp_nil_l s :
  _dl_cache_libcmp "" s = match s with EmptyString => Ret 0 | _ => Ret (-1) end.
Proof. destruct s; reflexivity. Qed.

Lemma libcmp_nil_r s :
  _dl_cache_libcmp s "" = match s with EmptyString => Ret 0 | _ => Ret 1 end.
Proof. destruct s; reflexivity. Qed.

(** Swapping the arguments negates what the comparator returns. *)
Lemma libcmp_swap_ret p1 : forall p2 r,
  _dl_cache_libcmp p1 p2 = Ret r -> _dl_cache_libcmp p2 p1 = Ret (- r).
Proof.
  induction p1 as [|c1 s1 IH]; intros [|c2 s2] r.
  - cbn. intros [= <-]. reflexivity.
  - rewrite libcmp_nil_l, libcmp_nil_r. intros [= <-]. reflexivity.
  - rewrite libcmp_nil_l, libcmp_nil_r. intros [= <-]. reflexivity.
  - rewrite !libcmp_cons. unfold libcmp_step.
    destruct (isDigitByte c1) eqn:D1, (isDigitByte c2) eqn:D2; cbn [andb].
    + destruct (parseLeadingNum (String c1 s1)) as [n1| |]; cbn; try discriminate.
      destruct (parseLeadingNum (String c2 s2)) as [n2| |]; cbn; try discriminate.
      destruct (Z.ltb_spec n1 n2), (Z.ltb_spec n2 n1); try lia.
      * intros [= <-]. reflexivity.
      * intros [= <-]. reflexivity.
      * apply IH.
    + intros [= <-]. reflexivity.
    + intros [= <-]. reflexivity.
    + destruct (Z.ltb_spec (byteZ c1) (byteZ c2)), (Z.ltb_spec (byteZ c2) (byteZ c1));
        try lia.
      * intros [= <-]. reflexivity.
      * intros [= <-]. reflexivity.
      * apply IH.
Qed.

Lemma libcmp_swap p1 p2 r :
  _dl_cache_libcmp p1 p2 = Ret r <-> _dl_cache_libcmp p2 p1 = Ret (- r).
Proof.
  split; [apply libcmp_swap_ret|].
  intros H. apply libcmp_swap_ret in H. rewrite Z.opp_involutive in H. exact H.
Qed.

(** The comparator returns [-1], [0] or [1]. *)
Lemma libcmp_range p1 : forall p2 r,
  _dl_cache_libcmp p1 p2 = Ret r -> r = -1 \/ r = 0 \/ r = 1.
Proof.
  induction p1 as [|c1 s1 IH]; intros [|c2 s2] r.
  - cbn. intros [= <-]. auto.
  - rewrite libcmp_nil_l. intros [= <-]. auto.
  - rewrite libcmp_nil_r. intros [= <-]. auto.
  - rewrite libcmp_cons. unfold libcmp_step.
    destruct (isDigitByte c1 && isDigitByte c2).
    + destruct (parseLeadingNum (String c1 s1)) as [n1| |]; cbn; try discriminate.
      destruct (parseLeadingNum (String c2 s2)) as [n2| |]; cbn; try discriminate.
      destruct (n1 <? n2); [intros [= <-]; auto|].
      destruct (n2 <? n1); [intros [= <-]; auto|]. apply IH.
    + destruct (isDigitByte c1); [intros [= <-]; auto|].
      destruct (isDigitByte c2); [intros [= <-]; auto|].
      destruct (byteZ c1 <? byteZ c2); [intros [= <-]; auto|].
      destruct (byteZ c2 <? byteZ c1); [intros [= <-]; auto|]. apply IH.
Qed.

(** It never runs out of its own bounds: it returns, or it panics with the
    error of [strconv.ParseInt]. *)
Lemma libcmp_outcome p1 : forall p2,
  (exists r, _dl_cache_libcmp p1 p2 = Ret r) \/
  (exists e, _dl_cache_libcmp p1 p2 = Panics (PanicNumError e)).
Proof.
  assert (Hparse : forall s, (exists n, parseLeadingNum s = Ret n) \/
                             (exists e, parseLeadingNum s = Panics (PanicNumError e))).
  { intros s. unfold parseLeadingNum.
    destruct (Strconv.ParseInt10 _ 32); eauto. }
  induction p1 as [|c1 s1 IH]; intros [|c2 s2].
  - left. eexists. reflexivity.
  - left. eexists. reflexivity.
  - left. eexists. reflexivity.
  - rewrite libcmp_cons. unfold libcmp_step.
    destruct (isDigitByte c1 && isDigitByte c2).
    + destruct (Hparse (String c1 s1)) as [[n1 ->]|[e ->]]; cbn; [|eauto].
      destruct (Hparse (String c2 s2)) as [[n2 ->]|[e ->]]; cbn; [|eauto].
      destruct (n1 <? n2); [eauto|]. destruct (n2 <? n1); [eauto|]. apply IH.
    + destruct (isDigitByte c1); [eauto|].
      destruct (isDigitByte c2); [eauto|].
      destruct (byteZ c1 <? byteZ c2); [eauto|].
      destruct (byteZ c2 <? byteZ c1); [eauto|]. apply IH.
Qed.

End libcmp_unfold.

(** ** [parseLeadingNum] against the digit run *)

Section parse_facts.

Lemma isDigitByte_ascii c : isDigitByte c = isAsciiDigit c.
Proof.
  unfold isDigitByte, isAsciiDigit, Unicode.IsDigit, Unicode.MaxLatin1.
  pose proof (byteZ_range c).
  destruct (Z.leb_spec (byteZ c) 255); [reflexivity | lia].
Qed.

Lemma decode_ascii c s :
  byteZ c < 128 -> Utf8.DecodeRuneInString (String c s) = (byteZ c, 1%nat).
Proof.
  intros H. unfold Utf8.DecodeRuneInString.
  destruct (Z.ltb_spec (byteZ c) 128); [reflexivity | lia].
Qed.

Lemma isAsciiDigit_range c : isAsciiDigit c = true <-> 48 <= byteZ c <= 57.
Proof. unfold isAsciiDigit. rewrite andb_true_iff, !Z.leb_le. reflexivity. Qed.

Lemma indexFunc_digit c s i :
  isAsciiDigit c = true ->
  Strings.indexFunc nonDigit (String c s) i 0 = Strings.indexFunc nonDigit s (S i) 0.
Proof.
  intros Hc. pose proof (proj1 (isAsciiDigit_range c) Hc).
  cbn [Strings.indexFunc]. rewrite decode_ascii by lia.
  unfold nonDigit. fold (isDigitByte c). rewrite isDigitByte_ascii, Hc.
  reflexivity.
Qed.

Lemma indexFunc_range f s : forall i skip,
  Strings.indexFunc f s i skip = -1 \/
  Z.of_nat i <= Strings.indexFunc f s i skip < Z.of_nat (i + len s).
Proof.
  induction s as [|c s IH]; intros i skip; [left; reflexivity|].
  cbn [Strings.indexFunc]. change (len (String c s)) with (S (len s)).
  destruct skip as [|k].
  - destruct (Utf8.DecodeRuneInString (String c s)) as [r w].
    destruct (f r); [right; lia|].
    destruct (IH (S i) (w - 1)%nat) as [->|H]; [auto | right; lia].
  - destruct (IH (S i) k) as [->|H]; [auto | right; lia].
Qed.

Lemma followed_digit c s :
  isAsciiDigit c = true ->
  followed_by_unicode_digit (String c s) = followed_by_unicode_digit s.
Proof.
  intros Hc. unfold followed_by_unicode_digit. cbn [digit_run]. rewrite Hc.
  reflexivity.
Qed.

Lemma scan_end_spec s : forall i,
  (followed_by_unicode_digit s = false ->
     scan_end s i = (i + len (digit_run s))%nat) /\
  (followed_by_unicode_digit s = true ->
     (i + len (digit_run s) < scan_end s i <= i + len s)%nat).
Proof.
  induction s as [|c s IH]; intros i.
  - cbn. split; [intros _; reflexivity | discriminate].
  - destruct (isAsciiDigit c) eqn:Hc.
    + rewrite followed_digit by assumption.
      unfold scan_end. rewrite indexFunc_digit by assumption.
      fold (scan_end s (S i)). cbn [digit_run]. rewrite Hc.
      change (len (String c s)) with (S (len s)).
      change (len (String c (digit_run s))) with (S (len (digit_run s))).
      destruct (IH (S i)) as [IH1 IH2]. unfold scan_end in *.
      replace (S i + len s)%nat with (i + S (len s))%nat in * by lia.
      split; intros Hf; [rewrite IH1 by assumption | specialize (IH2 Hf)]; lia.
    + unfold followed_by_unicode_digit, scan_end. cbn [digit_run]. rewrite Hc.
      cbn [len String.length slice_from Strings.indexFunc].
      destruct (Utf8.DecodeRuneInString (String c s)) as [r w]. cbn [fst].
      change (nonDigit r) with (negb (Unicode.IsDigit r)).
      change (S (String.length s)) with (S (len s)).
      split; intros Hf; rewrite Hf; cbn [negb].
      * rewrite (proj2 (Z.eqb_neq _ _)) by lia. lia.
      * destruct (indexFunc_range nonDigit s (S i) (w - 1)%nat) as [->|H].
        -- cbn. lia.
        -- rewrite (proj2 (Z.eqb_neq _ _)) by lia. lia.
Qed.

Lemma slice_to_digit_run s : slice_to s (len (digit_run s)) = digit_run s.
Proof.
  induction s as [|c s IH]; [reflexivity|].
  cbn [digit_run]. destruct (isAsciiDigit c); [|reflexivity].
  cbn. f_equal. exact IH.
Qed.

Lemma digit_run_idem s : digit_run (digit_run s) = digit_run s.
Proof.
  induction s as [|c s IH]; [reflexivity|].
  cbn [digit_run]. destruct (isAsciiDigit c) eqn:Hc; [|reflexivity].
  cbn [digit_run]. rewrite Hc, IH. reflexivity.
Qed.

Lemma at_digit_run_end s c :
  at_ s (len (digit_run s)) = Some c -> isAsciiDigit c = false.
Proof.
  induction s as [|c0 s IH]; [discriminate|].
  cbn [digit_run]. destruct (isAsciiDigit c0) eqn:Hc.
  - change (len (String c0 (digit_run s))) with (S (len (digit_run s))).
    rewrite at_cons. exact IH.
  - cbn. intros [= <-]. exact Hc.
Qed.

Lemma decimal_from_mono r : forall a,
  0 <= a -> digit_run r = r -> a <= decimal_from a r.
Proof.
  induction r as [|c r IH]; intros a Ha Hr; cbn; [lia|].
  cbn [digit_run] in Hr. destruct (isAsciiDigit c) eqn:Hc; [|discriminate].
  injection Hr as Hr. apply isAsciiDigit_range in Hc.
  specialize (IH (a * 10 + (byteZ c - 48)) ltac:(lia) Hr). lia.
Qed.

Lemma decimal_from_split r : forall a,
  decimal_from a r = a * 10 ^ Z.of_nat (len r) + decimal r.
Proof.
  unfold decimal.
  induction r as [|c r IH]; intros a; cbn [decimal_from].
  - cbn. lia.
  - change (len (String c r)) with (S (len r)).
    rewrite Nat2Z.inj_succ, Z.pow_succ_r by lia.
    rewrite (IH (a * 10 + _)), (IH (0 * 10 + _)). ring.
Qed.

Lemma parseUintLoop_digits r : forall n,
  digit_run r = r -> 0 <= n <= 2 ^ 32 - 1 ->
  Strconv.parseUintLoop (2 ^ 32 - 1) r n =
  if decimal_from n r <=? 2 ^ 32 - 1 then inl (decimal_from n r) else inr ErrRange.
Proof.
  induction r as [|c r IH]; intros n Hr Hn; cbn [Strconv.parseUintLoop decimal_from].
  - destruct (Z.leb_spec n (2 ^ 32 - 1)); [reflexivity | lia].
  - cbn [digit_run] in Hr. destruct (isAsciiDigit c) eqn:Hc; [|discriminate].
    injection Hr as Hr. unfold isAsciiDigit in Hc. rewrite Hc.
    apply andb_true_iff in Hc. rewrite !Z.leb_le in Hc.
    change (Strconv.maxUint64 / 10 + 1) with 1844674407370955162.
    change (2 ^ 32 - 1) with 4294967295 in *.
    destruct (Z.leb_spec 1844674407370955162 n); [lia|].
    destruct (Z.ltb_spec 4294967295 (n * 10 + (byteZ c - 48))).
    + pose proof (decimal_from_mono r (n * 10 + (byteZ c - 48)) ltac:(lia) Hr).
      destruct (Z.leb_spec (decimal_from (n * 10 + (byteZ c - 48)) r) 4294967295);
        [lia | reflexivity].
    + apply IH; [assumption | lia].
Qed.

Lemma parseUintLoop_bad m r : forall n j c,
  at_ r j = Some c -> isAsciiDigit c = false ->
  exists e, Strconv.parseUintLoop m r n = inr e.
Proof.
  induction r as [|c0 r IH]; intros n j c Hj Hc; [discriminate|].
  cbn [Strconv.parseUintLoop].
  destruct ((48 <=? byteZ c0) && (byteZ c0 <=? 57)) eqn:H0; [|eauto].
  destruct (_ <=? n); [eauto|].
  destruct (m <? _); [eauto|].
  destruct j as [|j].
  - cbn in Hj. injection Hj as ->. unfold isAsciiDigit in Hc. congruence.
  - rewrite at_cons in Hj. eapply IH; eassumption.
Qed.

(** [strconv.ParseInt] on a non-empty string of decimal digits. *)
Lemma ParseInt10_digits c r :
  digit_run (String c r) = String c r ->
  Strconv.ParseInt10 (String c r) 32 =
  if decimal (String c r) <? 2 ^ 31 then inl (decimal (String c r)) else inr ErrRange.
Proof.
  intros Hr. pose proof Hr as Hr'.
  cbn [digit_run] in Hr'. destruct (isAsciiDigit c) eqn:Hc; [|discriminate].
  apply isAsciiDigit_range in Hc.
  unfold Strconv.ParseInt10, Strconv.ParseUint10.
  destruct (Z.eqb_spec (byteZ c) 43); [lia|].
  destruct (Z.eqb_spec (byteZ c) 45); [lia|]. cbn [orb negb andb].
  rewrite parseUintLoop_digits by (try assumption; lia).
  fold (decimal (String c r)).
  change (2 ^ (32 - 1)) with 2147483648. change (2 ^ 31) with 2147483648.
  change (2 ^ 32 - 1) with 4294967295.
  destruct (Z.leb_spec (decimal (String c r)) 4294967295).
  - destruct (Z.leb_spec 2147483648 (decimal (String c r)));
      destruct (Z.ltb_spec (decimal (String c r)) 2147483648); try lia; reflexivity.
  - destruct (Z.ltb_spec (decimal (String c r)) 2147483648); [lia | reflexivity].
Qed.

Lemma ParseInt10_bad c r j c' :
  isAsciiDigit c = true ->
  at_ (String c r) j = Some c' -> isAsciiDigit c' = false ->
  exists e, Strconv.ParseInt10 (String c r) 32 = inr e.
Proof.
  intros Hc Hj Hc'. apply isAsciiDigit_range in Hc.
  unfold Strconv.ParseInt10, Strconv.ParseUint10.
  destruct (Z.eqb_spec (byteZ c) 43); [lia|].
  destruct (Z.eqb_spec (byteZ c) 45); [lia|]. cbn [orb].
  destruct (parseUintLoop_bad (2 ^ 32 - 1) (String c r) 0 j c' Hj Hc') as [e ->].
  eauto.
Qed.

(** On a string that starts with a digit, [parseLeadingNum] returns the value
    of the digit run when the run is one it accepts, and panics otherwise. *)
Lemma parseLeadingNum_spec c s :
  isAsciiDigit c = true ->
  (int32_run (String c s) = true ->
     parseLeadingNum (String c s) = Ret (run_value (String c s))) /\
  (int32_run (String c s) = false ->
     exists e, parseLeadingNum (String c s) = Panics (PanicNumError e)).
Proof.
  intros Hc. set (p := String c s).
  assert (Hrun : exists r, digit_run p = String c r).
  { subst p. cbn [digit_run]. rewrite Hc. eauto. }
  destruct Hrun as [r Hrun].
  assert (Hparse : parseLeadingNum p =
    match Strconv.ParseInt10 (slice_to p (scan_end p 0)) 32 with
    | inr err => Panics (PanicNumError err)
    | inl n => Ret n
    end) by reflexivity.
  rewrite Hparse. clear Hparse.
  destruct (scan_end_spec p 0%nat) as [Hclean Hdirty].
  unfold int32_run, run_value.
  destruct (followed_by_unicode_digit p) eqn:Hf; cbn [negb andb].
  - split; [discriminate|]. intros _.
    specialize (Hdirty eq_refl). cbn [Nat.add] in Hdirty.
    destruct (at_lt p (len (digit_run p)) ltac:(lia)) as [c' Hc'].
    pose proof (at_digit_run_end p c' Hc') as Hbad.
    assert (Hat : at_ (slice_to p (scan_end p 0)) (len (digit_run p)) = Some c').
    { rewrite slice_to_at by lia. exact Hc'. }
    destruct (scan_end p 0) as [|k] eqn:Hk; [lia|].
    subst p. rewrite slice_to_head in Hat |- *.
    destruct (ParseInt10_bad c _ _ c' Hc Hat Hbad) as [e ->]. eauto.
  - rewrite (Hclean eq_refl). cbn [Nat.add].
    rewrite slice_to_digit_run, Hrun.
    rewrite ParseInt10_digits by (rewrite <- Hrun; apply digit_run_idem).
    destruct (decimal (String c r) <? 2 ^ 31); split;
      try discriminate; eauto.
Qed.

Lemma parseLeadingNum_Ret c s n :
  isAsciiDigit c = true ->
  parseLeadingNum (String c s) = Ret n ->
  int32_run (String c s) = true /\ n = run_value (String c s).
Proof.
  intros Hc Hn. destruct (parseLeadingNum_spec c s Hc) as [H1 H2].
  destruct (int32_run (String c s)).
  - rewrite (H1 eq_refl) in Hn. injection Hn as <-. auto.
  - destruct (H2 eq_refl) as [e He]. congruence.
Qed.

End parse_facts.

(** ** The comparator against digit runs *)

Section libcmp_runs.

Lemma both_digits_cons c1 s1 c2 s2 i :
  both_digits (String c1 s1) (String c2 s2) (S i) = both_digits s1 s2 i.
Proof. reflexivity. Qed.

Lemma tie_at_cons c1 s1 c2 s2 j :
  tie_at (String c1 s1) (String c2 s2) (S j) = tie_at s1 s2 j.
Proof. reflexivity. Qed.

Lemma reached_cons c1 s1 c2 s2 i :
  reached (String c1 s1) (String c2 s2) (S i) =
  tie_at (String c1 s1) (String c2 s2) 0 && reached s1 s2 i.
Proof.
  unfold reached. cbn [seq forallb]. f_equal.
  rewrite <- seq_shift.
  induction (seq 0 i) as [|j l IH]; [reflexivity|].
  cbn [map forallb]. rewrite IH, tie_at_cons. reflexivity.
Qed.

Lemma compared_cons c1 s1 c2 s2 i :
  compared (String c1 s1) (String c2 s2) (S i) =
  tie_at (String c1 s1) (String c2 s2) 0 && compared s1 s2 i.
Proof.
  unfold compared. rewrite reached_cons, both_digits_cons.
  symmetry. apply andb_assoc.
Qed.

Lemma both_digits_lt p1 p2 i :
  both_digits p1 p2 i = true -> (i < len p1)%nat /\ (i < len p2)%nat.
Proof.
  unfold both_digits.
  destruct (at_ p1 i) eqn:H1; [|discriminate].
  destruct (at_ p2 i) eqn:H2; [|discriminate].
  intros _. split; eapply at_Some_lt; eassumption.
Qed.

(** A turn on two digits whose runs [parseLeadingNum] accepts. *)
Lemma libcmp_head_digits c1 s1 c2 s2 :
  isAsciiDigit c1 = true -> isAsciiDigit c2 = true ->
  int32_run (String c1 s1) = true -> int32_run (String c2 s2) = true ->
  _dl_cache_libcmp (String c1 s1) (String c2 s2) =
  if run_value (String c1 s1) <? run_value (String c2 s2) then Ret (-1)
  else if run_value (String c2 s2) <? run_value (String c1 s1) then Ret 1
  else _dl_cache_libcmp s1 s2.
Proof.
  intros H1 H2 R1 R2. rewrite libcmp_cons. unfold libcmp_step.
  rewrite !isDigitByte_ascii, H1, H2. cbn [andb].
  rewrite (proj1 (parseLeadingNum_spec c1 s1 H1) R1).
  rewrite (proj1 (parseLeadingNum_spec c2 s2 H2) R2).
  reflexivity.
Qed.

(** A turn on two digits of which one starts a run that is not accepted. *)
Lemma libcmp_head_digits_panic c1 s1 c2 s2 :
  isAsciiDigit c1 = true -> isAsciiDigit c2 = true ->
  int32_run (String c1 s1) = false \/ int32_run (String c2 s2) = false ->
  exists e, _dl_cache_libcmp (String c1 s1) (String c2 s2) = Panics (PanicNumError e).
Proof.
  intros H1 H2 R. rewrite libcmp_cons. unfold libcmp_step.
  rewrite !isDigitByte_ascii, H1, H2. cbn [andb].
  destruct (parseLeadingNum_spec c1 s1 H1) as [A1 B1].
  destruct (parseLeadingNum_spec c2 s2 H2) as [A2 B2].
  destruct (int32_run (String c1 s1)).
  - rewrite (A1 eq_refl). cbn.
    destruct R as [R|R]; [discriminate|].
    destruct (B2 R) as [e ->]. cbn. eauto.
  - destruct (B1 eq_refl) as [e ->]. cbn. eauto.
Qed.

(** A turn on the same byte, not a digit, in both strings. *)
Lemma libcmp_head_same c s1 s2 :
  isAsciiDigit c = false ->
  _dl_cache_libcmp (String c s1) (String c s2) = _dl_cache_libcmp s1 s2.
Proof.
  intros H. rewrite libcmp_cons. unfold libcmp_step.
  rewrite !isDigitByte_ascii, H. cbn [andb].
  rewrite Z.ltb_irrefl. reflexivity.
Qed.

Lemma run_value_head c s :
  isAsciiDigit c = true ->
  run_value (String c s) =
  (byteZ c - 48) * 10 ^ Z.of_nat (len (digit_run s)) + run_value s.
Proof.
  intros H. unfold run_value. cbn [digit_run]. rewrite H.
  unfold decimal at 1. cbn [decimal_from]. rewrite decimal_from_split. ring.
Qed.

(** A tie at the head: the comparison is that of the tails, unless it panics
    on one of the two digit runs. *)
Lemma libcmp_tie c1 s1 c2 s2 :
  tie_at (String c1 s1) (String c2 s2) 0 = true ->
  _dl_cache_libcmp (String c1 s1) (String c2 s2) = _dl_cache_libcmp s1 s2 \/
  (both_digits (String c1 s1) (String c2 s2) 0 = true /\
   (int32_run (String c1 s1) = false \/ int32_run (String c2 s2) = false) /\
   exists e, _dl_cache_libcmp (String c1 s1) (String c2 s2) = Panics (PanicNumError e)).
Proof.
  unfold tie_at, both_digits. cbn [at_ String.get slice_from].
  destruct (isAsciiDigit c1) eqn:H1, (isAsciiDigit c2) eqn:H2; cbn [andb negb];
    try discriminate.
  - intros Hv. apply Z.eqb_eq in Hv.
    destruct (int32_run (String c1 s1)) eqn:R1, (int32_run (String c2 s2)) eqn:R2.
    + left. rewrite libcmp_head_digits by assumption.
      rewrite Hv, Z.ltb_irrefl. reflexivity.
    + right. split; [reflexivity|]. split; [auto|].
      apply libcmp_head_digits_panic; auto.
    + right. split; [reflexivity|]. split; [auto|].
      apply libcmp_head_digits_panic; auto.
    + right. split; [reflexivity|]. split; [auto|].
      apply libcmp_head_digits_panic; auto.
  - intros Hc. apply Ascii.eqb_eq in Hc. subst c2.
    left. apply libcmp_head_same. assumption.
Qed.

(** The comparator returns on every pair of strings whose compared digit runs
    are accepted by [parseLeadingNum]. *)
Lemma libcmp_returns p1 : forall p2,
  (forall i, compared p1 p2 i = true ->
     int32_run (slice_from p1 i) = true /\ int32_run (slice_from p2 i) = true) ->
  exists r, _dl_cache_libcmp p1 p2 = Ret r.
Proof.
  induction p1 as [|c1 s1 IH]; intros [|c2 s2] H.
  - eexists; reflexivity.
  - eexists; reflexivity.
  - eexists; reflexivity.
  - assert (Htail : tie_at (String c1 s1) (String c2 s2) 0 = true ->
                    exists r, _dl_cache_libcmp s1 s2 = Ret r).
    { intros Ht. apply IH. intros i Hi.
      apply (H (S i)). rewrite compared_cons, Ht, Hi. reflexivity. }
    destruct (isAsciiDigit c1) eqn:H1, (isAsciiDigit c2) eqn:H2.
    + destruct (H 0%nat) as [R1 R2].
      { unfold compared, both_digits. cbn. rewrite H1, H2. reflexivity. }
      cbn [slice_from] in R1, R2.
      rewrite libcmp_head_digits by assumption.
      destruct (Z.ltb_spec (run_value (String c1 s1)) (run_value (String c2 s2)));
        [eauto|].
      destruct (Z.ltb_spec (run_value (String c2 s2)) (run_value (String c1 s1)));
        [eauto|].
      apply Htail. unfold tie_at. cbn [at_ String.get slice_from].
      rewrite H1, H2. cbn [andb]. apply Z.eqb_eq. lia.
    + rewrite libcmp_cons. unfold libcmp_step.
      rewrite !isDigitByte_ascii, H1, H2. cbn. eauto.
    + rewrite libcmp_cons. unfold libcmp_step.
      rewrite !isDigitByte_ascii, H1, H2. cbn. eauto.
    + rewrite libcmp_cons. unfold libcmp_step.
      rewrite !isDigitByte_ascii, H1, H2. cbn [andb].
      destruct (Z.ltb_spec (byteZ c1) (byteZ c2)); [eauto|].
      destruct (Z.ltb_spec (byteZ c2) (byteZ c1)); [eauto|].
      apply Htail. unfold tie_at. cbn [at_ String.get].
      rewrite H1, H2. cbn [andb negb].
      apply Ascii.eqb_eq, byteZ_inj. lia.
Qed.

(** It panics as soon as one of the compared digit runs is not accepted. *)
Lemma libcmp_panics i : forall p1 p2,
  compared p1 p2 i = true ->
  int32_run (slice_from p1 i) = false \/ int32_run (slice_from p2 i) = false ->
  exists e, _dl_cache_libcmp p1 p2 = Panics (PanicNumError e).
Proof.
  induction i as [|i IH]; intros p1 p2 Hc Hr.
  - unfold compared, both_digits in Hc. cbn [reached seq forallb andb] in Hc.
    destruct p1 as [|c1 s1]; [discriminate|].
    destruct p2 as [|c2 s2]; [discriminate|].
    cbn [at_ String.get] in Hc. apply andb_true_iff in Hc as [H1 H2].
    cbn [slice_from] in Hr.
    apply libcmp_head_digits_panic; assumption.
  - pose proof Hc as Hc'. unfold compared in Hc'.
    apply andb_true_iff in Hc' as [_ Hb]. apply both_digits_lt in Hb as [L1 L2].
    destruct p1 as [|c1 s1]; [cbn in L1; lia|].
    destruct p2 as [|c2 s2]; [cbn in L2; lia|].
    rewrite compared_cons in Hc. apply andb_true_iff in Hc as [Ht Hc].
    cbn [slice_from] in Hr.
    destruct (libcmp_tie c1 s1 c2 s2 Ht) as [->|(_ & _ & He)]; [|exact He].
    apply IH; assumption.
Qed.

(** At the first position where both strings hold a digit, when the strings
    agree before it, the comparison is decided by the two runs. *)
Lemma libcmp_first_digits i : forall p1 p2,
  first_both_digits p1 p2 i ->
  slice_to p1 i = slice_to p2 i ->
  int32_run (slice_from p1 i) = true ->
  int32_run (slice_from p2 i) = true ->
  run_value (slice_from p1 i) <> run_value (slice_from p2 i) ->
  _dl_cache_libcmp p1 p2 =
  Ret (if run_value (slice_from p1 i) <? run_value (slice_from p2 i) then -1 else 1).
Proof.
  induction i as [|i IH]; intros p1 p2 [Hb Hfirst] Hpre R1 R2 Hne.
  - pose proof Hb as Hb'. unfold both_digits in Hb'.
    destruct p1 as [|c1 s1]; [discriminate|].
    destruct p2 as [|c2 s2]; [discriminate|].
    cbn [at_ String.get] in Hb'. apply andb_true_iff in Hb' as [H1 H2].
    cbn [slice_from] in *.
    rewrite libcmp_head_digits by assumption.
    destruct (Z.ltb_spec (run_value (String c1 s1)) (run_value (String c2 s2)));
      [reflexivity|].
    destruct (Z.ltb_spec (run_value (String c2 s2)) (run_value (String c1 s1)));
      [reflexivity | lia].
  - pose proof (both_digits_lt _ _ _ Hb) as [L1 L2].
    destruct p1 as [|c1 s1]; [cbn in L1; lia|].
    destruct p2 as [|c2 s2]; [cbn in L2; lia|].
    rewrite !slice_to_head in Hpre. injection Hpre as <- Hpre.
    pose proof (Hfirst 0%nat ltac:(lia)) as H0.
    unfold both_digits in H0. cbn [at_ String.get] in H0.
    rewrite andb_diag in H0.
    rewrite libcmp_head_same by assumption.
    cbn [slice_from] in *.
    apply IH; try assumption.
    split; [exact Hb|].
    intros j Hj. apply (Hfirst (S j)). lia.
Qed.

(** The comparator returns [0] on equal strings only. *)
Lemma libcmp_zero_eq p1 : forall p2,
  _dl_cache_libcmp p1 p2 = Ret 0 -> p1 = p2.
Proof.
  induction p1 as [|c1 s1 IH]; intros [|c2 s2].
  - reflexivity.
  - rewrite libcmp_nil_l. discriminate.
  - rewrite libcmp_nil_r. discriminate.
  - rewrite libcmp_cons. unfold libcmp_step. rewrite !isDigitByte_ascii.
    destruct (isAsciiDigit c1) eqn:H1, (isAsciiDigit c2) eqn:H2; cbn [andb];
      try discriminate.
    + destruct (parseLeadingNum (String c1 s1)) as [n1| |] eqn:P1; cbn; try discriminate.
      destruct (parseLeadingNum (String c2 s2)) as [n2| |] eqn:P2; cbn; try discriminate.
      destruct (Z.ltb_spec n1 n2); [discriminate|].
      destruct (Z.ltb_spec n2 n1); [discriminate|].
      intros Hk. apply IH in Hk. subst s2.
      apply parseLeadingNum_Ret in P1 as [_ E1]; [|assumption].
      apply parseLeadingNum_Ret in P2 as [_ E2]; [|assumption].
      rewrite run_value_head in E1, E2 by assumption.
      assert (Hp : 0 < 10 ^ Z.of_nat (len (digit_run s1))) by (apply Z.pow_pos_nonneg; lia).
      f_equal. apply byteZ_inj. nia.
    + destruct (Z.ltb_spec (byteZ c1) (byteZ c2)); [discriminate|].
      destruct (Z.ltb_spec (byteZ c2) (byteZ c1)); [discriminate|].
      intros Hk. apply IH in Hk. subst s2.
      f_equal. apply byteZ_inj. lia.
Qed.

(** On equal strings it returns [0], unless it panics. *)
Lemma libcmp_refl p :
  _dl_cache_libcmp p p = Ret 0 \/
  exists e, _dl_cache_libcmp p p = Panics (PanicNumError e).
Proof.
  destruct (libcmp_outcome p p) as [[r Hr]|He]; [|auto].
  left. pose proof (proj1 (libcmp_swap p p r) Hr) as Hr'.
  rewrite Hr in Hr'. injection Hr' as Hr'.
  replace r with 0 in Hr by lia. exact Hr.
Qed.

End libcmp_runs.

(** ** The lookup *)

Section lookup_facts.

Lemma index_at_in {A} (es : list A) j :
  0 <= j < Z.of_nat (length es) ->
  exists e, index_at es j = Ret e /\ es !! Z.to_nat j = Some e.
Proof.
  intros Hj. unfold index_at.
  destruct (Z.leb_spec 0 j); [|lia].
  destruct (Z.ltb_spec j (Z.of_nat (length es))); [|lia]. cbn [andb].
  destruct (lookup_lt_is_Some_2 es (Z.to_nat j) ltac:(lia)) as [e He].
  rewrite He. eauto.
Qed.

Lemma index_at_out {A} (es : list A) j :
  j < 0 \/ Z.of_nat (length es) <= j ->
  index_at es j = Panics PanicIndexOutOfRange.
Proof.
  intros Hj. unfold index_at.
  destruct (Z.leb_spec 0 j); [|reflexivity].
  destruct (Z.ltb_spec j (Z.of_nat (length es))); [lia | reflexivity].
Qed.

Lemma log_neighbours_ok es n : forall j,
  0 <= j -> j + Z.of_nat n <= Z.of_nat (length es) ->
  log_neighbours es n j = Ret tt.
Proof.
  induction n as [|n IH]; intros j H0 Hn; [reflexivity|].
  cbn [log_neighbours].
  destruct (index_at_in es j ltac:(lia)) as (e & -> & _). cbn.
  apply IH; lia.
Qed.

Lemma log_neighbours_panic es n : forall j,
  (0 < n)%nat ->
  j < 0 \/ Z.of_nat (length es) < j + Z.of_nat n ->
  log_neighbours es n j = Panics PanicIndexOutOfRange.
Proof.
  induction n as [|n IH]; intros j Hn Hj; [lia|].
  cbn [log_neighbours].
  destruct (Z_lt_le_dec j 0) as [Hneg|Hpos].
  { rewrite index_at_out by lia. reflexivity. }
  destruct (Z_lt_le_dec j (Z.of_nat (length es))) as [Hin|Hout].
  - destruct (index_at_in es j ltac:(lia)) as (e & -> & _). cbn.
    apply IH; lia.
  - rewrite index_at_out by lia. reflexivity.
Qed.

Lemma first_match_spec es library :
  match first_match es library with
  | None => forall e, e ∈ es -> Key e <> library
  | Some k =>
    (exists e, es !! k = Some e /\ Key e = library) /\
    (forall j e, (j < k)%nat -> es !! j = Some e -> Key e <> library)
  end.
Proof.
  induction es as [|e0 es IH]; cbn [first_match].
  - intros e He. inversion He.
  - destruct (String.eqb_spec (Key e0) library) as [Heq|Hne].
    + split; [eauto|]. intros j e Hj. lia.
    + destruct (first_match es library) as [k|]; cbn.
      * destruct IH as [(e & He & Hk) Hbefore]. split; [eauto|].
        intros [|j] e' Hj He'; cbn in He'.
        -- injection He' as <-. exact Hne.
        -- eapply Hbefore; [|eassumption]. lia.
      * intros e He. apply elem_of_cons in He as [->|He]; [exact Hne | auto].
Qed.

(** The slow scan stops at the first entry with the key, and logs around it. *)
Lemma slow_scan_spec es rest library : forall i,
  slow_scan es rest library i =
  match first_match rest library with
  | None => Ret ("", false)
  | Some k =>
    match rest !! k with
    | Some e =>
      _ ← log_neighbours es 20 (i + Z.of_nat k - 10); Ret (Value e, true)
    | None => Ret ("", false)
    end
  end.
Proof.
  induction rest as [|e0 rest IH]; intros i; cbn [slow_scan first_match];
    [reflexivity|].
  destruct (String.eqb (Key e0) library).
  - cbn [lookup list_lookup]. replace (i + 10 - (i - 10)) with 20 by lia.
    replace (i + Z.of_nat 0 - 10) with (i - 10) by lia. reflexivity.
  - rewrite IH. destruct (first_match rest library) as [k|]; cbn; [|reflexivity].
    replace (i + 1 + Z.of_nat k - 10) with (i + Z.of_nat (S k) - 10) by lia.
    reflexivity.
Qed.

Lemma sorted_desc_lookup es :
  sorted_desc es = true ->
  forall i j ei ej, es !! i = Some ei -> es !! j = Some ej -> (i <= j)%nat ->
  cmp_ge (Key ei) (Key ej) = true.
Proof.
  induction es as [|e0 es IH]; intros Hs i j ei ej Hi Hj Hij; [inversion Hi|].
  cbn [sorted_desc] in Hs.
  apply andb_true_iff in Hs as [Hs Hrest]. apply andb_true_iff in Hs as [Hself Hall].
  destruct i as [|i]; cbn in Hi.
  - injection Hi as <-. destruct j as [|j]; cbn in Hj.
    + injection Hj as <-. exact Hself.
    + rewrite forallb_forall in Hall. apply Hall.
      apply list_elem_of_In, list_elem_of_lookup. eauto.
  - destruct j as [|j]; [lia|]. cbn in Hj.
    eapply IH; try eassumption. lia.
Qed.

Lemma arch_first_lookup es :
  arch_first es = true ->
  forall i j ei ej, es !! i = Some ei -> es !! j = Some ej -> (i < j)%nat ->
  Key ej = Key ei -> Is64 ej = true -> Is64 ei = true.
Proof.
  induction es as [|e0 es IH]; intros Ha i j ei ej Hi Hj Hij Hk H64; [inversion Hi|].
  cbn [arch_first] in Ha. apply andb_true_iff in Ha as [Hhead Hrest].
  destruct j as [|j]; [lia|]. cbn in Hj.
  destruct i as [|i]; cbn in Hi.
  - injection Hi as <-. apply orb_true_iff in Hhead as [H|Hall]; [exact H|].
    rewrite forallb_forall in Hall.
    assert (Hin : In ej es) by (apply list_elem_of_In, list_elem_of_lookup; eauto).
    specialize (Hall ej Hin). rewrite H64, Hk, String.eqb_refl in Hall.
    discriminate.
  - eapply IH; try eassumption. lia.
Qed.

Lemma cmp_ge_ret a b :
  cmp_ge a b = true ->
  _dl_cache_libcmp a b = Ret 0 \/ _dl_cache_libcmp a b = Ret 1.
Proof.
  unfold cmp_ge. destruct (_dl_cache_libcmp a b) as [r| |] eqn:Hr; try discriminate.
  intros H. apply Z.leb_le in H.
  destruct (libcmp_range a b r Hr) as [->|[->| ->]]; auto. lia.
Qed.

Lemma cmp_ge_self a : cmp_ge a a = true -> _dl_cache_libcmp a a = Ret 0.
Proof.
  intros H. destruct (libcmp_refl a) as [H0|[e He]]; [exact H0|].
  unfold cmp_ge in H. rewrite He in H. discriminate.
Qed.

Lemma midpoint lo hi : 0 <= lo -> lo < hi -> lo <= Z.quot (lo + hi) 2 < hi.
Proof.
  intros H0 H. rewrite Z.quot_div_nonneg by lia.
  split; [apply Z.div_le_lower_bound | apply Z.div_lt_upper_bound]; lia.
Qed.

(** The bisection finds a 64-bit entry of a key, on a cache sorted in
    descending order in which the 64-bit entries of a key come first. *)
Lemma bisect_finds es library t et :
  sorted_desc es = true -> arch_first es = true ->
  es !! t = Some et -> Key et = library -> Is64 et = true ->
  forall fuel lo hi,
  0 <= lo <= Z.of_nat t -> Z.of_nat t < hi <= Z.of_nat (length es) ->
  hi - lo <= Z.of_nat fuel ->
  exists e, e ∈ es /\ Key e = library /\ Is64 e = true /\
            bisect es library fuel lo hi = Ret (Some (Value e)).
Proof.
  intros Hs Ha Ht Hkey H64.
  pose proof (sorted_desc_lookup es Hs) as Hsorted.
  pose proof (arch_first_lookup es Ha) as Harch.
  induction fuel as [|fuel IH]; intros lo hi Hlo Hhi Hfuel; [lia|].
  cbn [bisect]. destruct (Z.ltb_spec lo hi); [|lia].
  pose proof (midpoint lo hi ltac:(lia) ltac:(lia)) as Hmid.
  set (mid := Z.quot (lo + hi) 2) in *.
  destruct (index_at_in es mid ltac:(lia)) as (em & -> & Hem). cbn [mbind outcome_bind].
  assert (Hself : _dl_cache_libcmp library library = Ret 0).
  { subst library. apply cmp_ge_self. eapply Hsorted; eauto. }
  assert (Hx : exists x, _dl_cache_libcmp (Key em) library = Ret x /\
             ((x = 1 /\ Z.of_nat t > mid) \/
              (x = -1 /\ Z.of_nat t < mid) \/
              (x = 0 /\ Key em = library /\ (Is64 em = false -> Z.of_nat t < mid)))).
  { destruct (Z_le_gt_dec mid (Z.of_nat t)) as [Hle|Hgt].
    - assert (Hge : cmp_ge (Key em) (Key et) = true)
        by (eapply Hsorted; eauto; lia).
      rewrite Hkey in Hge. apply cmp_ge_ret in Hge as [Hr|Hr].
      + exists 0. split; [exact Hr|]. right. right.
        split; [reflexivity|]. pose proof (libcmp_zero_eq _ _ Hr) as Hk.
        split; [exact Hk|]. intros H32.
        destruct (Z.eq_dec mid (Z.of_nat t)) as [Heq|Hne].
        * rewrite Heq, Nat2Z.id in Hem. congruence.
        * assert (Is64 em = true); [|congruence].
          eapply (Harch (Z.to_nat mid) t); eauto; [lia | congruence].
      + exists 1. split; [exact Hr|]. left. split; [reflexivity|].
        destruct (Z.eq_dec mid (Z.of_nat t)) as [Heq|Hne]; [|lia].
        rewrite Heq, Nat2Z.id in Hem. assert (em = et) by congruence. subst em.
        rewrite Hkey in Hr. congruence.
    - assert (Hge : cmp_ge (Key et) (Key em) = true)
        by (eapply Hsorted; eauto; lia).
      rewrite Hkey in Hge. apply cmp_ge_ret in Hge as [Hr|Hr];
        apply libcmp_swap_ret in Hr; cbn in Hr.
      + exists 0. split; [exact Hr|]. right. right.
        split; [reflexivity|]. split; [apply libcmp_zero_eq, Hr | lia].
      + exists (-1). split; [exact Hr|]. right. left. split; [reflexivity | lia]. }
  destruct Hx as (x & -> & Hx). cbn [mbind outcome_bind].
  destruct Hx as [[-> Hgt]|[[-> Hlt]|(-> & Hk & H32)]]; cbn [Z.eqb].
  - apply IH; lia.
  - apply IH; lia.
  - destruct (Is64 em) eqn:E64.
    + exists em. split_and!; try done.
      apply list_elem_of_lookup. eauto.
    + specialize (H32 eq_refl). apply IH; lia.
Qed.

(** The bisection never runs short of the fuel [Lookup] gives it. *)
Lemma bisect_fuel es library : forall fuel lo hi,
  0 <= lo -> hi <= Z.of_nat (length es) -> hi - lo <= Z.of_nat fuel ->
  bisect es library fuel lo hi <> OutOfFuel.
Proof.
  induction fuel as [|fuel IH]; intros lo hi Hlo Hhi Hfuel; cbn [bisect];
    destruct (Z.ltb_spec lo hi); try lia; try discriminate.
  pose proof (midpoint lo hi ltac:(lia) ltac:(lia)) as Hmid.
  set (mid := Z.quot (lo + hi) 2) in *.
  destruct (index_at_in es mid ltac:(lia)) as (em & -> & Hem). cbn [mbind outcome_bind].
  destruct (libcmp_outcome (Key em) library) as [[x Hx]|[e He]].
  - rewrite Hx. cbn [mbind outcome_bind].
    destruct (libcmp_range _ _ _ Hx) as [->|[->| ->]]; cbn [Z.eqb].
    + apply IH; lia.
    + destruct (Is64 em); [discriminate|]. apply IH; lia.
    + apply IH; lia.
  - rewrite He. discriminate.
Qed.

(** A panic of a comparison that the bisection makes is a panic of the
    bisection. *)
Lemma bisect_probed_panics es library e p : forall lo hi,
  probed es library lo hi e ->
  _dl_cache_libcmp (Key e) library = Panics p ->
  forall fuel, 0 <= lo -> hi - lo <= Z.of_nat fuel ->
  bisect es library fuel lo hi = Panics p.
Proof.
  intros lo hi Hp Hpanic.
  induction Hp as [lo hi e Hlt Hidx
                  |lo hi m x e Hlt Hidx Hcmp Hx Hp IH
                  |lo hi m e Hlt Hidx Hcmp Hp IH];
    intros fuel Hlo Hfuel;
    (destruct fuel as [|fuel]; [lia|]);
    cbn [bisect]; (destruct (Z.ltb_spec lo hi); [|lia]);
    pose proof (midpoint lo hi ltac:(lia) ltac:(lia)) as Hmid;
    rewrite Hidx; cbn [mbind outcome_bind].
  - rewrite Hpanic. reflexivity.
  - rewrite Hcmp. cbn [mbind outcome_bind].
    destruct Hx as [->|[-> H32]]; cbn [Z.eqb]; [|rewrite H32]; apply IH;
      first [assumption | lia].
  - rewrite Hcmp. cbn [mbind outcome_bind]. apply IH; first [assumption | lia].
Qed.

End lookup_facts.

(** ** The decoder *)

Section decode_facts.

Lemma readFull_nil n : readFull n [] = (inl EOF, []).
Proof. reflexivity. Qed.

Lemma readFull_short n r :
  r <> [] -> (length r < n)%nat -> readFull n r = (inl ErrUnexpectedEOF, []).
Proof.
  intros Hr Hn. unfold readFull. destruct r as [|b r]; [congruence|].
  destruct (Nat.ltb_spec (length (b :: r)) n); [reflexivity | lia].
Qed.

Lemma readFull_enough n r :
  (0 < n <= length r)%nat -> readFull n r = (inr (take n r), drop n r).
Proof.
  intros Hn. unfold readFull. destruct r as [|b r]; [cbn in Hn; lia|].
  destruct (Nat.ltb_spec (length (b :: r)) n); [lia | reflexivity].
Qed.

Lemma readFull_app n a b :
  (0 < n)%nat -> length a = n -> readFull n (a ++ b) = (inr a, b).
Proof.
  intros Hn Ha. rewrite readFull_enough by (rewrite length_app; lia).
  rewrite take_app_length' by (symmetry; assumption).
  rewrite drop_app_length' by (symmetry; assumption). reflexivity.
Qed.

(** Reading the records of a stream that holds them all. *)
Lemma read_entries_complete recs : forall rest,
  Forall (fun rec => length rec = 12%nat) recs ->
  read_entries (length recs) (concat recs ++ rest) =
  (inr (map decode_fileEntry recs), rest).
Proof.
  induction recs as [|rec recs IH]; intros rest Hall; [reflexivity|].
  apply Forall_cons in Hall as [Hrec Hall].
  cbn [length read_entries concat]. rewrite <- app_assoc.
  rewrite readFull_app by (assumption || lia).
  rewrite IH by assumption. reflexivity.
Qed.

(** Reading [n] records from a stream that ends before the last of them. *)
Lemma read_entries_truncated n : forall body,
  (length body < 12 * n)%nat ->
  exists e, is_truncated e = true /\ fst (read_entries n body) = inl e.
Proof.
  induction n as [|n IH]; intros body Hlen; [lia|].
  cbn [read_entries].
  destruct body as [|b body].
  - rewrite readFull_nil. exists EOF. auto.
  - destruct (Nat.lt_ge_cases (length (b :: body)) 12) as [Hshort|Hfull].
    + rewrite readFull_short by (congruence || assumption).
      exists ErrUnexpectedEOF. auto.
    + rewrite readFull_enough by lia.
      destruct (IH (drop 12 (b :: body))) as (e & He & Hr).
      { rewrite length_drop. lia. }
      destruct (read_entries n (drop 12 (b :: body))) as [[err|es] r'];
        cbn [fst] in Hr; [|discriminate].
      exists e. split; [assumption|]. cbn [fst]. exact Hr.
Qed.

Lemma slice_bad (s : list ascii) lo hi :
  lo < 0 \/ hi < lo \/ Z.of_nat (length s) < hi ->
  slice s lo hi = Panics PanicSliceBounds.
Proof.
  intros H. unfold slice.
  destruct (Z.leb_spec 0 lo); [|reflexivity].
  destruct (Z.leb_spec lo hi); [|reflexivity].
  destruct (Z.leb_spec hi (Z.of_nat (length s))); [lia | reflexivity].
Qed.

Lemma slice_outcome (s : list ascii) lo hi :
  (exists bs, slice s lo hi = Ret bs) \/ slice s lo hi = Panics PanicSliceBounds.
Proof. unfold slice. destruct (_ && _); eauto. Qed.

Lemma IndexByte_range b c : -1 <= IndexByte b c < Z.of_nat (length b) \/ b = [].
Proof.
  induction b as [|x b IH]; [auto|]. left. cbn [IndexByte length].
  destruct (Ascii.eqb x c); [lia|].
  destruct IH as [IH| ->]; [|cbn; lia].
  destruct (Z.eqb_spec (IndexByte b c) (-1)); lia.
Qed.

Lemma readString_outcome tab index :
  (exists s, readString tab index = Ret s) \/
  readString tab index = Panics PanicSliceBounds.
Proof.
  unfold readString.
  destruct (slice_outcome tab index (Z.of_nat (length tab))) as [[t ->]| ->];
    cbn [mbind outcome_bind]; [|auto].
  destruct (slice_outcome tab index (index + IndexByte t (ascii_of_nat 0)))
    as [[bs ->]| ->]; cbn [mbind outcome_bind]; eauto.
Qed.

(** An offset at or beyond the length of the string table makes [readString]
    panic on one of its two slice expressions. *)
Lemma readString_out_of_range tab index :
  Z.of_nat (length tab) <= index ->
  readString tab index = Panics PanicSliceBounds.
Proof.
  intros H. unfold readString.
  destruct (Z.eq_dec index (Z.of_nat (length tab))) as [->|Hne].
  - assert (Hend : slice tab (Z.of_nat (length tab)) (Z.of_nat (length tab)) = Ret []).
    { unfold slice.
      destruct (Z.leb_spec 0 (Z.of_nat (length tab))); [|lia].
      destruct (Z.leb_spec (Z.of_nat (length tab)) (Z.of_nat (length tab))); [|lia].
      cbn [andb]. rewrite Z.sub_diag. reflexivity. }
    rewrite Hend. cbn [mbind outcome_bind IndexByte].
    rewrite slice_bad by lia. reflexivity.
  - rewrite slice_bad by lia. reflexivity.
Qed.

Lemma build_entries_outcome tab es :
  (exists r, build_entries tab es = Ret r) \/
  build_entries tab es = Panics PanicSliceBounds.
Proof.
  induction es as [|e es IH]; cbn [build_entries]; [eauto|].
  destruct (readString_outcome tab (_Key e)) as [[k ->]| ->];
    cbn [mbind outcome_bind]; [|auto].
  destruct (readString_outcome tab (_Value e)) as [[v ->]| ->];
    cbn [mbind outcome_bind]; [|auto].
  destruct IH as [[r ->]| ->]; cbn [mbind outcome_bind]; eauto.
Qed.

Lemma build_entries_out_of_range tab es :
  Exists (fun e => Z.of_nat (length tab) <= _Key e \/
                   Z.of_nat (length tab) <= _Value e) es ->
  build_entries tab es = Panics PanicSliceBounds.
Proof.
  induction 1 as [e es Hbad|e es _ IH]; cbn [build_entries].
  - destruct Hbad as [Hk|Hv].
    + rewrite (readString_out_of_range tab (_Key e)) by assumption. reflexivity.
    + destruct (readString_outcome tab (_Key e)) as [[k ->]| ->];
        cbn [mbind outcome_bind]; [|reflexivity].
      rewrite (readString_out_of_range tab (_Value e)) by assumption. reflexivity.
  - destruct (readString_outcome tab (_Key e)) as [[k ->]| ->];
      cbn [mbind outcome_bind]; [|reflexivity].
    destruct (readString_outcome tab (_Value e)) as [[v ->]| ->];
      cbn [mbind outcome_bind]; [|reflexivity].
    rewrite IH. reflexivity.
Qed.

(** [ReadDLCache] past a header that it accepts. *)
Lemma ReadDLCache_header hd rest :
  good_header hd = true ->
  ReadDLCache (hd ++ rest) =
  match readFull 4 rest with
  | (inl err, _) => Ret (inl err)
  | (inr bs, r) =>
    match read_entries (Z.to_nat (le_uint bs)) r with
    | (inl err, _) => Ret (inl err)
    | (inr fileEntries, r) =>
      es ← build_entries r fileEntries;
      Ret (inr {| FileEntries := es |})
    end
  end.
Proof.
  unfold good_header. intros H. apply andb_true_iff in H as [Hlen Hmagic].
  apply Nat.eqb_eq in Hlen. unfold ReadDLCache.
  change (len cacheMagic) with 12%nat in *.
  rewrite readFull_app by (assumption || lia).
  rewrite Hmagic. cbn [negb]. reflexivity.
Qed.

End decode_facts.

(** ** The closure of the imports *)

Section closure_facts.

Variables (h : Host) (dc : DLCache).

Lemma visit_deps_inv (v : string -> state -> status * state) deps :
  (forall dep st, reads_inv st -> reads_inv (v dep st).2) ->
  forall st, reads_inv st -> reads_inv (visit_deps v deps st).2.
Proof.
  intros Hv. induction deps as [|dep deps IH]; intros st Hst; [exact Hst|].
  cbn [visit_deps].
  set (st1 := {| seen := seen st; imports := {[dep]} ∪ imports st; reads := reads st |}).
  assert (H1 : reads_inv st1) by exact Hst.
  specialize (Hv dep st1 H1).
  destruct (v dep st1) as [[[e|]|p|] st']; cbn [snd] in *; auto.
Qed.

(** [readImports] is called at most once with a name. *)
Lemma visit_inv fuel : forall filename st,
  reads_inv st -> reads_inv (visit h dc fuel filename st).2.
Proof.
  induction fuel as [|fuel IH]; intros filename st Hst; [exact Hst|].
  cbn [visit]. destruct (decide (filename ∈ seen st)) as [Hin|Hnot]; [exact Hst|].
  set (st1 := {| seen := {[filename]} ∪ seen st; imports := imports st;
                 reads := reads st ++ [filename] |}).
  assert (H1 : reads_inv st1).
  { destruct Hst as [Hnd Hsub]. split; cbn.
    - apply NoDup_app. split; [exact Hnd|]. split; [|apply NoDup_singleton].
      intros x Hx Hx'. apply list_elem_of_singleton in Hx'. subst x. auto.
    - intros f Hf. apply elem_of_app in Hf as [Hf|Hf].
      + apply elem_of_union_r. auto.
      + apply list_elem_of_singleton in Hf. subst f.
        apply elem_of_union_l, elem_of_singleton. reflexivity. }
  destruct (readImports h dc filename) as [[err|libs]|p|]; try exact H1.
  apply visit_deps_inv; [|exact H1]. intros dep st'. apply IH.
Qed.

Lemma visit_deps_mono (v1 v2 : string -> state -> status * state) deps :
  (forall dep st s st', v1 dep st = (s, st') -> s <> Starved -> v2 dep st = (s, st')) ->
  forall st s st', visit_deps v1 deps st = (s, st') -> s <> Starved ->
  visit_deps v2 deps st = (s, st').
Proof.
  intros Hv. induction deps as [|dep deps IH]; intros st s st' Hrun Hs;
    [exact Hrun|].
  cbn [visit_deps] in *.
  set (st1 := {| seen := seen st; imports := {[dep]} ∪ imports st; reads := reads st |}) in *.
  destruct (v1 dep st1) as [s1 st1'] eqn:E1.
  assert (Hs1 : s1 <> Starved).
  { intros ->. injection Hrun as <- <-. congruence. }
  rewrite (Hv dep st1 s1 st1' E1 Hs1).
  destruct s1 as [[e|]|p|]; try exact Hrun.
  apply IH; assumption.
Qed.

Lemma visit_S fuel filename st :
  visit h dc (S fuel) filename st =
  if decide (filename ∈ seen st) then (Done None, st)
  else
    let st := {| seen := {[filename]} ∪ seen st;
                 imports := imports st;
                 reads := reads st ++ [filename] |} in
    match readImports h dc filename with
    | Panics p => (Panicked p, st)
    | OutOfFuel => (Starved, st)
    | Ret (inl err) => (Done (Some err), st)
    | Ret (inr importedLibs) => visit_deps (visit h dc fuel) importedLibs st
    end.
Proof. reflexivity. Qed.

(** More fuel does not change a run that ended. *)
Lemma visit_fuel_S fuel : forall filename st s st',
  visit h dc fuel filename st = (s, st') -> s <> Starved ->
  visit h dc (S fuel) filename st = (s, st').
Proof.
  induction fuel as [|fuel IH]; intros filename st s st' Hrun Hs.
  - cbn in Hrun. injection Hrun as <- <-. congruence.
  - rewrite visit_S in Hrun. rewrite (visit_S (S fuel)). cbn zeta in *.
    destruct (decide (filename ∈ seen st)); [exact Hrun|].
    destruct (readImports h dc filename) as [[err|libs]|p|]; try exact Hrun.
    eapply visit_deps_mono; [|exact Hrun|exact Hs].
    intros dep st0 s0 st0'. apply IH.
Qed.

Lemma visit_fuel_mono fuel k filename st s st' :
  visit h dc fuel filename st = (s, st') -> s <> Starved ->
  visit h dc (fuel + k) filename st = (s, st').
Proof.
  intros Hrun Hs. induction k as [|k IH].
  - rewrite Nat.add_0_r. exact Hrun.
  - rewrite Nat.add_succ_r. apply visit_fuel_S; assumption.
Qed.

Lemma visit_fuel_more fuel k filename st :
  (visit h dc fuel filename st).1 <> Starved ->
  visit h dc (fuel + k) filename st = visit h dc fuel filename st.
Proof.
  intros Hs. destruct (visit h dc fuel filename st) as [s st'] eqn:E.
  apply visit_fuel_mono; assumption.
Qed.

Lemma recursiveImports_fuel_mono fuel k filename r :
  recursiveImports h dc fuel filename = Ret r ->
  recursiveImports h dc (fuel + k) filename = Ret r.
Proof.
  unfold recursiveImports.
  destruct (visit h dc fuel filename initial) as [s st'] eqn:E.
  destruct s as [err|p|]; try discriminate.
  rewrite (visit_fuel_mono fuel k _ _ _ _ E) by discriminate.
  auto.
Qed.

Lemma visit_deps_shape (v : string -> state -> status * state) deps :
  (forall dep st, reads_ok h dc (reads st) ->
     trace_shape h dc (v dep st).1 (v dep st).2) ->
  forall st, reads_ok h dc (reads st) ->
  trace_shape h dc (visit_deps v deps st).1 (visit_deps v deps st).2.
Proof.
  intros Hv. induction deps as [|dep deps IH]; intros st Hst; [exact Hst|].
  cbn [visit_deps].
  set (st1 := {| seen := seen st; imports := {[dep]} ∪ imports st; reads := reads st |}).
  assert (H1 : reads_ok h dc (reads st1)) by exact Hst.
  specialize (Hv dep st1 H1).
  destruct (v dep st1) as [[[e|]|p|] st']; cbn [fst snd] in *; auto.
Qed.

(** The calls of [readImports] of a run, by the way the run ends. *)
Lemma visit_shape fuel : forall filename st,
  reads_ok h dc (reads st) ->
  trace_shape h dc (visit h dc fuel filename st).1 (visit h dc fuel filename st).2.
Proof.
  induction fuel as [|fuel IH]; intros filename st Hst; [exact Hst|].
  cbn [visit]. destruct (decide (filename ∈ seen st)) as [Hin|Hnot]; [exact Hst|].
  set (st1 := {| seen := {[filename]} ∪ seen st; imports := imports st;
                 reads := reads st ++ [filename] |}).
  assert (Hnew : forall r, readImports h dc filename = r ->
                 (forall e, r <> Ret (inl e)) -> reads_ok h dc (reads st1)).
  { intros r Hr Hne f Hf. cbn in Hf. apply elem_of_app in Hf as [Hf|Hf]; [auto|].
    apply list_elem_of_singleton in Hf. subst f. rewrite Hr. exact Hne. }
  destruct (readImports h dc filename) as [[err|libs]|p|] eqn:Hread;
    cbn [fst snd].
  - exists (reads st), filename. auto.
  - apply visit_deps_shape; [intros dep st'; apply IH|].
    apply (Hnew _ eq_refl). discriminate.
  - apply (Hnew _ eq_refl). discriminate.
  - apply (Hnew _ eq_refl). discriminate.
Qed.

(** A call of [readImports] that returns an error ends the run with it. *)
Lemma visit_error fuel filename f e :
  f ∈ reads (visit h dc fuel filename initial).2 ->
  readImports h dc f = Ret (inl e) ->
  (visit h dc fuel filename initial).1 = Done (Some e).
Proof.
  intros Hf He.
  pose proof (visit_shape fuel filename initial) as Hshape.
  specialize (Hshape ltac:(intros x Hx; inversion Hx)).
  destruct (visit h dc fuel filename initial) as [s st]; cbn [fst snd] in *.
  assert (Hbad : reads_ok h dc (reads st) -> False).
  { intros Hok. exact (Hok f Hf e He). }
  destruct s as [[e'|]|p|]; cbn in Hshape; try (destruct (Hbad Hshape)).
  destruct Hshape as (l & f' & Hl & Hok & Hlast).
  rewrite Hl in Hf. apply elem_of_app in Hf as [Hf|Hf].
  - destruct (Hok f Hf e He).
  - apply list_elem_of_singleton in Hf. subst f'. congruence.
Qed.

Lemma Lookup_not_starved library : Lookup h dc library <> OutOfFuel.
Proof.
  unfold Lookup. destruct (lookup_override h library); [discriminate|].
  pose proof (bisect_fuel (FileEntries dc) library (length (FileEntries dc)) 0
                (Z.of_nat (length (FileEntries dc))) ltac:(lia) ltac:(lia) ltac:(lia)) as Hb.
  destruct (bisect _ _ _ _ _) as [[v|]|p|]; cbn [mbind outcome_bind];
    try discriminate; [|congruence].
  rewrite slow_scan_spec.
  destruct (first_match (FileEntries dc) library) as [k|]; [|discriminate].
  destruct (FileEntries dc !! k); [|discriminate].
  assert (Hlog : forall n j, log_neighbours (FileEntries dc) n j <> OutOfFuel).
  { induction n as [|n IH]; intros j; cbn [log_neighbours]; [discriminate|].
    unfold index_at. destruct (_ && _); [|discriminate].
    destruct (_ !! _); [|discriminate]. cbn [mbind outcome_bind]. apply IH. }
  specialize (Hlog 20%nat (0 + Z.of_nat k - 10)).
  destruct (log_neighbours _ _ _); cbn [mbind outcome_bind];
    discriminate || congruence.
Qed.

Lemma readImports_not_starved filename : readImports h dc filename <> OutOfFuel.
Proof.
  unfold readImports.
  assert (Hfin : forall o : error + File,
    match o with
    | inl err => Ret (inl err)
    | inr fd =>
      match elf_NewFile fd with
      | inl err => Ret (inl err)
      | inr elf =>
        match ImportedLibraries elf with
        | inl err => Ret (inl err)
        | inr importedLibs => Ret (inr importedLibs)
        end
      end
    end <> (OutOfFuel : outcome (error + list string))).
  { intros [err|fd]; [discriminate|].
    destruct (elf_NewFile fd) as [err|elf]; [discriminate|].
    destruct (ImportedLibraries elf); discriminate. }
  destruct (Open h filename) as [err|fd] eqn:Ho; cbn [mbind outcome_bind];
    [|apply (Hfin (inr fd))].
  destruct (IsNotExist err); cbn [mbind outcome_bind]; [|apply (Hfin (inl err))].
  pose proof (Lookup_not_starved filename) as HL.
  destruct (Lookup h dc filename) as [[filename' ok]|p|]; cbn [mbind outcome_bind];
    [|discriminate|congruence].
  destruct ok; cbn [mbind outcome_bind];
    [apply (Hfin (Open h filename')) | discriminate].
Qed.

Section finite_graph.

(** A finite set of names that holds the imports of each of its files. *)
Variable U : gset string.
Hypothesis U_closed : forall x libs d,
  x ∈ U -> readImports h dc x = Ret (inr libs) -> d ∈ libs -> d ∈ U.

Lemma fits_grows n st st' : fits U n st -> grows U st st' -> fits U n st'.
Proof.
  intros [HU Hn] [Hsub HU']. split; [exact HU'|].
  eapply Nat.le_lt_trans; [|exact Hn].
  apply subseteq_size. set_solver.
Qed.

Lemma visit_deps_terminates n (v : string -> state -> status * state) deps :
  (forall dep st, dep ∈ U -> fits U n st ->
     (v dep st).1 <> Starved /\ grows U st (v dep st).2) ->
  forall st, (forall d, d ∈ deps -> d ∈ U) -> fits U n st ->
  (visit_deps v deps st).1 <> Starved /\ grows U st (visit_deps v deps st).2.
Proof.
  intros Hv. induction deps as [|dep deps IH]; intros st Hdeps Hst.
  - cbn. split; [discriminate|]. split; [reflexivity | apply Hst].
  - cbn [visit_deps].
    set (st1 := {| seen := seen st; imports := {[dep]} ∪ imports st; reads := reads st |}).
    assert (H1 : fits U n st1) by exact Hst.
    destruct (Hv dep st1 ltac:(apply Hdeps; left) H1) as [Hs Hg].
    destruct (v dep st1) as [s st'] eqn:E; cbn [fst snd] in *.
    destruct s as [[e|]|p|]; cbn [fst snd]; try (split; [discriminate || exact Hs | exact Hg]).
    destruct (IH st') as [Hs' Hg'].
    { intros d Hd. apply Hdeps. right. exact Hd. }
    { eapply fits_grows; eassumption. }
    split; [exact Hs'|]. destruct Hg as [G1 G2], Hg' as [G1' G2'].
    split; [|exact G2']. cbn in G1. set_solver.
Qed.

(** On a finite graph, a recursion as deep as the number of names not yet
    seen, plus one, is enough for [visit] to end. *)
Lemma visit_terminates fuel : forall filename st,
  filename ∈ U -> fits U fuel st ->
  (visit h dc fuel filename st).1 <> Starved /\
  grows U st (visit h dc fuel filename st).2.
Proof.
  induction fuel as [|fuel IH]; intros filename st Hf [HU Hn]; [lia|].
  rewrite visit_S. cbn zeta.
  destruct (decide (filename ∈ seen st)) as [Hin|Hnot].
  { split; [discriminate|]. split; [reflexivity | exact HU]. }
  set (st1 := {| seen := {[filename]} ∪ seen st; imports := imports st;
                 reads := reads st ++ [filename] |}).
  assert (Hg1 : grows U st st1).
  { split; cbn; set_solver. }
  assert (H1 : fits U fuel st1).
  { split; [apply Hg1|]. cbn.
    assert (size (U ∖ ({[filename]} ∪ seen st)) < size (U ∖ seen st))%nat; [|lia].
    apply subset_size. set_solver. }
  pose proof (readImports_not_starved filename) as Hns.
  destruct (readImports h dc filename) as [[err|libs]|p|] eqn:Hread;
    cbn [fst snd]; try (split; [discriminate|exact Hg1]); [|congruence].
  destruct (visit_deps_terminates fuel (visit h dc fuel) libs IH st1) as [Hs Hg].
  { intros d Hd. eapply U_closed; eassumption. }
  { exact H1. }
  split; [exact Hs|]. destruct Hg1 as [A1 A2], Hg as [B1 B2].
  split; [|exact B2]. set_solver.
Qed.

(** The closure of a file of a finite graph ends. *)
Lemma recursiveImports_terminates filename :
  filename ∈ U ->
  recursiveImports h dc (S (size U)) filename <> OutOfFuel.
Proof.
  intros Hf. unfold recursiveImports.
  destruct (visit_terminates (S (size U)) filename initial Hf) as [Hs _].
  { split; cbn; [set_solver|].
    replace (U ∖ ∅) with U by set_solver. lia. }
  destruct (visit h dc (S (size U)) filename initial) as [[e|p|] st];
    cbn [fst] in Hs; congruence || discriminate.
Qed.

End finite_graph.

End closure_facts.

(** ** The closure against the graph of the imports *)

Section closure_graph.

Variables (h : Host) (dc : DLCache).

Lemma visit_deps_sound root (v : string -> state -> status * state) deps :
  (forall dep, dep ∈ deps -> edge h dc root dep) ->
  (forall dep st, sound_step h dc dep st (v dep st).2) ->
  forall st, sound_deps h dc root st (visit_deps v deps st).2.
Proof.
  unfold sound_deps, sound_step.
  intros Hedge Hv. induction deps as [|dep deps IH]; intros st.
  - cbn. split_and!; auto.
  - cbn [visit_deps].
    set (st1 := {| seen := seen st; imports := {[dep]} ∪ imports st; reads := reads st |}).
    assert (Hdep : reach h dc root dep).
    { apply tc_once, Hedge. left. }
    assert (Hone : sound_deps h dc root st (v dep st1).2).
    unfold sound_deps.
    { destruct (Hv dep st1) as (S1 & S2 & S3 & S4). cbn in S1, S2.
      split_and!.
      - exact S1.
      - set_solver.
      - intros x Hx. destruct (S3 x Hx) as [H1|[->|H1]]; [auto | auto |].
        right. eapply tc_trans; eassumption.
      - intros d Hd. destruct (S4 d Hd) as [H1|H1].
        + cbn in H1. apply elem_of_union in H1 as [H1|H1]; [|auto].
          apply elem_of_singleton in H1. subst d. auto.
        + right. eapply tc_trans; eassumption. }
    destruct (v dep st1) as [s st'] eqn:E. cbn [snd] in Hone.
    assert (Hrest : sound_deps h dc root st (visit_deps v deps st').2).
    { unfold sound_deps in *. specialize (IH ltac:(intros d Hd; apply Hedge; right; exact Hd) st').
      destruct Hone as (S1 & S2 & S3 & S4), IH as (T1 & T2 & T3 & T4).
      split_and!.
      - set_solver.
      - set_solver.
      - intros x Hx. destruct (T3 x Hx) as [H1|H1]; auto.
      - intros d Hd. destruct (T4 d Hd) as [H1|H1]; auto. }
    destruct s as [[e|]|p|]; cbn [snd]; assumption.
Qed.

(** Whatever way a call of [visit] ends, what it has added to the two sets
    is reached from its argument. *)
Lemma visit_sound fuel : forall filename st,
  sound_step h dc filename st (visit h dc fuel filename st).2.
Proof.
  unfold sound_step.
  induction fuel as [|fuel IH]; intros filename st.
  - cbn. split_and!; auto.
  - rewrite visit_S. cbn zeta.
    destruct (decide (filename ∈ seen st)) as [Hin|Hnot].
    { cbn. split_and!; auto. }
    set (st1 := {| seen := {[filename]} ∪ seen st; imports := imports st;
                   reads := reads st ++ [filename] |}).
    assert (H1 : sound_step h dc filename st st1).
    { unfold sound_step. split_and!; cbn; set_solver. }
    destruct (readImports h dc filename) as [[err|libs]|p|] eqn:Hread;
      cbn [snd]; try exact H1.
    destruct (visit_deps_sound filename (visit h dc fuel) libs) with (st := st1)
      as (S1 & S2 & S3 & S4).
    { intros dep Hdep. exists libs. auto. }
    { exact IH. }
    destruct H1 as (T1 & T2 & T3 & T4).
    split_and!.
    + set_solver.
    + set_solver.
    + intros x Hx. destruct (S3 x Hx) as [H1|H1]; auto.
    + intros d Hd. destruct (S4 d Hd) as [H1|H1]; auto.
Qed.

Lemma visit_deps_grow (v : string -> state -> status * state) deps :
  (forall dep st, seen st ⊆ seen (v dep st).2 /\ imports st ⊆ imports (v dep st).2) ->
  forall st, seen st ⊆ seen (visit_deps v deps st).2 /\
             imports st ⊆ imports (visit_deps v deps st).2.
Proof.
  intros Hv. induction deps as [|dep deps IH]; intros st.
  - cbn. set_solver.
  - cbn [visit_deps].
    set (st1 := {| seen := seen st; imports := {[dep]} ∪ imports st; reads := reads st |}).
    destruct (Hv dep st1) as [S1 S2]. cbn in S1, S2.
    destruct (v dep st1) as [s st'] eqn:E. cbn [snd] in *.
    destruct (IH st') as [T1 T2].
    destruct s as [[e|]|p|]; cbn [snd]; set_solver.
Qed.

Lemma visit_deps_closed (v : string -> state -> status * state) deps :
  (forall dep st, seen st ⊆ seen (v dep st).2 /\ imports st ⊆ imports (v dep st).2) ->
  (forall dep st st', v dep st = (Done None, st') ->
     dep ∈ seen st' /\ closed_new h dc st st' st') ->
  forall st st', visit_deps v deps st = (Done None, st') ->
    (forall dep, dep ∈ deps -> dep ∈ seen st' /\ dep ∈ imports st') /\
    closed_new h dc st st' st'.
Proof.
  intros Hgrow Hv. induction deps as [|dep deps IH]; intros st st' Hrun.
  - cbn in Hrun. injection Hrun as <-. split.
    + intros dep Hdep. inversion Hdep.
    + intros x Hx Hnx. contradiction.
  - cbn [visit_deps] in Hrun.
    set (st1 := {| seen := seen st; imports := {[dep]} ∪ imports st; reads := reads st |}) in *.
    destruct (Hgrow dep st1) as [G1 G2].
    destruct (v dep st1) as [s st2] eqn:E. cbn [snd] in G1, G2.
    destruct s as [[e|]|p|]; try discriminate.
    destruct (Hv dep st1 st2 E) as [Hdep Hclosed].
    destruct (IH st2 st' Hrun) as [Hall Hclosed'].
    destruct (visit_deps_grow v deps Hgrow st2) as [M1 M2].
    rewrite Hrun in M1, M2. cbn [snd] in M1, M2.
    split.
    + intros d Hd. apply elem_of_cons in Hd as [->|Hd]; [|auto].
      split; [set_solver|]. cbn in G2. set_solver.
    + intros x Hx Hnx d Hd.
      destruct (decide (x ∈ seen st2)) as [Hin|Hout].
      * destruct (Hclosed x Hin Hnx d Hd). split; set_solver.
      * exact (Hclosed' x Hx Hout d Hd).
Qed.

(** When a call of [visit] ends without an error, its argument is seen and
    every name it has newly seen has all its imports seen and recorded. *)
Lemma visit_closed fuel : forall filename st st',
  visit h dc fuel filename st = (Done None, st') ->
  filename ∈ seen st' /\ closed_new h dc st st' st'.
Proof.
  induction fuel as [|fuel IH]; intros filename st st' Hrun; [discriminate|].
  rewrite visit_S in Hrun. cbn zeta in Hrun.
  destruct (decide (filename ∈ seen st)) as [Hin|Hnot].
  { injection Hrun as <-. split; [exact Hin|]. intros x Hx Hnx. contradiction. }
  set (st1 := {| seen := {[filename]} ∪ seen st; imports := imports st;
                 reads := reads st ++ [filename] |}) in *.
  destruct (readImports h dc filename) as [[err|libs]|p|] eqn:Hread;
    try discriminate.
  assert (Hgrow : forall dep st0,
    seen st0 ⊆ seen (visit h dc fuel dep st0).2 /\
    imports st0 ⊆ imports (visit h dc fuel dep st0).2).
  { intros dep st0. destruct (visit_sound fuel dep st0) as (S1 & S2 & _). auto. }
  destruct (visit_deps_closed (visit h dc fuel) libs Hgrow IH st1 st' Hrun)
    as [Hall Hclosed].
  destruct (visit_deps_grow (visit h dc fuel) libs Hgrow st1) as [M1 _].
  rewrite Hrun in M1. cbn [snd] in M1.
  split; [cbn in M1; set_solver|].
  intros x Hx Hnx d Hd.
  destruct (decide (x = filename)) as [->|Hne].
  - destruct Hd as (libs' & Hlibs' & Hd). rewrite Hread in Hlibs'.
    injection Hlibs' as <-. apply Hall, Hd.
  - apply (Hclosed x Hx); [|exact Hd]. cbn. set_solver.
Qed.

Lemma visit_deps_panic_shape (v : string -> state -> status * state) deps :
  (forall dep st, (forall f p, f ∈ reads st -> readImports h dc f <> Panics p) ->
     panic_shape h dc (v dep st).1 (v dep st).2) ->
  forall st, (forall f p, f ∈ reads st -> readImports h dc f <> Panics p) ->
  panic_shape h dc (visit_deps v deps st).1 (visit_deps v deps st).2.
Proof.
  intros Hv. induction deps as [|dep deps IH]; intros st Hst; [exact Hst|].
  cbn [visit_deps].
  set (st1 := {| seen := seen st; imports := {[dep]} ∪ imports st; reads := reads st |}).
  specialize (Hv dep st1 Hst).
  destruct (v dep st1) as [[[e|]|p|] st']; cbn [fst snd] in *; auto.
Qed.

(** The call of [readImports] that panics is the last one of the run. *)
Lemma visit_panic_shape fuel : forall filename st,
  (forall f p, f ∈ reads st -> readImports h dc f <> Panics p) ->
  panic_shape h dc (visit h dc fuel filename st).1 (visit h dc fuel filename st).2.
Proof.
  induction fuel as [|fuel IH]; intros filename st Hst; [exact Hst|].
  rewrite visit_S. cbn zeta.
  destruct (decide (filename ∈ seen st)) as [Hin|Hnot]; [exact Hst|].
  set (st1 := {| seen := {[filename]} ∪ seen st; imports := imports st;
                 reads := reads st ++ [filename] |}).
  assert (Hnew : (forall p, readImports h dc filename <> Panics p) ->
                 forall f p, f ∈ reads st1 -> readImports h dc f <> Panics p).
  { intros Hne f p Hf. cbn in Hf. apply elem_of_app in Hf as [Hf|Hf]; [auto|].
    apply list_elem_of_singleton in Hf. subst f. apply Hne. }
  destruct (readImports h dc filename) as [[err|libs]|p|] eqn:Hread;
    cbn [fst snd].
  - exact (Hnew ltac:(intros ?; discriminate)).
  - apply visit_deps_panic_shape; [intros dep st'; apply IH|].
    exact (Hnew ltac:(intros ?; discriminate)).
  - exists (reads st), filename. auto.
  - exact (Hnew ltac:(intros ?; discriminate)).
Qed.

(** A run that ends without an error returns the names reached from the
    start file. *)
Lemma recursiveImports_reach fuel start s :
  recursiveImports h dc fuel start = Ret (s, None) ->
  forall d, d ∈ s <-> reach h dc start d.
Proof.
  intros Hrun.
  unfold recursiveImports in Hrun.
  pose proof (visit_sound fuel start initial) as Hsound.
  pose proof (visit_closed fuel start initial) as Hclosed.
  destruct (visit h dc fuel start initial) as [st_s st] eqn:E.
  destruct st_s as [err|p|]; try discriminate.
  injection Hrun as <- ->. cbn [snd] in Hsound.
  destruct Hsound as (_ & _ & _ & S4).
  destruct (Hclosed st eq_refl) as [Hstart Hc].
  intros d. split.
  - intros Hd. destruct (S4 d Hd) as [H0|H0]; [|exact H0]. cbn in H0. set_solver.
  - intros Hd.
    assert (Hgen : forall x y, tc (edge h dc) x y -> x ∈ seen st ->
                   y ∈ seen st /\ y ∈ imports st).
    { intros x y Hxy. induction Hxy as [x y Hxy|x z y Hxz Hzy IH]; intros Hx.
      - apply (Hc x Hx); [cbn; set_solver | exact Hxy].
      - apply IH. apply (Hc x Hx); [cbn; set_solver | exact Hxz]. }
    apply (Hgen start d Hd Hstart).
Qed.

End closure_graph.

(** ** The closure: what the maps hold when a read fails *)

Section closure_partial.

Variables (h : Host) (dc : DLCache) (start : string).

Lemma visit_deps_kept (v : string -> state -> status * state) g libs deps :
  readImports h dc g = Ret (inr libs) ->
  (forall d, d ∈ deps -> d ∈ libs) ->
  (forall dep st, tidy h dc start st ->
     dep = start \/ dep ∈ imports st ->
     (forall d, d ∈ imports st -> d = dep \/ d ∈ seen st) ->
     kept h dc start st (v dep st)) ->
  forall st, tidy h dc start st -> g ∈ reads st ->
    (forall d, d ∈ imports st -> d ∈ seen st) ->
    kept h dc start st (visit_deps v deps st).
Proof.
  intros Hg Hsub Hv. induction deps as [|dep deps IH]; intros st Ht Hin Hset.
  - cbn [visit_deps]. split_and!; auto.
  - cbn [visit_deps].
    set (st1 := {| seen := seen st; imports := {[dep]} ∪ imports st; reads := reads st |}).
    assert (Ht1 : tidy h dc start st1).
    { destruct Ht as (T1 & T2 & T3). split_and!; cbn [seen imports reads st1].
      - exact T1.
      - intros x Hx. destruct (T2 x Hx) as [->|Hi]; [left; reflexivity|].
        right. apply elem_of_union_r, Hi.
      - intros d Hd. apply elem_of_union in Hd as [Hd|Hd]; [|apply T3, Hd].
        apply elem_of_singleton in Hd. subst d.
        exists g, libs. split_and!; [exact Hin | exact Hg | apply Hsub; left]. }
    assert (Hk : kept h dc start st1 (v dep st1)).
    { apply Hv; [exact Ht1 | right; cbn; apply elem_of_union_l, elem_of_singleton; reflexivity|].
      intros d Hd. cbn in Hd. apply elem_of_union in Hd as [Hd|Hd].
      - left. apply elem_of_singleton in Hd. exact Hd.
      - right. apply Hset, Hd. }
    destruct (v dep st1) as [s' st'] eqn:E.
    destruct Hk as (K1 & K2 & K3). cbn [fst snd] in K1, K2, K3.
    assert (Hstop : s' <> Done None -> kept h dc start st (s', st')).
    { intros _. split_and!; cbn [fst snd]; auto. }
    destruct s' as [[err|]|p|]; try (apply Hstop; discriminate).
    assert (Hrest : forall d, d ∈ deps -> d ∈ libs)
      by (intros d Hd; apply Hsub; right; exact Hd).
    destruct (IH Hrest st' K1 (K2 g Hin) (K3 ltac:(discriminate))) as (R1 & R2 & R3).
    split_and!; auto.
Qed.

Lemma visit_kept fuel : forall filename st,
  tidy h dc start st ->
  filename = start \/ filename ∈ imports st ->
  (forall d, d ∈ imports st -> d = filename \/ d ∈ seen st) ->
  kept h dc start st (visit h dc fuel filename st).
Proof.
  induction fuel as [|fuel IH]; intros filename st Ht Hfile Hset.
  - cbn [visit]. split_and!; cbn [fst snd]; auto. intros Hne. contradiction.
  - rewrite visit_S. cbn zeta.
    destruct (decide (filename ∈ seen st)) as [Hseen|Hnot].
    { split_and!; cbn [fst snd]; auto.
      intros _ d Hd. destruct (Hset d Hd) as [->|Hs]; assumption. }
    set (st1 := {| seen := {[filename]} ∪ seen st; imports := imports st;
                   reads := reads st ++ [filename] |}).
    destruct Ht as (T1 & T2 & T3).
    assert (Ht1 : tidy h dc start st1).
    { split_and!; cbn [seen imports reads st1].
      - intros x. rewrite elem_of_union, elem_of_singleton, elem_of_app,
          list_elem_of_singleton, T1. tauto.
      - intros x Hx. apply elem_of_union in Hx as [Hx|Hx]; [|apply T2, Hx].
        apply elem_of_singleton in Hx. subst x. exact Hfile.
      - intros d Hd. destruct (T3 d Hd) as (g & libs & Hg & Hr & Hl).
        exists g, libs. split_and!; auto. apply elem_of_app. left. exact Hg. }
    assert (Hset1 : forall d, d ∈ imports st1 -> d ∈ seen st1).
    { intros d Hd. cbn in *. destruct (Hset d Hd) as [->|Hs].
      - apply elem_of_union_l, elem_of_singleton. reflexivity.
      - apply elem_of_union_r, Hs. }
    assert (Hmono : forall x, x ∈ reads st -> x ∈ reads st1)
      by (intros x Hx; cbn; apply elem_of_app; left; exact Hx).
    assert (Hhere : forall s, kept h dc start st (s, st1))
      by (intros s; split_and!; cbn [fst snd]; auto).
    destruct (readImports h dc filename) as [[err|libs]|p|] eqn:Hread;
      try apply Hhere.
    assert (Hin : filename ∈ reads st1)
      by (cbn; apply elem_of_app; right; apply list_elem_of_singleton; reflexivity).
    destruct (visit_deps_kept (visit h dc fuel) filename libs libs Hread
                ltac:(auto) IH st1 Ht1 Hin Hset1) as (R1 & R2 & R3).
    split_and!; auto.
Qed.

(** The start file is the first name read, when any is. *)
Lemma visit_initial_kept fuel :
  kept h dc start initial (visit h dc fuel start initial).
Proof.
  apply visit_kept.
  - split_and!; cbn.
    + intros x. rewrite elem_of_empty. split; [contradiction|].
      intros Hx. apply elem_of_nil in Hx. contradiction.
    + intros x Hx. apply elem_of_empty in Hx. contradiction.
    + intros d Hd. apply elem_of_empty in Hd. contradiction.
  - left. reflexivity.
  - intros d Hd. cbn in Hd. apply elem_of_empty in Hd. contradiction.
Qed.

End closure_partial.
(** ** More on the lookup *)

Section lookup_more.

Lemma index_at_Ret {A} (es : list A) j e :
  index_at es j = Ret e -> 0 <= j < Z.of_nat (length es) /\ e ∈ es.
Proof.
  unfold index_at.
  destruct (Z.leb_spec 0 j); [|discriminate].
  destruct (Z.ltb_spec j (Z.of_nat (length es))); [|discriminate]. cbn [andb].
  destruct (es !! Z.to_nat j) as [x|] eqn:E; [|discriminate].
  intros [= <-]. split; [lia|]. apply list_elem_of_lookup. eauto.
Qed.

(** What the bisection returns is the value of a 64-bit entry of the key. *)
Lemma bisect_sound es library : forall fuel lo hi v,
  bisect es library fuel lo hi = Ret (Some v) ->
  exists e, e ∈ es /\ Key e = library /\ Is64 e = true /\ Value e = v.
Proof.
  induction fuel as [|fuel IH]; intros lo hi v; cbn [bisect];
    destruct (lo <? hi); try discriminate.
  destruct (index_at es (Z.quot (lo + hi) 2)) as [e| |] eqn:Hidx;
    cbn [mbind outcome_bind]; try discriminate.
  apply index_at_Ret in Hidx as [_ Hin].
  destruct (_dl_cache_libcmp (Key e) library) as [x| |] eqn:Hx;
    cbn [mbind outcome_bind]; try discriminate.
  destruct (Z.eqb_spec x 0) as [->|_].
  - destruct (Is64 e) eqn:H64; [|apply IH].
    intros [= <-]. exists e. split_and!; try done.
    apply libcmp_zero_eq. exact Hx.
  - destruct (x =? -1); [apply IH|]. destruct (x =? 1); apply IH.
Qed.

(** Within the entries, the bisection returns or panics in a comparison. *)
Lemma bisect_outcome es library : forall fuel lo hi,
  0 <= lo -> hi <= Z.of_nat (length es) -> hi - lo <= Z.of_nat fuel ->
  (exists r, bisect es library fuel lo hi = Ret r) \/
  (exists e, bisect es library fuel lo hi = Panics (PanicNumError e)).
Proof.
  induction fuel as [|fuel IH]; intros lo hi Hlo Hhi Hfuel; cbn [bisect];
    destruct (Z.ltb_spec lo hi); try lia; eauto.
  pose proof (midpoint lo hi ltac:(lia) ltac:(lia)) as Hmid.
  set (mid := Z.quot (lo + hi) 2) in *.
  destruct (index_at_in es mid ltac:(lia)) as (em & -> & Hem).
  cbn [mbind outcome_bind].
  destruct (libcmp_outcome (Key em) library) as [[x Hx]|[e He]].
  - rewrite Hx. cbn [mbind outcome_bind].
    destruct (libcmp_range _ _ _ Hx) as [->|[->| ->]]; cbn [Z.eqb].
    + apply IH; lia.
    + destruct (Is64 em); [eauto|]. apply IH; lia.
    + apply IH; lia.
  - rewrite He. eauto.
Qed.

(** When no entry has the key and every comparison returns, the bisection
    finds nothing. *)
Lemma bisect_absent es library :
  (forall e, e ∈ es -> Key e <> library) ->
  (forall e, e ∈ es -> exists r, _dl_cache_libcmp (Key e) library = Ret r) ->
  forall fuel lo hi,
  0 <= lo -> hi <= Z.of_nat (length es) -> hi - lo <= Z.of_nat fuel ->
  bisect es library fuel lo hi = Ret None.
Proof.
  intros Habs Hret.
  induction fuel as [|fuel IH]; intros lo hi Hlo Hhi Hfuel; cbn [bisect];
    destruct (Z.ltb_spec lo hi); try lia; try reflexivity.
  pose proof (midpoint lo hi ltac:(lia) ltac:(lia)) as Hmid.
  set (mid := Z.quot (lo + hi) 2) in *.
  destruct (index_at_in es mid ltac:(lia)) as (em & Hidx & Hem).
  rewrite Hidx. cbn [mbind outcome_bind].
  assert (Hin : em ∈ es) by (apply list_elem_of_lookup; eauto).
  destruct (Hret em Hin) as [x Hx]. rewrite Hx. cbn [mbind outcome_bind].
  destruct (libcmp_range _ _ _ Hx) as [->|[->| ->]]; cbn [Z.eqb].
  - apply IH; lia.
  - apply libcmp_zero_eq in Hx. destruct (Habs em Hin Hx).
  - apply IH; lia.
Qed.

Lemma log_neighbours_outcome es n j :
  log_neighbours es n j = Ret tt \/
  log_neighbours es n j = Panics PanicIndexOutOfRange.
Proof.
  revert j. induction n as [|n IH]; intros j; cbn [log_neighbours]; [auto|].
  unfold index_at. destruct (_ && _); [|auto].
  destruct (_ !! _); [|auto]. cbn [mbind outcome_bind]. apply IH.
Qed.

Lemma lookup_paths_first h library : forall paths i dir,
  paths !! i = Some dir ->
  Stat h (filepath_Join h dir library) = true ->
  (forall j d, (j < i)%nat -> paths !! j = Some d ->
     Stat h (filepath_Join h d library) = false) ->
  lookup_paths h paths library = Some (filepath_Join h dir library).
Proof.
  induction paths as [|p paths IH]; intros i dir Hi Hstat Hbefore; [inversion Hi|].
  cbn [lookup_paths]. destruct i as [|i]; cbn in Hi.
  - injection Hi as <-. rewrite Hstat. reflexivity.
  - rewrite (Hbefore 0%nat p ltac:(lia) eq_refl).
    apply (IH i); [exact Hi | exact Hstat|].
    intros j d Hj Hd. apply (Hbefore (S j) d); [lia | exact Hd].
Qed.

Lemma lookup_paths_none h library paths :
  (forall d, d ∈ paths -> Stat h (filepath_Join h d library) = false) ->
  lookup_paths h paths library = None.
Proof.
  induction paths as [|p paths IH]; intros Hall; [reflexivity|].
  cbn [lookup_paths]. rewrite (Hall p) by left.
  apply IH. intros d Hd. apply Hall. right. exact Hd.
Qed.

Lemma testbit_0x300 n :
  Z.testbit 0x300 n = (n =? 8) || (n =? 9).
Proof.
  destruct (Z_lt_le_dec n 0) as [Hneg|Hpos].
  { rewrite Z.testbit_neg_r by lia.
    destruct (Z.eqb_spec n 8), (Z.eqb_spec n 9); try lia; reflexivity. }
  destruct (Z_lt_le_dec n 10) as [Hlt|Hge].
  - remember (Z.to_nat n) as k eqn:Hk.
    assert (n = Z.of_nat k) as -> by lia. clear Hk.
    do 10 (destruct k as [|k]; [reflexivity|]). lia.
  - rewrite Z.bits_above_log2; [|lia|change (Z.log2 768) with 9; lia].
    destruct (Z.eqb_spec n 8), (Z.eqb_spec n 9); try lia; reflexivity.
Qed.

End lookup_more.

(** ** More on the comparator *)

Section libcmp_more.

Lemma byte_compare c1 c2 :
  (byteZ c1 ?= byteZ c2) = Ascii.compare c1 c2.
Proof. unfold byteZ, Ascii.compare. apply N2Z.inj_compare. Qed.

(** On strings without digits the comparator is the lexicographic order of
    the bytes. *)
Lemma libcmp_digit_free a : forall b,
  digit_free a = true -> digit_free b = true ->
  _dl_cache_libcmp a b = Ret (sign (String.compare a b)).
Proof.
  induction a as [|c1 s1 IH]; intros [|c2 s2] Ha Hb; try reflexivity.
  cbn [digit_free] in Ha, Hb.
  apply andb_true_iff in Ha as [H1 Ha]. apply andb_true_iff in Hb as [H2 Hb].
  apply negb_true_iff in H1, H2.
  rewrite libcmp_cons. unfold libcmp_step.
  rewrite !isDigitByte_ascii, H1, H2. cbn [andb String.compare].
  rewrite <- byte_compare.
  destruct (Z.compare_spec (byteZ c1) (byteZ c2)) as [Heq|Hlt|Hgt].
  - rewrite Heq, Z.ltb_irrefl. apply IH; assumption.
  - destruct (Z.ltb_spec (byteZ c1) (byteZ c2)); [reflexivity | lia].
  - destruct (Z.ltb_spec (byteZ c1) (byteZ c2)); [lia|].
    destruct (Z.ltb_spec (byteZ c2) (byteZ c1)); [reflexivity | lia].
Qed.

(** A comparison with a string without digits returns. *)
Lemma libcmp_one_digit_free a : forall b,
  digit_free a = true \/ digit_free b = true ->
  exists r, _dl_cache_libcmp a b = Ret r.
Proof.
  induction a as [|c1 s1 IH]; intros [|c2 s2] H;
    try (eexists; reflexivity).
  assert (Hd : isAsciiDigit c1 && isAsciiDigit c2 = false).
  { destruct H as [H|H]; cbn [digit_free] in H;
      apply andb_true_iff in H as [H _]; apply negb_true_iff in H; rewrite H;
      [reflexivity | apply andb_false_r]. }
  assert (Htail : digit_free s1 = true \/ digit_free s2 = true).
  { destruct H as [H|H]; cbn [digit_free] in H;
      apply andb_true_iff in H as [_ H]; auto. }
  rewrite libcmp_cons. unfold libcmp_step.
  rewrite !isDigitByte_ascii, Hd.
  destruct (isAsciiDigit c1); [eauto|].
  destruct (isAsciiDigit c2); [eauto|].
  destruct (byteZ c1 <? byteZ c2); [eauto|].
  destruct (byteZ c2 <? byteZ c1); [eauto|].
  apply IH, Htail.
Qed.

Lemma decimal_from_digit_run_app s t : forall acc,
  0 <= acc ->
  decimal_from acc (digit_run s) <= decimal_from acc (digit_run (s ++ t)).
Proof.
  induction s as [|c s IH]; intros acc Hacc.
  - change (EmptyString ++ t)%string with t. cbn [digit_run decimal_from].
    apply decimal_from_mono; [assumption | apply digit_run_idem].
  - change (String c s ++ t)%string with (String c (s ++ t)).
    cbn [digit_run]. destruct (isAsciiDigit c) eqn:Hc; [|reflexivity].
    cbn [decimal_from]. apply IH.
    apply isAsciiDigit_range in Hc. lia.
Qed.

Lemma run_value_app s t : run_value s <= run_value (s ++ t).
Proof. apply decimal_from_digit_run_app. lia. Qed.

(** A string extended by a suffix is above the string. *)
Lemma libcmp_extension s t :
  t <> "" ->
  _dl_cache_libcmp (s ++ t) s = Ret 1 \/
  exists e, _dl_cache_libcmp (s ++ t) s = Panics (PanicNumError e).
Proof.
  intros Ht. induction s as [|c s IH].
  - left. change (EmptyString ++ t)%string with t. rewrite libcmp_nil_r.
    destruct t; [congruence | reflexivity].
  - change (String c s ++ t)%string with (String c (s ++ t)) in *.
    destruct (isAsciiDigit c) eqn:Hc.
    + destruct (int32_run (String c (s ++ t))) eqn:R1;
        [|right; apply libcmp_head_digits_panic; auto].
      destruct (int32_run (String c s)) eqn:R2;
        [|right; apply libcmp_head_digits_panic; auto].
      rewrite libcmp_head_digits by assumption.
      pose proof (run_value_app (String c s) t) as Hle.
      change (String c s ++ t)%string with (String c (s ++ t)) in Hle.
      destruct (Z.ltb_spec (run_value (String c (s ++ t))) (run_value (String c s)));
        [lia|].
      destruct (Z.ltb_spec (run_value (String c s)) (run_value (String c (s ++ t))));
        [auto | exact IH].
    + rewrite libcmp_head_same by assumption. exact IH.
Qed.

End libcmp_more.

(** ** More on the decoder *)

Section decode_more.

Lemma le_uint_nonneg bs : 0 <= le_uint bs.
Proof.
  induction bs as [|b bs IH]; cbn [le_uint]; [lia|].
  apply Z.lor_nonneg. split; [apply byteZ_range | apply Z.shiftl_nonneg, IH].
Qed.

Lemma lor_byte a b :
  0 <= a < 256 -> 0 <= b -> Z.lor a (Z.shiftl b 8) = a + 256 * b.
Proof.
  intros Ha Hb.
  pose proof (Z.add_lor_land a (Z.shiftl b 8)) as Hadd.
  assert (Hz : Z.land a (Z.shiftl b 8) = 0).
  { apply Z.bits_inj'. intros n Hn. rewrite Z.land_spec, Z.bits_0.
    destruct (Z_lt_le_dec n 8) as [Hlt|Hge].
    - rewrite Z.shiftl_spec_low by lia. apply andb_false_r.
    - destruct (Z.eq_dec a 0) as [->|Hne]; [rewrite Z.bits_0; reflexivity|].
      rewrite (Z.bits_above_log2 a n); [reflexivity | lia|].
      assert (Z.log2 a < 8); [|lia].
      apply Z.log2_lt_pow2; [lia|]. change (2 ^ 8) with 256. lia. }
  rewrite Hz, Z.shiftl_mul_pow2 in Hadd by lia.
  rewrite Z.shiftl_mul_pow2 by lia. change (2 ^ 8) with 256 in *. lia.
Qed.

Lemma le_uint_bound bs : le_uint bs < 256 ^ Z.of_nat (length bs).
Proof.
  induction bs as [|b bs IH]; cbn [le_uint length]; [cbn; lia|].
  rewrite lor_byte by (apply byteZ_range || apply le_uint_nonneg).
  rewrite Nat2Z.inj_succ, Z.pow_succ_r by lia.
  pose proof (byteZ_range b). pose proof (le_uint_nonneg bs). lia.
Qed.

Lemma byteZ_of_Z x :
  0 <= x < 256 -> byteZ (ascii_of_N (Z.to_N x)) = x.
Proof.
  intros Hx. unfold byteZ. rewrite N_ascii_embedding by lia. lia.
Qed.

(** Decoding the four little-endian bytes of a value gives the value back,
    modulo 2^32. *)
Lemma le_uint_le32 v : le_uint (le32 v) = v mod 2 ^ 32.
Proof.
  unfold le32. cbn [map le_uint].
  assert (Hb : forall k, 0 <= k ->
    byteZ (ascii_of_N (Z.to_N (Z.land (Z.shiftr v k) 255))) = (v / 2 ^ k) mod 256).
  { intros k Hk. change 255 with (Z.ones 8).
    rewrite Z.land_ones, Z.shiftr_div_pow2 by lia. change (2 ^ 8) with 256.
    apply byteZ_of_Z. apply Z.mod_pos_bound. lia. }
  rewrite !Hb by lia.
  change (Z.shiftl 0 8) with 0. rewrite Z.lor_0_r.
  assert (Hr : forall k, 0 <= (v / 2 ^ k) mod 256 < 256)
    by (intros k; apply Z.mod_pos_bound; lia).
  rewrite (lor_byte ((v / 2 ^ (8 * 2)) mod 256)) by (auto; apply Hr).
  rewrite (lor_byte ((v / 2 ^ (8 * 1)) mod 256))
    by (auto; pose proof (Hr (8 * 2)); pose proof (Hr (8 * 3)); lia).
  rewrite (lor_byte ((v / 2 ^ (8 * 0)) mod 256))
    by (auto; pose proof (Hr (8 * 1)); pose proof (Hr (8 * 2));
        pose proof (Hr (8 * 3)); lia).
  change (2 ^ (8 * 0)) with 1. change (2 ^ (8 * 1)) with 256.
  change (2 ^ (8 * 2)) with 65536. change (2 ^ (8 * 3)) with 16777216.
  change (2 ^ 32) with 4294967296.
  Z.div_mod_to_equations. lia.
Qed.

Lemma length_le32 v : length (le32 v) = 4%nat.
Proof. reflexivity. Qed.

Lemma length_record_bytes f k v : length (record_bytes f k v) = 12%nat.
Proof. reflexivity. Qed.

Lemma to_int32_mod f :
  - 2 ^ 31 <= f < 2 ^ 31 -> to_int32 (f mod 2 ^ 32) = f.
Proof.
  intros Hf. unfold to_int32.
  change (2 ^ 31) with 2147483648 in *. change (2 ^ 32) with 4294967296.
  destruct (Z.ltb_spec (f mod 4294967296) 2147483648);
    Z.div_mod_to_equations; lia.
Qed.

Lemma to_int32_range u :
  0 <= u < 2 ^ 32 -> - 2 ^ 31 <= to_int32 u < 2 ^ 31.
Proof.
  intros Hu. unfold to_int32.
  change (2 ^ 31) with 2147483648 in *. change (2 ^ 32) with 4294967296 in *.
  destruct (Z.ltb_spec u 2147483648); lia.
Qed.

(** [bytes.IndexByte] against the string before the first [NUL]. *)
Lemma IndexByte_cstring b :
  match cstring b with
  | Some p => IndexByte b NUL = Z.of_nat (length p) /\ take (length p) b = p /\
              (length p < length b)%nat
  | None => IndexByte b NUL = -1
  end.
Proof.
  induction b as [|x b IH]; cbn [cstring IndexByte]; [reflexivity|].
  destruct (Ascii.eqb x NUL); [split_and!; cbn; (reflexivity || lia)|].
  destruct (cstring b) as [p|]; cbn [fmap option_fmap option_map].
  - destruct IH as (H1 & H2 & H3). rewrite H1.
    destruct (Z.eqb_spec (Z.of_nat (length p)) (-1)); [lia|].
    cbn [length take]. split_and!; [lia | congruence | lia].
  - rewrite IH. reflexivity.
Qed.

(** [readString] returns the string that starts at the offset, and panics
    when there is none. *)
Lemma readString_spec tab index :
  0 <= index ->
  readString tab index =
  match cstring_at tab index with
  | Some s => Ret s
  | None => Panics PanicSliceBounds
  end.
Proof.
  intros Hidx. unfold readString, cstring_at.
  destruct (Z_lt_le_dec (Z.of_nat (length tab)) index) as [Hout|Hin].
  { rewrite slice_bad by lia. rewrite drop_ge by lia. reflexivity. }
  assert (Htail : slice tab index (Z.of_nat (length tab))
                  = Ret (drop (Z.to_nat index) tab)).
  { unfold slice.
    destruct (Z.leb_spec 0 index); [|lia].
    destruct (Z.leb_spec index (Z.of_nat (length tab))); [|lia].
    rewrite Z.leb_refl. cbn [andb]. rewrite take_ge; [reflexivity|].
    rewrite length_drop. lia. }
  rewrite Htail. cbn [mbind outcome_bind].
  pose proof (IndexByte_cstring (drop (Z.to_nat index) tab)) as Hc.
  change (ascii_of_nat 0) with NUL.
  destruct (cstring (drop (Z.to_nat index) tab)) as [p|];
    cbn [fmap option_fmap option_map].
  - destruct Hc as (H1 & H2 & H3). rewrite H1. rewrite length_drop in H3.
    unfold slice.
    destruct (Z.leb_spec 0 index); [|lia].
    destruct (Z.leb_spec index (index + Z.of_nat (length p))); [|lia].
    destruct (Z.leb_spec (index + Z.of_nat (length p)) (Z.of_nat (length tab))); [|lia].
    cbn [andb mbind outcome_bind].
    replace (Z.to_nat (index + Z.of_nat (length p) - index)) with (length p) by lia.
    rewrite H2. reflexivity.
  - rewrite Hc. rewrite slice_bad by lia. reflexivity.
Qed.

(** Building the entries of the records is decoding each of them against the
    string table. *)
Lemma build_entries_spec tab recs :
  build_entries tab (map decode_fileEntry recs) =
  match mapM (decode_record tab) recs with
  | Some es => Ret es
  | None => Panics PanicSliceBounds
  end.
Proof.
  induction recs as [|rec recs IH]; [reflexivity|].
  cbn [map build_entries mapM].
  change (_Key (decode_fileEntry rec)) with (key_offset rec).
  change (_Value (decode_fileEntry rec)) with (value_offset rec).
  change (_Flags (decode_fileEntry rec)) with (record_flags rec).
  rewrite !readString_spec by apply le_uint_nonneg.
  destruct (cstring_at tab (key_offset rec)) as [k|] eqn:Hk.
  - destruct (cstring_at tab (value_offset rec)) as [v|] eqn:Hv.
    + assert (Hd : decode_record tab rec
                   = Some {| Flags := record_flags rec; Key := k; Value := v |})
        by (unfold decode_record; rewrite Hk, Hv; reflexivity).
      rewrite Hd, IH. cbn [mbind outcome_bind option_bind].
      destruct (mapM (decode_record tab) recs) as [es|]; reflexivity.
    + assert (Hd : decode_record tab rec = None)
        by (unfold decode_record; rewrite Hk, Hv; reflexivity).
      rewrite Hd. reflexivity.
  - assert (Hd : decode_record tab rec = None)
      by (unfold decode_record; rewrite Hk; reflexivity).
    rewrite Hd. reflexivity.
Qed.

Lemma cstring_app p rest :
  forallb (fun c => negb (Ascii.eqb c NUL)) p = true ->
  cstring (p ++ NUL :: rest) = Some p.
Proof.
  induction p as [|c p IH]; intros Hp; cbn [app cstring].
  - rewrite Ascii.eqb_refl. reflexivity.
  - cbn [forallb] in Hp. apply andb_true_iff in Hp as [Hc Hp].
    apply negb_true_iff in Hc. rewrite Hc, (IH Hp). reflexivity.
Qed.

Lemma cstring_nul_free b : forall p,
  cstring b = Some p -> forallb (fun c => negb (Ascii.eqb c NUL)) p = true.
Proof.
  induction b as [|x b IH]; intros p; cbn [cstring]; [discriminate|].
  destruct (Ascii.eqb x NUL) eqn:Hx; [intros [= <-]; reflexivity|].
  destruct (cstring b) as [q|]; cbn [fmap option_fmap option_map]; [|discriminate].
  intros [= <-]. cbn [forallb]. rewrite Hx, (IH q eq_refl). reflexivity.
Qed.

Lemma length_list_ascii_of_string s :
  length (list_ascii_of_string s) = String.length s.
Proof. induction s as [|c s IH]; cbn; [reflexivity | rewrite IH; reflexivity]. Qed.

Lemma cstring_at_app pre s rest :
  nul_free s = true ->
  cstring_at (pre ++ list_ascii_of_string s ++ NUL :: rest) (Z.of_nat (length pre))
  = Some s.
Proof.
  intros Hs. unfold cstring_at. rewrite Nat2Z.id, drop_app_length.
  rewrite cstring_app by exact Hs. cbn [fmap option_fmap option_map].
  rewrite string_of_list_ascii_of_string. reflexivity.
Qed.

Lemma cstring_at_nul_free tab off s : cstring_at tab off = Some s -> nul_free s = true.
Proof.
  unfold cstring_at, nul_free.
  destruct (cstring (drop (Z.to_nat off) tab)) as [p|] eqn:Hp;
    cbn [fmap option_fmap option_map]; [|discriminate].
  intros [= <-]. rewrite list_ascii_of_string_of_list_ascii.
  eapply cstring_nul_free, Hp.
Qed.

Lemma record_fields f k v :
  record_flags (record_bytes f k v) = to_int32 (le_uint (le32 f)) /\
  key_offset (record_bytes f k v) = le_uint (le32 k) /\
  value_offset (record_bytes f k v) = le_uint (le32 v).
Proof. split_and!; reflexivity. Qed.

Lemma length_layout_records es : forall off,
  length (layout_records es off) = length es /\
  Forall (fun rec => length rec = 12%nat) (layout_records es off).
Proof.
  induction es as [|e es IH]; intros off; cbn [layout_records length].
  - split; [reflexivity | apply Forall_nil_2].
  - destruct (IH (off + Z.of_nat (length (entry_strings e)))) as [H1 H2].
    split; [rewrite H1; reflexivity|]. apply Forall_cons. split; [reflexivity | exact H2].
Qed.

(** The records laid out for a list of entries decode to the entries,
    against the table of their strings placed after any prefix. *)
Lemma layout_decode es : forall pre,
  Forall (fun e => - 2 ^ 31 <= Flags e < 2 ^ 31 /\
                   nul_free (Key e) = true /\ nul_free (Value e) = true) es ->
  Z.of_nat (length pre + length (layout_table es)) < 2 ^ 32 ->
  mapM (decode_record (pre ++ layout_table es))
       (layout_records es (Z.of_nat (length pre))) = Some es.
Proof.
  induction es as [|e es IH]; intros pre Hok Hlen; [reflexivity|].
  apply Forall_cons in Hok as [(Hf & Hk & Hv) Hok].
  cbn [layout_records mapM].
  change (layout_table (e :: es)) with (entry_strings e ++ layout_table es)%list in *.
  rewrite length_app in Hlen.
  set (tab := (pre ++ entry_strings e ++ layout_table es)%list).
  set (voff := Z.of_nat (length pre) + Z.of_nat (String.length (Key e)) + 1).
  assert (Hlen_e : length (entry_strings e)
                   = (String.length (Key e) + 1 + (String.length (Value e) + 1))%nat).
  { unfold entry_strings. rewrite !length_app, !length_list_ascii_of_string.
    cbn [length]. lia. }
  assert (Hd : decode_record tab
                 (record_bytes (Flags e) (Z.of_nat (length pre)) voff) = Some e).
  { unfold decode_record.
    destruct (record_fields (Flags e) (Z.of_nat (length pre)) voff) as (-> & -> & ->).
    rewrite !le_uint_le32.
    rewrite (Z.mod_small (Z.of_nat (length pre))) by lia.
    rewrite (Z.mod_small voff) by (subst voff; lia).
    rewrite to_int32_mod by exact Hf.
    assert (E1 : cstring_at tab (Z.of_nat (length pre)) = Some (Key e)).
    { subst tab. unfold entry_strings. rewrite <- !app_assoc.
      apply cstring_at_app, Hk. }
    assert (E2 : cstring_at tab voff = Some (Value e)).
    { subst tab. unfold entry_strings.
      replace (pre ++ (list_ascii_of_string (Key e) ++ [NUL]
                       ++ list_ascii_of_string (Value e) ++ [NUL]) ++ layout_table es)%list
        with ((pre ++ list_ascii_of_string (Key e) ++ [NUL])
              ++ list_ascii_of_string (Value e) ++ NUL :: layout_table es)%list
        by (rewrite <- !app_assoc; reflexivity).
      replace voff with (Z.of_nat (length (pre ++ list_ascii_of_string (Key e) ++ [NUL])%list)).
      - apply cstring_at_app, Hv.
      - subst voff. rewrite !length_app, length_list_ascii_of_string. cbn [length]. lia. }
    rewrite E1, E2. destruct e; reflexivity. }
  rewrite Hd. cbn [mbind option_bind].
  replace (Z.of_nat (length pre) + Z.of_nat (length (entry_strings e)))
    with (Z.of_nat (length (pre ++ entry_strings e)%list))
    by (rewrite length_app; lia).
  replace tab with ((pre ++ entry_strings e) ++ layout_table es)%list
    by (subst tab; rewrite <- app_assoc; reflexivity).
  rewrite IH; [reflexivity | exact Hok|].
  rewrite length_app. lia.
Qed.

(** [ReadDLCache] on a file that holds a header it accepts, the count, the
    records that the count announces and a string table. *)
Lemma ReadDLCache_complete hd cnt recs table :
  good_header hd = true ->
  length cnt = 4%nat ->
  length recs = Z.to_nat (le_uint cnt) ->
  Forall (fun rec => length rec = 12%nat) recs ->
  ReadDLCache (hd ++ cnt ++ concat recs ++ table) =
  match mapM (decode_record table) recs with
  | Some es => Ret (inr {| FileEntries := es |})
  | None => Panics PanicSliceBounds
  end.
Proof.
  intros Hhd Hcnt Hn Hall.
  rewrite ReadDLCache_header by assumption.
  rewrite readFull_app by (assumption || lia).
  rewrite <- Hn, read_entries_complete by assumption.
  rewrite build_entries_spec.
  destruct (mapM (decode_record table) recs); reflexivity.
Qed.

Lemma readFull_inr n r bs r' :
  readFull n r = (inr bs, r') ->
  bs = take n r /\ r' = drop n r /\ (n <= length r)%nat.
Proof.
  unfold readFull. destruct r as [|b r]; [discriminate|].
  destruct (Nat.ltb_spec (length (b :: r)) n); [discriminate|].
  intros [= <- <-]. auto.
Qed.

Lemma readFull_inl n r e r' :
  readFull n r = (inl e, r') -> is_truncated e = true /\ (length r < n \/ r = [])%nat.
Proof.
  unfold readFull. destruct r as [|b r]; [intros [= <- <-]; auto|].
  destruct (Nat.ltb_spec (length (b :: r)) n); [|discriminate].
  intros [= <- <-]. auto.
Qed.

Lemma read_entries_inr n : forall r raw r',
  read_entries n r = (inr raw, r') ->
  exists recs, raw = map decode_fileEntry recs /\ length recs = n /\
               Forall (fun rec => length rec = 12%nat) recs /\
               r = (concat recs ++ r')%list.
Proof.
  induction n as [|n IH]; intros r raw r'; cbn [read_entries].
  - intros [= <- <-]. exists []. split_and!; auto.
  - destruct (readFull 12 r) as [[e|bs] r1] eqn:Hread; [discriminate|].
    apply readFull_inr in Hread as (-> & -> & Hlen).
    destruct (read_entries n (drop 12 r)) as [[e|raw'] r2] eqn:Hrest; [discriminate|].
    intros [= <- <-].
    destruct (IH _ _ _ Hrest) as (recs & -> & Hn & Hall & Hr).
    exists (take 12 r :: recs). split_and!.
    + reflexivity.
    + cbn. lia.
    + apply Forall_cons. split; [rewrite length_take; lia | exact Hall].
    + cbn [concat]. rewrite <- app_assoc, <- Hr. symmetry. apply take_drop.
Qed.

Lemma read_entries_inl n : forall r e r',
  read_entries n r = (inl e, r') -> is_truncated e = true.
Proof.
  induction n as [|n IH]; intros r e r'; cbn [read_entries]; [discriminate|].
  destruct (readFull 12 r) as [[e1|bs] r1] eqn:Hread.
  - intros [= <- <-]. eapply readFull_inl, Hread.
  - destruct (read_entries n r1) as [[e2|raw'] r2] eqn:Hrest; [|discriminate].
    intros [= <- <-]. eapply IH, Hrest.
Qed.

(** A stream shorter than the magic, or that starts otherwise than with the
    five bytes of "ld.so", is refused with the error of the magic. *)
Lemma ReadDLCache_bad_header r :
  good_header (take 12 r) = false -> ReadDLCache r = Ret (inl ErrMagic).
Proof.
  unfold good_header, ReadDLCache. change (len cacheMagic) with 12%nat.
  intros Hbad.
  destruct (Nat.lt_ge_cases (length r) 12) as [Hshort|Hlong].
  - destruct r as [|b r]; [reflexivity|].
    rewrite readFull_short by (congruence || assumption). reflexivity.
  - rewrite readFull_enough by lia.
    rewrite length_take, Nat.min_l, Nat.eqb_refl in Hbad by lia.
    cbn [andb] in Hbad. rewrite Hbad. reflexivity.
Qed.

(** A cache is returned only for a file made of an accepted header, the
    count, the records it announces and a table that holds their strings. *)
Lemma ReadDLCache_success r dc :
  ReadDLCache r = Ret (inr dc) ->
  exists hd cnt recs table,
    r = (hd ++ cnt ++ concat recs ++ table)%list /\
    good_header hd = true /\ length cnt = 4%nat /\
    length recs = Z.to_nat (le_uint cnt) /\
    Forall (fun rec => length rec = 12%nat) recs /\
    mapM (decode_record table) recs = Some (FileEntries dc).
Proof.
  intros Hrun.
  destruct (good_header (take 12 r)) eqn:Hhd;
    [|rewrite ReadDLCache_bad_header in Hrun by assumption; discriminate].
  assert (Hlen : (12 <= length r)%nat).
  { unfold good_header in Hhd. apply andb_true_iff in Hhd as [Hl _].
    apply Nat.eqb_eq in Hl. change (len cacheMagic) with 12%nat in Hl.
    rewrite length_take in Hl. lia. }
  rewrite <- (take_drop 12 r) in Hrun.
  rewrite ReadDLCache_header in Hrun by assumption.
  destruct (readFull 4 (drop 12 r)) as [[e|cnt] r1] eqn:Hcnt; [discriminate|].
  apply readFull_inr in Hcnt as (-> & -> & Hlen4).
  destruct (read_entries _ _) as [[e|raw] r2] eqn:Hrecs; [discriminate|].
  apply read_entries_inr in Hrecs as (recs & -> & Hn & Hall & Hr).
  rewrite build_entries_spec in Hrun.
  destruct (mapM (decode_record r2) recs) as [es|] eqn:Hes; [|discriminate].
  cbn [mbind outcome_bind] in Hrun. injection Hrun as <-.
  exists (take 12 r), (take 4 (drop 12 r)), recs, r2. split_and!; try assumption.
  - rewrite <- Hr, !take_drop. reflexivity.
  - rewrite length_take. lia.
Qed.

End decode_more.

(** ** The command: lemmas *)

Section cli_more.

Lemma str_le_trans : Transitive str_le.
Proof.
  unfold Transitive, str_le, String.leb. intros a.
  induction a as [|x a IH]; intros [|y b] [|z c]; cbn [String.compare];
    try (intros; reflexivity || discriminate).
  unfold Ascii.compare.
  destruct (N.compare_spec (N_of_ascii x) (N_of_ascii y)) as [Hxy|Hxy|Hxy],
           (N.compare_spec (N_of_ascii y) (N_of_ascii z)) as [Hyz|Hyz|Hyz],
           (N.compare_spec (N_of_ascii x) (N_of_ascii z)) as [Hxz|Hxz|Hxz];
    try lia; try discriminate; try (intros; reflexivity).
  apply IH.
Qed.

Lemma str_le_total : Total str_le.
Proof. intros a b. apply String.leb_total. Qed.

Lemma str_le_antisym : AntiSymm eq str_le.
Proof. intros a b. apply String.leb_antisym. Qed.

Lemma sortedSet_sorted iter : StronglySorted str_le (sortedSet iter).
Proof. exact (@StronglySorted_merge_sort _ str_le _ str_le_trans str_le_total iter). Qed.

Lemma sortedSet_perm iter : sortedSet iter ≡ₚ iter.
Proof. apply merge_sort_Permutation. Qed.

Lemma sortedSet_unique iter iter' : iter ≡ₚ iter' -> sortedSet iter = sortedSet iter'.
Proof.
  intros Hperm.
  apply (@StronglySorted_unique _ str_le str_le_antisym); try apply sortedSet_sorted.
  rewrite !sortedSet_perm. exact Hperm.
Qed.

Lemma resolveBinary_no_error h ph dc arg filename :
  resolveBinary h ph dc arg = Ret (filename, None) <-> on_disk_or_path ph arg filename.
Proof.
  unfold resolveBinary, on_disk_or_path.
  destruct (StatErr ph arg) as [err|].
  - destruct (IsNotExist err) eqn:Hne.
    + destruct (LookPath ph arg) as [e|fn].
      * destruct (Lookup h dc arg) as [[fn ok]|p|]; cbn [mbind outcome_bind].
        -- destruct ok; split; try discriminate;
             intros [[? _]|(? & _ & _ & ?)]; discriminate.
        -- split; [discriminate | intros [[? _]|(? & _ & _ & ?)]; discriminate].
        -- split; [discriminate | intros [[? _]|(? & _ & _ & ?)]; discriminate].
      * split.
        -- intros [= <-]. right. exists err. auto.
        -- intros [[? _]|(? & _ & _ & [= <-])]; [discriminate | reflexivity].
    + split; [discriminate|].
      intros [[? _]|(? & [= <-] & ? & _)]; [discriminate | congruence].
  - split.
    + intros [= <-]. left. auto.
    + intros [[_ ->]|(? & ? & _)]; [reflexivity | discriminate].
Qed.

Lemma omap_cons {A B} (f : A -> option B) x l :
  omap f (x :: l) = match f x with Some y => y :: omap f l | None => omap f l end.
Proof. reflexivity. Qed.

Lemma found_path_Ret h dc lib path ok :
  Lookup h dc lib = Ret (path, ok) ->
  found_path h dc lib = if ok then Some path else None.
Proof. unfold found_path. intros ->. destruct ok; reflexivity. Qed.

Lemma main_paths_found h dc libs : forall paths,
  (forall lib, lib ∈ libs -> exists r, Lookup h dc lib = Ret r) ->
  main_paths h dc libs paths = Ret (paths ++ omap (found_path h dc) libs)%list.
Proof.
  induction libs as [|lib libs IH]; intros paths Hret; cbn [main_paths].
  - cbn. rewrite app_nil_r. reflexivity.
  - destruct (Hret lib) as [[path ok] Hl]; [left|].
    assert (Hrest : forall l, l ∈ libs -> exists r, Lookup h dc l = Ret r)
      by (intros l Hin; apply Hret; right; exact Hin).
    rewrite omap_cons, (found_path_Ret _ _ _ _ _ Hl), Hl. cbn [mbind outcome_bind].
    destruct ok; rewrite IH by exact Hrest; [|reflexivity].
    rewrite <- app_assoc. reflexivity.
Qed.

Lemma main_paths_inv h dc libs : forall paths out,
  main_paths h dc libs paths = Ret out ->
  out = (paths ++ omap (found_path h dc) libs)%list /\
  forall lib, lib ∈ libs -> exists r, Lookup h dc lib = Ret r.
Proof.
  induction libs as [|lib libs IH]; intros paths out; cbn [main_paths].
  - intros [= <-]. cbn. rewrite app_nil_r. split; [reflexivity|].
    intros lib Hin. apply elem_of_nil in Hin. contradiction.
  - rewrite omap_cons.
    destruct (Lookup h dc lib) as [[path ok]|p|] eqn:Hl; cbn [mbind outcome_bind];
      try discriminate.
    rewrite (found_path_Ret _ _ _ _ _ Hl).
    destruct ok; intros Hrun; apply IH in Hrun as [-> Hrest]; split.
    + rewrite <- app_assoc. reflexivity.
    + intros l Hin. apply elem_of_cons in Hin as [->|Hin]; eauto.
    + reflexivity.
    + intros l Hin. apply elem_of_cons in Hin as [->|Hin]; eauto.
Qed.

End cli_more.
(** * The claims *)

(** ** The comparator *)

(** The positions that are compared lie inside both strings. *)
Lemma compared_lt p1 p2 i :
  compared p1 p2 i = true -> (i < len p1)%nat /\ (i < len p2)%nat.
Proof.
  unfold compared. intros H. apply andb_true_iff in H as [_ H].
  apply both_digits_lt, H.
Qed.

(** C4, as stated, fails: on "b1" and "a2" the first position with two digits
    is 1 and its runs are 1 < 2, but the comparison is decided before, by
    'b' > 'a', and returns 1; on "99999999999" and "1" the runs at position 0
    differ and the comparison panics instead of returning. *)
Lemma libcmp_numeric_counterexample :
  (first_both_digits "b1" "a2" 1 /\
   run_value (slice_from "b1" 1) < run_value (slice_from "a2" 1) /\
   _dl_cache_libcmp "b1" "a2" = Ret 1) /\
  (first_both_digits "99999999999" "1" 0 /\
   run_value (slice_from "99999999999" 0) <> run_value (slice_from "1" 0) /\
   _dl_cache_libcmp "99999999999" "1" = Panics (PanicNumError ErrRange)).
Proof.
  split; split.
  - split; [reflexivity|]. intros j Hj. assert (j = 0%nat) as -> by lia. reflexivity.
  - split; [reflexivity | vm_compute; reflexivity].
  - split; [reflexivity|]. intros j Hj. lia.
  - split; [vm_compute; discriminate | vm_compute; reflexivity].
Qed.

(** C4, amended: at the first position where both strings hold a decimal
    digit, when the strings agree on every earlier position and both maximal
    digit runs that start there are accepted by [parseLeadingNum] (value below
    2^31, no Unicode digit right after the run), the comparator compares the
    runs as base-10 integers and an inequality decides the result: -1 when the
    first is smaller, 1 when it is larger.  In particular "a-1.so" is below
    "a-10.so". *)
Theorem libcmp_numeric_runs :
  (forall p1 p2 i,
     first_both_digits p1 p2 i ->
     slice_to p1 i = slice_to p2 i ->
     int32_run (slice_from p1 i) = true ->
     int32_run (slice_from p2 i) = true ->
     (run_value (slice_from p1 i) < run_value (slice_from p2 i) ->
        _dl_cache_libcmp p1 p2 = Ret (-1)) /\
     (run_value (slice_from p2 i) < run_value (slice_from p1 i) ->
        _dl_cache_libcmp p1 p2 = Ret 1)) /\
  _dl_cache_libcmp "a-1.so" "a-10.so" = Ret (-1) /\
  _dl_cache_libcmp "a-10.so" "a-1.so" = Ret 1.
Proof.
  split; [|split; vm_compute; reflexivity].
  intros p1 p2 i Hfirst Hpre R1 R2. split; intros Hlt.
  - rewrite (libcmp_first_digits i p1 p2) by (assumption || lia).
    destruct (Z.ltb_spec (run_value (slice_from p1 i)) (run_value (slice_from p2 i)));
      [reflexivity | lia].
  - rewrite (libcmp_first_digits i p1 p2) by (assumption || lia).
    destruct (Z.ltb_spec (run_value (slice_from p1 i)) (run_value (slice_from p2 i)));
      [lia | reflexivity].
Qed.

Lemma libcmp_numeric_runs_witness :
  _dl_cache_libcmp "lib-9.so" "lib-10.so" = Ret (-1) /\
  _dl_cache_libcmp "lib-10.so" "lib-9.so" = Ret 1.
Proof.
  assert (F1 : first_both_digits "lib-9.so" "lib-10.so" 4).
  { split; [reflexivity|]. intros j Hj.
    destruct j as [|[|[|[|j]]]]; try reflexivity. lia. }
  assert (F2 : first_both_digits "lib-10.so" "lib-9.so" 4).
  { split; [reflexivity|]. intros j Hj.
    destruct j as [|[|[|[|j]]]]; try reflexivity. lia. }
  split.
  - apply (proj1 (proj1 libcmp_numeric_runs "lib-9.so" "lib-10.so" 4%nat F1
                    eq_refl eq_refl eq_refl)).
    vm_compute. reflexivity.
  - apply (proj2 (proj1 libcmp_numeric_runs "lib-10.so" "lib-9.so" 4%nat F2
                    eq_refl eq_refl eq_refl)).
    vm_compute. reflexivity.
Defined.

(** C5, as stated, fails: compared with itself, a string whose digit run does
    not fit 32 bits makes the comparator panic, it does not return 0. *)
Lemma libcmp_antisymmetric_counterexample :
  _dl_cache_libcmp "99999999999" "99999999999" = Panics (PanicNumError ErrRange).
Proof. vm_compute. reflexivity. Qed.

(** C5, amended: the comparator is antisymmetric and reflexive wherever it
    returns.  For every pair of strings, [cmp(a,b)] returns [r] exactly when
    [cmp(b,a)] returns [-r], and one call panics exactly when the other does;
    for every string, [cmp(a,a)] returns 0 unless it panics, and it returns 0
    when the digit runs it compares are accepted by [parseLeadingNum]. *)
Theorem libcmp_antisymmetric :
  forall a b,
    (forall r, _dl_cache_libcmp a b = Ret r <-> _dl_cache_libcmp b a = Ret (- r)) /\
    ((exists e, _dl_cache_libcmp a b = Panics (PanicNumError e)) <->
     (exists e, _dl_cache_libcmp b a = Panics (PanicNumError e))) /\
    (_dl_cache_libcmp a a = Ret 0 \/
     exists e, _dl_cache_libcmp a a = Panics (PanicNumError e)) /\
    ((forall i, compared a a i = true -> int32_run (slice_from a i) = true) ->
     _dl_cache_libcmp a a = Ret 0).
Proof.
  intros a b. split; [intros r; apply libcmp_swap|].
  split; [|split].
  - assert (Hdir : forall x y,
      (exists e, _dl_cache_libcmp x y = Panics (PanicNumError e)) ->
      exists e, _dl_cache_libcmp y x = Panics (PanicNumError e)).
    { intros x y [e He].
      destruct (libcmp_outcome y x) as [[r Hr]|H]; [|exact H].
      apply libcmp_swap_ret in Hr. congruence. }
    split; apply Hdir.
  - apply libcmp_refl.
  - intros Hruns.
    destruct (libcmp_returns a a) as [r Hr].
    { intros i Hi. split; apply Hruns, Hi. }
    destruct (libcmp_refl a) as [H0|[e He]]; [exact H0 | congruence].
Qed.

Lemma libcmp_antisymmetric_witness :
  _dl_cache_libcmp "a-10.so" "a-10.so" = Ret 0.
Proof.
  apply (proj2 (proj2 (proj2 (libcmp_antisymmetric "a-10.so" "a-10.so")))).
  intros i Hi. apply compared_lt in Hi as [Hi _].
  destruct i as [|[|[|[|[|[|[|i]]]]]]]; try reflexivity.
  cbn in Hi. lia.
Defined.

(** C10, as stated, fails: the digit run of "1" followed by U+0660 has the
    value 1, as has the run of "1", and the comparator panics on the pair,
    with the syntax error of [strconv.ParseInt]. *)
Lemma libcmp_bounded_counterexample :
  (forall i, compared one_arabic_zero "1" i = true ->
     run_value (slice_from one_arabic_zero i) < 2 ^ 31 /\
     run_value (slice_from "1" i) < 2 ^ 31) /\
  _dl_cache_libcmp one_arabic_zero "1" = Panics (PanicNumError ErrSyntax).
Proof.
  split; [|vm_compute; reflexivity].
  intros i Hi. apply compared_lt in Hi as [_ Hi].
  destruct i as [|i]; [|cbn in Hi; lia].
  split; vm_compute; reflexivity.
Qed.

(** C10, amended: the comparator is total only on the digit runs that
    [parseLeadingNum] accepts.  For every pair of strings all of whose maximal
    digit runs reached during the comparison have a value within the signed
    32-bit range and are not directly followed by a decimal digit outside
    ASCII, it returns -1, 0 or 1; if the value of a compared run is beyond
    that range it panics, and so does every [Lookup] whose bisection makes
    such a comparison. *)
Theorem libcmp_total_on_int32_runs :
  (forall p1 p2,
     (forall i, compared p1 p2 i = true ->
        int32_run (slice_from p1 i) = true /\ int32_run (slice_from p2 i) = true) ->
     exists r, _dl_cache_libcmp p1 p2 = Ret r /\ (r = -1 \/ r = 0 \/ r = 1)) /\
  (forall p1 p2 i,
     compared p1 p2 i = true ->
     2 ^ 31 <= run_value (slice_from p1 i) \/ 2 ^ 31 <= run_value (slice_from p2 i) ->
     exists e, _dl_cache_libcmp p1 p2 = Panics (PanicNumError e)) /\
  (forall h dc library e p,
     lookup_override h library = None ->
     probed (FileEntries dc) library 0 (Z.of_nat (length (FileEntries dc))) e ->
     _dl_cache_libcmp (Key e) library = Panics p ->
     Lookup h dc library = Panics p).
Proof.
  split; [|split].
  - intros p1 p2 H. destruct (libcmp_returns p1 p2 H) as [r Hr].
    exists r. split; [exact Hr|]. eapply libcmp_range, Hr.
  - intros p1 p2 i Hc Hbig. apply (libcmp_panics i p1 p2 Hc).
    unfold int32_run.
    destruct Hbig as [Hbig|Hbig]; [left|right];
      apply andb_false_iff; right; apply Z.ltb_ge; exact Hbig.
  - intros h dc library e p Henv Hp Hpanic. unfold Lookup.
    rewrite Henv.
    rewrite (bisect_probed_panics _ _ _ _ _ _ Hp Hpanic) by lia.
    reflexivity.
Qed.

Lemma libcmp_total_on_int32_runs_witness :
  (exists r, _dl_cache_libcmp "a-1.so" "a-10.so" = Ret r /\ (r = -1 \/ r = 0 \/ r = 1)) /\
  (exists e, _dl_cache_libcmp "99999999999" "1" = Panics (PanicNumError e)) /\
  Lookup bare_host cache_big_run "1" = Panics (PanicNumError ErrRange).
Proof.
  destruct libcmp_total_on_int32_runs as (H1 & H2 & H3).
  split; [|split].
  - apply H1. intros i Hi. apply compared_lt in Hi as [Hi _].
    destruct i as [|[|[|[|[|[|i]]]]]]; try (split; reflexivity).
    cbn in Hi. lia.
  - apply (H2 "99999999999" "1" 0%nat); [reflexivity|].
    left. vm_compute. discriminate.
  - apply (H3 bare_host cache_big_run "1" (entry 0x300 "99999999999" "/lib/big"));
      [reflexivity | | vm_compute; reflexivity].
    apply probed_here; [reflexivity | reflexivity].
Defined.

(** ** The lookup *)

Lemma lookup_override_unset h library :
  Getenv h "LD_LIBRARY_PATH" = "" -> lookup_override h library = None.
Proof. intros H. unfold lookup_override. rewrite H. reflexivity. Qed.

(** C1, as stated, fails: a key whose only entry is not flagged 64-bit makes
    [Lookup] panic in its fallback; on a cache in ascending order the
    bisection goes the wrong way and [Lookup] panics again; in a cache in
    descending order with the 32-bit entry of a key before the 64-bit one,
    [Lookup] panics (three entries) or returns the path of the 32-bit entry
    (twenty-one entries). *)
Lemma lookup_sorted_counterexample :
  (sorted_desc (FileEntries cache_32bit_only) = true /\
   Lookup bare_host cache_32bit_only "libc.so.6" = Panics PanicIndexOutOfRange) /\
  (_dl_cache_libcmp "a" "b" = Ret (-1) /\
   Lookup bare_host cache_ascending "a" = Panics PanicIndexOutOfRange) /\
  (sorted_desc (FileEntries cache_32bit_first) = true /\
   entry 0x300 "a" "/lib64/a" ∈ FileEntries cache_32bit_first /\
   Lookup bare_host cache_32bit_first "a" = Panics PanicIndexOutOfRange) /\
  (sorted_desc (FileEntries cache_21) = true /\
   entry 0x300 "m" "/lib64/m" ∈ FileEntries cache_21 /\
   Lookup bare_host cache_21 "m" = Ret ("/lib32/m", true)).
Proof.
  split; [|split; [|split]].
  - split; vm_compute; reflexivity.
  - split; vm_compute; reflexivity.
  - split; [vm_compute; reflexivity|]. split; [|vm_compute; reflexivity].
    apply list_elem_of_lookup. exists 2%nat. reflexivity.
  - split; [vm_compute; reflexivity|]. split; [|vm_compute; reflexivity].
    apply list_elem_of_lookup. exists 11%nat. reflexivity.
Qed.

(** C1, amended: for every cache whose entries are sorted by the comparator
    in descending order (the order the bisection follows), with the 64-bit
    entries of a key before its other entries, and with no override variable
    set, [Lookup] of a key that has a 64-bit entry returns [(path, true)]
    where [path] is the value of a 64-bit entry of exactly that key. *)
Theorem lookup_sorted_finds_64bit :
  forall h dc library e,
    Getenv h "LD_LIBRARY_PATH" = "" ->
    sorted_desc (FileEntries dc) = true ->
    arch_first (FileEntries dc) = true ->
    e ∈ FileEntries dc -> Key e = library -> Is64 e = true ->
    exists e', e' ∈ FileEntries dc /\ Key e' = library /\ Is64 e' = true /\
               Lookup h dc library = Ret (Value e', true).
Proof.
  intros h dc library e Henv Hs Ha Hin Hkey H64.
  apply list_elem_of_lookup in Hin as [t Ht].
  pose proof (lookup_lt_Some _ _ _ Ht) as Hlt.
  destruct (bisect_finds (FileEntries dc) library t e Hs Ha Ht Hkey H64
              (length (FileEntries dc)) 0 (Z.of_nat (length (FileEntries dc))))
    as (e' & Hin' & Hkey' & H64' & Hb); try lia.
  exists e'. split_and!; try assumption.
  unfold Lookup. rewrite lookup_override_unset by assumption.
  rewrite Hb. reflexivity.
Qed.

Lemma lookup_sorted_finds_64bit_witness :
  exists e', e' ∈ FileEntries cache_64bit_first /\ Key e' = "a" /\ Is64 e' = true /\
             Lookup bare_host cache_64bit_first "a" = Ret (Value e', true).
Proof.
  apply (lookup_sorted_finds_64bit bare_host cache_64bit_first "a"
           (entry 0x300 "a" "/lib64/a")); try reflexivity.
  apply list_elem_of_lookup. exists 1%nat. reflexivity.
Defined.

(** C9: when the bisection finds no entry (the override of the environment
    having given nothing) and the fallback finds its first exact match at
    index [i], [Lookup] panics with an index out of range, while logging the
    neighbours, if [i < 10] or [i + 10] is greater than the number of entries,
    and returns the value of the match only when it lies at least ten entries
    away from both ends. *)
Theorem lookup_fallback_panics :
  forall h dc library i,
    lookup_override h library = None ->
    bisect (FileEntries dc) library (length (FileEntries dc)) 0
           (Z.of_nat (length (FileEntries dc))) = Ret None ->
    first_match (FileEntries dc) library = Some i ->
    ((i < 10 \/ length (FileEntries dc) < i + 10)%nat ->
       Lookup h dc library = Panics PanicIndexOutOfRange) /\
    ((10 <= i /\ i + 10 <= length (FileEntries dc))%nat ->
       exists e, FileEntries dc !! i = Some e /\ Key e = library /\
                 Lookup h dc library = Ret (Value e, true)).
Proof.
  intros h dc library i Henv Hb Hfirst.
  pose proof (first_match_spec (FileEntries dc) library) as Hspec.
  rewrite Hfirst in Hspec. destruct Hspec as [(e & He & Hkey) _].
  assert (HL : Lookup h dc library =
               (_ ← log_neighbours (FileEntries dc) 20 (Z.of_nat i - 10);
                Ret (Value e, true))).
  { unfold Lookup. rewrite Henv, Hb. cbn [mbind outcome_bind].
    rewrite slow_scan_spec, Hfirst, He. reflexivity. }
  rewrite HL. split.
  - intros Hi. rewrite log_neighbours_panic by lia. reflexivity.
  - intros Hi. exists e. split_and!; try assumption.
    rewrite log_neighbours_ok by lia. reflexivity.
Qed.

Lemma lookup_fallback_panics_witness :
  Lookup bare_host cache_32bit_only "libc.so.6" = Panics PanicIndexOutOfRange /\
  exists e, FileEntries cache_21 !! 10%nat = Some e /\ Key e = "m" /\
            Lookup bare_host cache_21 "m" = Ret (Value e, true).
Proof.
  split.
  - apply (proj1 (lookup_fallback_panics bare_host cache_32bit_only "libc.so.6" 0
                    eq_refl eq_refl eq_refl)).
    left. lia.
  - apply (proj2 (lookup_fallback_panics bare_host cache_21 "m" 10
                    eq_refl eq_refl eq_refl)).
    cbn. lia.
Defined.

(** ** The decoder *)

(** C6, as stated, fails: on a file whose record holds a value offset equal
    to the length of the string table, [ReadDLCache] returns no error at all,
    it panics on a slice expression. *)
Lemma ReadDLCache_offset_counterexample :
  offset_out_of_range 5 (record_bytes 0x300 0 5) = true /\
  ReadDLCache file_bad_offset = Panics PanicSliceBounds.
Proof. split; vm_compute; reflexivity. Qed.

(** C6, amended: for every input made of an accepted header, the entry count,
    the records it announces and a string table, in which a record holds a
    key offset or a value offset at or beyond the length of the string table,
    [ReadDLCache] does not return: it panics with slice bounds out of range
    (the code has no bounds check and no error for it). *)
Theorem ReadDLCache_offset_out_of_range_panics :
  forall hd cnt recs table,
    good_header hd = true ->
    length cnt = 4%nat ->
    length recs = Z.to_nat (le_uint cnt) ->
    Forall (fun rec => length rec = 12%nat) recs ->
    Exists (fun rec => offset_out_of_range (length table) rec = true) recs ->
    ReadDLCache (hd ++ cnt ++ concat recs ++ table) = Panics PanicSliceBounds.
Proof.
  intros hd cnt recs table Hhd Hcnt Hn Hall Hbad.
  rewrite ReadDLCache_header by assumption.
  rewrite readFull_app by (assumption || lia).
  rewrite <- Hn, read_entries_complete by assumption.
  rewrite build_entries_out_of_range; [reflexivity|].
  apply Exists_fmap. eapply Exists_impl; [exact Hbad|].
  intros rec Hrec. unfold offset_out_of_range in Hrec.
  apply orb_true_iff in Hrec. rewrite !Z.leb_le in Hrec. exact Hrec.
Qed.

Lemma ReadDLCache_offset_out_of_range_panics_witness :
  ReadDLCache file_bad_offset = Panics PanicSliceBounds.
Proof.
  apply (ReadDLCache_offset_out_of_range_panics
           (list_ascii_of_string cacheMagic) (le32 1)
           [record_bytes 0x300 0 5]
           (list_ascii_of_string "a" ++ [ascii_of_nat 0]
            ++ list_ascii_of_string "/a" ++ [ascii_of_nat 0])%list);
    try reflexivity.
  - apply Forall_cons. split; [reflexivity | apply Forall_nil_2].
  - apply Exists_cons_hd. reflexivity.
Defined.

(** C7, as stated, fails: a stream that ends within the magic header, be it
    empty or cut after "ld.so-1.7", gets the error of a wrong magic, not the
    error of a truncated stream; and a stream that ends inside the last
    string of its table makes [ReadDLCache] panic. *)
Lemma ReadDLCache_truncated_counterexample :
  ReadDLCache [] = Ret (inl ErrMagic) /\
  ReadDLCache (list_ascii_of_string "ld.so-1.7") = Ret (inl ErrMagic) /\
  is_truncated ErrMagic = false /\
  ReadDLCache file_cut_string = Panics PanicSliceBounds.
Proof. split_and!; vm_compute; reflexivity. Qed.

(** C7, amended: for every input stream that holds an accepted header and
    ends before the 4-byte entry count or before the last of the N 12-byte
    records is complete, [ReadDLCache] returns the end-of-stream error of the
    read ([io.EOF] or [io.ErrUnexpectedEOF]). *)
Theorem ReadDLCache_truncated :
  forall hd rest,
    good_header hd = true ->
    ((length rest < 4)%nat ->
       exists e, is_truncated e = true /\ ReadDLCache (hd ++ rest) = Ret (inl e)) /\
    (forall cnt body,
       rest = (cnt ++ body)%list -> length cnt = 4%nat ->
       (length body < 12 * Z.to_nat (le_uint cnt))%nat ->
       exists e, is_truncated e = true /\ ReadDLCache (hd ++ rest) = Ret (inl e)).
Proof.
  intros hd rest Hhd. rewrite ReadDLCache_header by assumption. split.
  - intros Hlen. destruct rest as [|b rest].
    + rewrite readFull_nil. exists EOF. auto.
    + rewrite readFull_short by (congruence || assumption).
      exists ErrUnexpectedEOF. auto.
  - intros cnt body -> Hcnt Hlen.
    rewrite readFull_app by (assumption || lia).
    destruct (read_entries_truncated _ body Hlen) as (e & He & Hr).
    destruct (read_entries (Z.to_nat (le_uint cnt)) body) as [[err|es] r'];
      cbn [fst] in Hr; [|discriminate].
    injection Hr as ->. exists e. auto.
Qed.

Lemma ReadDLCache_truncated_witness :
  (exists e, is_truncated e = true /\
     ReadDLCache (list_ascii_of_string cacheMagic ++ le32 2 ++ record_bytes 0x300 0 2)
     = Ret (inl e)) /\
  (exists e, is_truncated e = true /\
     ReadDLCache (list_ascii_of_string cacheMagic ++ [ascii_of_nat 1]) = Ret (inl e)).
Proof.
  split.
  - apply (proj2 (ReadDLCache_truncated (list_ascii_of_string cacheMagic)
                    (le32 2 ++ record_bytes 0x300 0 2) eq_refl)
                 (le32 2) (record_bytes 0x300 0 2) eq_refl eq_refl).
    vm_compute. lia.
  - apply (proj1 (ReadDLCache_truncated (list_ascii_of_string cacheMagic)
                    [ascii_of_nat 1] eq_refl)).
    cbn. lia.
Defined.

(** ** The closure of the imports *)

(** C2, as stated, fails: on the cycle the resolver records the import "A" of
    "B" before it finds "A" already seen, so that the start file is part of
    the set it returns. *)
Lemma closure_cycle_counterexample :
  exists s, recursiveImports (graph_host cycle) empty_cache 3 "A" = Ret (s, None) /\
            "A" ∈ s /\ s <> {[ "B" ]}.
Proof.
  exists {[ "A"; "B" ]}. split; [vm_compute; reflexivity|].
  split; [set_solver|].
  intros H. assert (HA : "A" ∈ ({[ "A"; "B" ]} : gset string)) by set_solver.
  rewrite H in HA. apply elem_of_singleton in HA. discriminate.
Qed.

(** C2, amended: on the two-node cycle in which the start file A imports B
    and B imports A, the closure of A terminates (a recursion depth of 3 is
    enough) and returns exactly the set {A, B}: A is in it because B imports
    it by name. *)
Theorem closure_cycle :
  forall dc fuel, (3 <= fuel)%nat ->
    recursiveImports (graph_host cycle) dc fuel "A" = Ret ({[ "A"; "B" ]}, None).
Proof.
  intros dc fuel Hfuel.
  replace fuel with (3 + (fuel - 3))%nat by lia.
  apply recursiveImports_fuel_mono. vm_compute. reflexivity.
Qed.

Lemma closure_cycle_witness :
  recursiveImports (graph_host cycle) empty_cache 3 "A" = Ret ({[ "A"; "B" ]}, None).
Proof. apply closure_cycle. lia. Defined.

(** C3: on every dependency graph the resolver calls [readImports] at most
    once with a name; on the diamond A -> B, A -> C, B -> D, C -> D it reads
    the imports of D exactly once and the closure of A is {B, C, D}. *)
Theorem closure_reads_once :
  (forall h dc fuel start,
     NoDup (reads (visit h dc fuel start initial).2)) /\
  (forall dc fuel, (3 <= fuel)%nat ->
     recursiveImports (graph_host diamond) dc fuel "A"
       = Ret ({[ "B"; "C"; "D" ]}, None) /\
     reads (visit (graph_host diamond) dc fuel "A" initial).2 = ["A"; "B"; "D"; "C"] /\
     count_occ string_dec (reads (visit (graph_host diamond) dc fuel "A" initial).2) "D"
       = 1%nat).
Proof.
  split.
  - intros h dc fuel start. apply visit_inv.
    split; [apply NoDup_nil_2|]. intros f Hf. inversion Hf.
  - intros dc fuel Hfuel.
    replace fuel with (3 + (fuel - 3))%nat by lia.
    split.
    + apply recursiveImports_fuel_mono. vm_compute. reflexivity.
    + rewrite visit_fuel_more by (vm_compute; discriminate).
      split; vm_compute; reflexivity.
Qed.

Lemma closure_reads_once_witness :
  recursiveImports (graph_host diamond) empty_cache 3 "A"
    = Ret ({[ "B"; "C"; "D" ]}, None) /\
  reads (visit (graph_host diamond) empty_cache 3 "A" initial).2 = ["A"; "B"; "D"; "C"] /\
  count_occ string_dec (reads (visit (graph_host diamond) empty_cache 3 "A" initial).2) "D"
    = 1%nat.
Proof. apply (proj2 closure_reads_once). lia. Defined.

(** The three ways in which [readImports] fails on a name. *)
Lemma readImports_unreadable h dc filename err :
  Open h filename = inl err -> IsNotExist err = false ->
  readImports h dc filename = Ret (inl err).
Proof.
  intros Ho Hn. unfold readImports. rewrite Ho, Hn. reflexivity.
Qed.

Lemma readImports_unresolved h dc filename err p :
  Open h filename = inl err -> IsNotExist err = true ->
  Lookup h dc filename = Ret (p, false) ->
  readImports h dc filename = Ret (inl err).
Proof.
  intros Ho Hn Hl. unfold readImports. rewrite Ho, Hn, Hl. reflexivity.
Qed.

Lemma readImports_unrecognized h dc filename fd err :
  Open h filename = inr fd -> elf_NewFile fd = inl err ->
  readImports h dc filename = Ret (inl err).
Proof.
  intros Ho He. unfold readImports. rewrite Ho. cbn [mbind outcome_bind].
  rewrite He. reflexivity.
Qed.

(** C8, as stated, fails: when the import "B" of "A" does not exist,
    [recursiveImports] returns the error together with the set {B} it had
    built so far, not with an empty set. *)
Lemma closure_partial_counterexample :
  recursiveImports (graph_host dangling) empty_cache 3 "A"
    = Ret ({[ "B" ]}, Some (PathError "open" "B" true)) /\
  ({[ "B" ]} : gset string) <> ∅.
Proof.
  split; [vm_compute; reflexivity|].
  intros H. assert (HB : "B" ∈ ({[ "B" ]} : gset string)) by set_solver.
  rewrite H in HB. set_solver.
Qed.

(** C8, amended: for every start file, if reading a reached node fails (the
    file is unreadable, its format is not recognized, or its name is not
    resolved by the lookup), [recursiveImports] returns the error of that
    node, so that the resolution fails as a whole, and the failing read is the
    last one: every read before it gave its imports.  The set it returns next
    to the error holds what was gathered before the failure: apart from the
    start file, exactly the names read before the failure and the failing
    name itself, each of them an import declared by a file read before the
    failure.  It is the caller that drops it: [main], once its argument is
    resolved to the start file, ends with [log.Fatal] on the error and
    archives nothing. *)
Theorem closure_fails_with_error :
  forall h dc fuel start f e,
    f ∈ reads (visit h dc fuel start initial).2 ->
    readImports h dc f = Ret (inl e) ->
    exists gathered l,
      recursiveImports h dc fuel start = Ret (gathered, Some e) /\
      reads (visit h dc fuel start initial).2 = (l ++ [f])%list /\
      (forall g, g ∈ l -> exists libs, readImports h dc g = Ret (inr libs)) /\
      (forall d, d <> start -> (d ∈ gathered <-> d ∈ l \/ d = f)) /\
      (forall d, d ∈ gathered ->
         exists g libs, g ∈ l /\ readImports h dc g = Ret (inr libs) /\ d ∈ libs) /\
      (forall ph iter arg,
         resolveBinary h ph dc arg = Ret (start, None) ->
         main_plan h ph dc fuel iter arg = Ret (FatalImports e)).
Proof.
  intros h dc fuel start f e Hf He.
  pose proof (visit_error h dc fuel start f e Hf He) as Hs.
  pose proof (visit_shape h dc fuel start initial) as Hshape.
  specialize (Hshape ltac:(intros x Hx; inversion Hx)).
  pose proof (visit_panic_shape h dc fuel start initial) as Hpanic.
  specialize (Hpanic ltac:(intros x p Hx; inversion Hx)).
  destruct (visit_initial_kept h dc start fuel) as ((T1 & T2 & T3) & _ & Hset).
  assert (Hrun : recursiveImports h dc fuel start
                 = Ret (imports (visit h dc fuel start initial).2, Some e)).
  { unfold recursiveImports.
    destruct (visit h dc fuel start initial) as [s st]; cbn [fst snd] in *.
    subst s. reflexivity. }
  destruct (visit h dc fuel start initial) as [s st]; cbn [fst snd] in *.
  subst s. cbn in Hshape, Hpanic.
  destruct Hshape as (l & f' & Hreads & Hok & He').
  assert (Hlast : f = f').
  { rewrite Hreads in Hf. apply elem_of_app in Hf as [Hf|Hf].
    - exfalso. exact (Hok f Hf e He).
    - apply list_elem_of_singleton in Hf. exact Hf. }
  subst f'.
  specialize (Hset ltac:(discriminate)).
  assert (Hin : forall x, x ∈ reads st <-> x ∈ l \/ x = f).
  { intros x. rewrite Hreads, elem_of_app, list_elem_of_singleton. tauto. }
  exists (imports st), l. split_and!.
  - exact Hrun.
  - exact Hreads.
  - intros g Hg.
    destruct (readImports h dc g) as [[err|libs]|p|] eqn:Hread.
    + exfalso. exact (Hok g Hg err Hread).
    + eauto.
    + exfalso. apply (Hpanic g p); [apply Hin; left; exact Hg | exact Hread].
    + exfalso. exact (readImports_not_starved h dc g Hread).
  - intros d Hd. rewrite <- Hin, <- T1. split; [apply Hset|].
    intros Hseen. destruct (T2 d Hseen) as [->|Hi]; [contradiction | exact Hi].
  - intros d Hd. destruct (T3 d Hd) as (g & libs & Hg & Hread & Hl).
    exists g, libs. split_and!; [|exact Hread | exact Hl].
    apply Hin in Hg as [Hg | ->]; [exact Hg | congruence].
  - intros ph iter arg Hres. unfold main_plan. rewrite Hres.
    cbn [mbind outcome_bind]. rewrite Hrun. reflexivity.
Qed.

Lemma closure_fails_with_error_witness :
  exists gathered l,
    recursiveImports (graph_host dangling) empty_cache 3 "A"
    = Ret (gathered, Some (PathError "open" "B" true)) /\
    reads (visit (graph_host dangling) empty_cache 3 "A" initial).2 = (l ++ ["B"])%list /\
    (forall g, g ∈ l ->
       exists libs, readImports (graph_host dangling) empty_cache g = Ret (inr libs)) /\
    (forall d, d <> "A" -> (d ∈ gathered <-> d ∈ l \/ d = "B")) /\
    (forall d, d ∈ gathered ->
       exists g libs, g ∈ l /\
         readImports (graph_host dangling) empty_cache g = Ret (inr libs) /\ d ∈ libs) /\
    (forall ph iter arg,
       resolveBinary (graph_host dangling) ph empty_cache arg = Ret ("A", None) ->
       main_plan (graph_host dangling) ph empty_cache 3 iter arg
       = Ret (FatalImports (PathError "open" "B" true))).
Proof.
  apply (closure_fails_with_error (graph_host dangling) empty_cache 3 "A" "B").
  - vm_compute. apply list_elem_of_lookup. exists 1%nat. reflexivity.
  - apply (readImports_unresolved _ _ _ _ ""); reflexivity.
Defined.
(** ** The examples of the test file and of the documentation *)

(** The calls of [Test_dl_cache_libcmp]. *)
Example libcmp_tests :
  _dl_cache_libcmp "a.so" "b.so" = Ret (-1) /\
  _dl_cache_libcmp "b.so" "a.so" = Ret 1 /\
  _dl_cache_libcmp "c.so" "c.so" = Ret 0 /\
  _dl_cache_libcmp "a-1.so" "a-2.so" = Ret (-1) /\
  _dl_cache_libcmp "a-1.so" "a-10.so" = Ret (-1) /\
  _dl_cache_libcmp "a-10.so" "a-1.so" = Ret 1 /\
  _dl_cache_libcmp "a-10.so" "a-10.so" = Ret 0 /\
  _dl_cache_libcmp "libm.so.6" "libm.so" = Ret 1.
Proof. split_and!; vm_compute; reflexivity. Qed.

(** The largest run that is accepted, and the smallest that is not. *)
Example libcmp_int32_edge :
  _dl_cache_libcmp "lib.so.2147483647" "lib.so.2147483646" = Ret 1 /\
  _dl_cache_libcmp "lib.so.2147483648" "lib.so.2147483647"
    = Panics (PanicNumError ErrRange).
Proof. split; vm_compute; reflexivity. Qed.

(** A key that is absent is not found. *)
Example lookup_absent :
  Lookup bare_host cache_64bit_first "zz" = Ret ("", false).
Proof. vm_compute. reflexivity. Qed.

(** A file of one record is decoded to its entry. *)
Example ReadDLCache_one_entry :
  ReadDLCache (list_ascii_of_string cacheMagic ++ le32 1 ++ record_bytes 0x300 0 10
               ++ list_ascii_of_string "libc.so.6" ++ [ascii_of_nat 0]
               ++ list_ascii_of_string "/lib/libc.so.6" ++ [ascii_of_nat 0])
  = Ret (inr cache_libc).
Proof. vm_compute. reflexivity. Qed.

(** End to end: the program imports "libc.so.6", which the cache resolves. *)
Example end_to_end :
  recursiveImports host_libc cache_libc 3 "prog" = Ret ({[ "libc.so.6" ]}, None) /\
  Lookup host_libc cache_libc "libc.so.6" = Ret ("/lib/libc.so.6", true).
Proof. split; vm_compute; reflexivity. Qed.
(** * Further properties *)

(** ** The comparator *)

(** X1: the comparator returns 0 on identical strings only: two different
    names never compare equal, whatever their digits. *)
Theorem libcmp_zero_only_on_equal :
  forall a b, _dl_cache_libcmp a b = Ret 0 -> a = b.
Proof. intros a b. apply libcmp_zero_eq. Qed.

Lemma libcmp_zero_only_on_equal_witness : "a-10.so" = "a-10.so".
Proof. apply libcmp_zero_only_on_equal. vm_compute. reflexivity. Defined.

(** X2: on two strings without decimal digits the comparator does not panic
    and is the lexicographic order of the bytes, a proper prefix coming
    first. *)
Theorem libcmp_lexicographic_without_digits :
  forall a b,
    digit_free a = true -> digit_free b = true ->
    _dl_cache_libcmp a b = Ret (sign (String.compare a b)).
Proof. intros a b. apply libcmp_digit_free. Qed.

Lemma libcmp_lexicographic_without_digits_witness :
  _dl_cache_libcmp "libm.so" "libc.so" = Ret (sign (String.compare "libm.so" "libc.so")).
Proof. apply libcmp_lexicographic_without_digits; reflexivity. Defined.

(** X3: a name extended by a non-empty suffix sorts after the name, as
    "libm.so.6" after "libm.so": the comparator returns 1 on them, and -1
    with the arguments swapped, unless it panics on a digit run. *)
Theorem libcmp_suffix_sorts_after :
  forall s t,
    t <> "" ->
    (_dl_cache_libcmp (s ++ t) s = Ret 1 /\ _dl_cache_libcmp s (s ++ t) = Ret (-1)) \/
    (exists e, _dl_cache_libcmp (s ++ t) s = Panics (PanicNumError e)).
Proof.
  intros s t Ht. destruct (libcmp_extension s t Ht) as [H1|He]; [left|right; exact He].
  split; [exact H1|]. apply libcmp_swap_ret in H1. exact H1.
Qed.

Lemma libcmp_suffix_sorts_after_witness :
  (_dl_cache_libcmp "libm.so.6" "libm.so" = Ret 1 /\
   _dl_cache_libcmp "libm.so" "libm.so.6" = Ret (-1)) \/
  (exists e, _dl_cache_libcmp "libm.so.6" "libm.so" = Panics (PanicNumError e)).
Proof. apply (libcmp_suffix_sorts_after "libm.so" ".6"). discriminate. Defined.

(** X4: the comparator panics only in [parseLeadingNum], never on an index
    out of range, and a comparison in which one of the two strings has no
    decimal digit always returns. *)
Theorem libcmp_panics_only_on_digits :
  forall a b,
    ((exists r, _dl_cache_libcmp a b = Ret r) \/
     (exists e, _dl_cache_libcmp a b = Panics (PanicNumError e))) /\
    (digit_free a = true \/ digit_free b = true ->
     exists r, _dl_cache_libcmp a b = Ret r).
Proof.
  intros a b. split; [apply libcmp_outcome | apply libcmp_one_digit_free].
Qed.

Lemma libcmp_panics_only_on_digits_witness :
  exists r, _dl_cache_libcmp "libc.so" "lib99999999999.so" = Ret r.
Proof.
  apply (proj2 (libcmp_panics_only_on_digits "libc.so" "lib99999999999.so")).
  left. reflexivity.
Defined.



(** ** The closure of the imports *)

(** X5: when [recursiveImports] returns without an error, the set it returns
    is exactly the set of the names reached from the start file by one or
    more imports; the start file itself is in it exactly when it lies on a
    cycle of imports. *)
Theorem closure_is_reachable_set :
  forall h dc fuel start s,
    recursiveImports h dc fuel start = Ret (s, None) ->
    (forall d, d ∈ s <-> reach h dc start d) /\
    (start ∈ s <-> reach h dc start start).
Proof.
  intros h dc fuel start s Hrun.
  pose proof (recursiveImports_reach h dc fuel start s Hrun) as Hall.
  split; [exact Hall | apply Hall].
Qed.

Lemma closure_is_reachable_set_witness :
  reach (graph_host diamond) empty_cache "A" "D" /\
  ~ reach (graph_host diamond) empty_cache "A" "A".
Proof.
  assert (Hrun : recursiveImports (graph_host diamond) empty_cache 3 "A"
                 = Ret (({[ "B"; "C"; "D" ]} : gset string), None))
    by (vm_compute; reflexivity).
  destruct (closure_is_reachable_set _ _ _ _ _ Hrun) as [Hall Hstart].
  split.
  - apply Hall. set_solver.
  - intros Hr. apply Hstart in Hr. set_solver.
Defined.

(** X6: whatever the way it returns, with an error or without, every name
    in the set that [recursiveImports] returns is reached from the start file
    by one or more imports. *)
Theorem closure_partial_sound :
  forall h dc fuel start s err,
    recursiveImports h dc fuel start = Ret (s, err) ->
    forall d, d ∈ s -> reach h dc start d.
Proof.
  intros h dc fuel start s err Hrun d Hd.
  unfold recursiveImports in Hrun.
  pose proof (visit_sound h dc fuel start initial) as Hsound.
  destruct (visit h dc fuel start initial) as [st_s st].
  destruct st_s as [err'|p|]; try discriminate.
  injection Hrun as <- _. cbn [snd] in Hsound.
  destruct Hsound as (_ & _ & _ & S4).
  destruct (S4 d Hd) as [H0|H0]; [|exact H0]. cbn in H0. set_solver.
Qed.

Lemma closure_partial_sound_witness :
  reach (graph_host dangling) empty_cache "A" "B".
Proof.
  assert (Hrun : recursiveImports (graph_host dangling) empty_cache 3 "A"
                 = Ret (({[ "B" ]} : gset string), Some (PathError "open" "B" true)))
    by (vm_compute; reflexivity).
  apply (closure_partial_sound _ _ _ _ _ _ Hrun). set_solver.
Defined.

(** X7: on a finite set of names that holds the imports of each of its
    files, [recursiveImports] ends within a recursion depth of the size of
    the set plus one, whatever the files return: it returns, with its error
    or without, or it panics. *)
Theorem closure_ends_on_finite_graph :
  forall h dc (U : gset string) start,
    (forall x libs d, x ∈ U -> readImports h dc x = Ret (inr libs) -> d ∈ libs -> d ∈ U) ->
    start ∈ U ->
    (exists r, recursiveImports h dc (S (size U)) start = Ret r) \/
    (exists p, recursiveImports h dc (S (size U)) start = Panics p).
Proof.
  intros h dc U start Hclosed Hstart.
  pose proof (recursiveImports_terminates h dc U Hclosed start Hstart) as Hend.
  destruct (recursiveImports h dc (S (size U)) start) as [r|p|]; eauto.
  congruence.
Qed.

Lemma cycle_names_closed x libs d :
  x ∈ cycle_names -> readImports (graph_host cycle) empty_cache x = Ret (inr libs) ->
  d ∈ libs -> d ∈ cycle_names.
Proof.
  unfold cycle_names. intros Hx Hread Hd.
  apply elem_of_union in Hx as [Hx|Hx]; apply elem_of_singleton in Hx; subst x;
    vm_compute in Hread; injection Hread as <-;
    apply list_elem_of_singleton in Hd; subst d; set_solver.
Defined.

Lemma closure_ends_on_finite_graph_witness :
  (exists r, recursiveImports (graph_host cycle) empty_cache (S (size cycle_names)) "A" = Ret r) \/
  (exists p, recursiveImports (graph_host cycle) empty_cache (S (size cycle_names)) "A" = Panics p).
Proof.
  apply closure_ends_on_finite_graph.
  - apply cycle_names_closed.
  - unfold cycle_names. set_solver.
Defined.

(** X8: on a finite set of names whose files all declare their imports
    within the set, [recursiveImports] from a name of the set returns without
    an error, within a recursion depth of the size of the set plus one, and
    the set it returns is exactly the set of the names reached from the start
    file. *)
Theorem closure_total_on_finite_graph :
  forall h dc (U : gset string) start,
    (forall x, x ∈ U ->
       exists libs, readImports h dc x = Ret (inr libs) /\ forall d, d ∈ libs -> d ∈ U) ->
    start ∈ U ->
    exists s, recursiveImports h dc (S (size U)) start = Ret (s, None) /\
              forall d, d ∈ s <-> reach h dc start d.
Proof.
  intros h dc U start Hgood Hstart.
  assert (Hclosed : forall x libs d, x ∈ U -> readImports h dc x = Ret (inr libs) ->
                    d ∈ libs -> d ∈ U).
  { intros x libs d Hx Hread Hd. destruct (Hgood x Hx) as (libs' & Hread' & Hin).
    rewrite Hread in Hread'. injection Hread' as <-. auto. }
  destruct (visit_terminates h dc U Hclosed (S (size U)) start initial Hstart)
    as [Hs [_ HU]].
  { split; cbn; [set_solver|]. replace (U ∖ ∅) with U by set_solver. lia. }
  pose proof (visit_inv h dc (S (size U)) start initial) as [_ Hreads].
  { split; [apply NoDup_nil_2|]. intros f Hf. inversion Hf. }
  pose proof (visit_shape h dc (S (size U)) start initial
                ltac:(intros x Hx; inversion Hx)) as Hshape.
  pose proof (visit_panic_shape h dc (S (size U)) start initial
                ltac:(intros x p Hx; inversion Hx)) as Hpanic.
  assert (Hrun : exists st, visit h dc (S (size U)) start initial = (Done None, st)).
  { destruct (visit h dc (S (size U)) start initial) as [st_s st];
      cbn [fst snd] in *.
    assert (Hok : forall f, f ∈ reads st ->
                  exists libs, readImports h dc f = Ret (inr libs)).
    { intros f Hf. destruct (Hgood f) as (libs & Hread & _); [|eauto].
      apply HU, Hreads, Hf. }
    destruct st_s as [[e|]|p|].
    - destruct Hshape as (l & f & Hl & _ & Hlast).
      destruct (Hok f) as [libs Hlibs]; [|congruence].
      rewrite Hl. apply elem_of_app. right. apply list_elem_of_singleton. reflexivity.
    - eauto.
    - destruct Hpanic as (l & f & Hl & _ & Hlast).
      destruct (Hok f) as [libs Hlibs]; [|congruence].
      rewrite Hl. apply elem_of_app. right. apply list_elem_of_singleton. reflexivity.
    - congruence. }
  destruct Hrun as [st Hrun].
  assert (Hret : recursiveImports h dc (S (size U)) start = Ret (imports st, None)).
  { unfold recursiveImports. rewrite Hrun. reflexivity. }
  exists (imports st). split; [exact Hret|].
  apply (recursiveImports_reach h dc _ _ _ Hret).
Qed.

Lemma diamond_names_good x :
  x ∈ diamond_names ->
  exists libs, readImports (graph_host diamond) empty_cache x = Ret (inr libs) /\
               forall d, d ∈ libs -> d ∈ diamond_names.
Proof.
  unfold diamond_names. intros Hx.
  repeat (apply elem_of_union in Hx as [Hx|Hx]);
    apply elem_of_singleton in Hx; subst x;
    (eexists; split; [vm_compute; reflexivity|]); intros d Hd; set_solver.
Defined.

Lemma closure_total_on_finite_graph_witness :
  exists s, recursiveImports (graph_host diamond) empty_cache (S (size diamond_names)) "A"
            = Ret (s, None) /\
            forall d, d ∈ s <-> reach (graph_host diamond) empty_cache "A" d.
Proof.
  apply closure_total_on_finite_graph.
  - apply diamond_names_good.
  - unfold diamond_names. set_solver.
Defined.

(** X9: a panic of [readImports] on a reached name (it can only come from
    the lookup in the cache) is a panic of [recursiveImports]: it is not
    turned into an error. *)
Theorem closure_panic_propagates :
  forall h dc fuel start f p,
    f ∈ reads (visit h dc fuel start initial).2 ->
    readImports h dc f = Panics p ->
    recursiveImports h dc fuel start = Panics p.
Proof.
  intros h dc fuel start f p Hf Hp.
  pose proof (visit_panic_shape h dc fuel start initial
                ltac:(intros x q Hx; inversion Hx)) as Hshape.
  unfold recursiveImports.
  destruct (visit h dc fuel start initial) as [st_s st]; cbn [fst snd] in *.
  destruct st_s as [e|q|]; cbn in Hshape;
    try (destruct (Hshape f p Hf Hp)).
  destruct Hshape as (l & f' & Hl & Hbefore & Hlast).
  rewrite Hl in Hf. apply elem_of_app in Hf as [Hf|Hf].
  - destruct (Hbefore f p Hf Hp).
  - apply list_elem_of_singleton in Hf. subst f'. congruence.
Qed.

Lemma closure_panic_propagates_witness :
  recursiveImports host_prog_libc cache_32bit_only 3 "prog" = Panics PanicIndexOutOfRange.
Proof.
  apply (closure_panic_propagates host_prog_libc cache_32bit_only 3 "prog" "libc.so.6").
  - vm_compute. apply list_elem_of_lookup. exists 1%nat. reflexivity.
  - vm_compute. reflexivity.
Defined.

(** ** The lookup *)

(** X10: [Is64] looks at bits 8 and 9 of the flags and at nothing else: an
    entry is 64-bit exactly when both are set. *)
Theorem Is64_bits :
  forall fe, Is64 fe = Z.testbit (Flags fe) 8 && Z.testbit (Flags fe) 9.
Proof.
  intros fe. unfold Is64.
  destruct (Z.testbit (Flags fe) 8 && Z.testbit (Flags fe) 9) eqn:Hb.
  - apply andb_true_iff in Hb as [H8 H9]. apply Z.eqb_eq.
    apply Z.bits_inj'. intros n Hn.
    rewrite Z.land_spec, testbit_0x300.
    destruct (Z.eqb_spec n 8) as [->|_]; [rewrite H8; reflexivity|].
    destruct (Z.eqb_spec n 9) as [->|_]; [rewrite H9; reflexivity|].
    apply andb_false_r.
  - apply Z.eqb_neq. intros Heq.
    assert (H8 : Z.testbit (Z.land (Flags fe) 0x300) 8 = true) by (rewrite Heq; reflexivity).
    assert (H9 : Z.testbit (Z.land (Flags fe) 0x300) 9 = true) by (rewrite Heq; reflexivity).
    rewrite Z.land_spec in H8, H9.
    apply andb_true_iff in H8 as [H8 _]. apply andb_true_iff in H9 as [H9 _].
    rewrite H8, H9 in Hb. discriminate.
Qed.

(** X11: when [LD_LIBRARY_PATH] is set, [Lookup] returns the file of the first
    listed directory that holds one of that name, and does so whatever the
    cache holds: the directories are tried in order and the cache is not
    consulted. *)
Theorem lookup_override_first :
  forall h dc library i dir,
    Getenv h "LD_LIBRARY_PATH" <> "" ->
    Strings.Split (Getenv h "LD_LIBRARY_PATH") ":"%char !! i = Some dir ->
    Stat h (filepath_Join h dir library) = true ->
    (forall j d, (j < i)%nat ->
       Strings.Split (Getenv h "LD_LIBRARY_PATH") ":"%char !! j = Some d ->
       Stat h (filepath_Join h d library) = false) ->
    Lookup h dc library = Ret (filepath_Join h dir library, true).
Proof.
  intros h dc library i dir Hset Hi Hstat Hbefore.
  unfold Lookup, lookup_override.
  destruct (String.eqb_spec (Getenv h "LD_LIBRARY_PATH") "") as [Heq|_];
    [contradiction|]. cbn [negb].
  rewrite (lookup_paths_first h library _ i dir Hi Hstat Hbefore). reflexivity.
Qed.

Lemma lookup_override_first_witness :
  Lookup host_ld_path cache_big_run "libz.so" = Ret ("/usr/lib/libz.so", true).
Proof.
  apply (lookup_override_first host_ld_path cache_big_run "libz.so" 1 "/usr/lib").
  - vm_compute. discriminate.
  - vm_compute. reflexivity.
  - vm_compute. reflexivity.
  - intros j d Hj Hd. assert (j = 0%nat) as -> by lia.
    vm_compute in Hd. injection Hd as <-. reflexivity.
Defined.

(** X12: when the override of the environment gives nothing, a path that
    [Lookup] returns as found is the value of an entry of the cache whose key
    is exactly the name looked up: never the path of another library. *)
Theorem lookup_found_is_cached :
  forall h dc library v,
    lookup_override h library = None ->
    Lookup h dc library = Ret (v, true) ->
    exists e, e ∈ FileEntries dc /\ Key e = library /\ Value e = v.
Proof.
  intros h dc library v Henv. unfold Lookup. rewrite Henv.
  destruct (bisect _ _ _ _ _) as [[w|]| |] eqn:Hb; cbn [mbind outcome_bind];
    try discriminate.
  - intros [= <-]. apply bisect_sound in Hb as (e & Hin & Hk & _ & Hv). eauto.
  - rewrite slow_scan_spec.
    pose proof (first_match_spec (FileEntries dc) library) as Hspec.
    destruct (first_match (FileEntries dc) library) as [k|]; [|discriminate].
    destruct Hspec as [(e & He & Hk) _]. rewrite He.
    destruct (log_neighbours _ _ _); cbn [mbind outcome_bind]; try discriminate.
    intros [= <-]. exists e. split_and!; try done.
    apply list_elem_of_lookup. eauto.
Qed.

Lemma lookup_found_is_cached_witness :
  exists e, e ∈ FileEntries cache_21 /\ Key e = "m" /\ Value e = "/lib32/m".
Proof.
  apply (lookup_found_is_cached bare_host cache_21 "m" "/lib32/m");
    vm_compute; reflexivity.
Defined.

(** X13: [Lookup] reports not-found only for a name that no entry has as its
    key, and then with the empty path; and for such a name, when the override
    gives nothing and the comparisons with the keys return, it does report
    not-found, without a panic. *)
Theorem lookup_miss :
  forall h dc library,
    (forall v, Lookup h dc library = Ret (v, false) ->
       v = "" /\ forall e, e ∈ FileEntries dc -> Key e <> library) /\
    (lookup_override h library = None ->
     (forall e, e ∈ FileEntries dc -> Key e <> library) ->
     (forall e, e ∈ FileEntries dc ->
        exists r, _dl_cache_libcmp (Key e) library = Ret r) ->
     Lookup h dc library = Ret ("", false)).
Proof.
  intros h dc library. split.
  - intros v. unfold Lookup.
    destruct (lookup_override h library); [discriminate|].
    destruct (bisect _ _ _ _ _) as [[w|]| |]; cbn [mbind outcome_bind];
      try discriminate.
    rewrite slow_scan_spec.
    pose proof (first_match_spec (FileEntries dc) library) as Hspec.
    destruct (first_match (FileEntries dc) library) as [k|].
    + destruct Hspec as [(e & He & Hk) _]. rewrite He.
      destruct (log_neighbours _ _ _); cbn [mbind outcome_bind]; discriminate.
    + intros [= <-]. auto.
  - intros Henv Habs Hret. unfold Lookup. rewrite Henv.
    rewrite (bisect_absent _ _ Habs Hret) by lia. cbn [mbind outcome_bind].
    rewrite slow_scan_spec.
    pose proof (first_match_spec (FileEntries dc) library) as Hspec.
    destruct (first_match (FileEntries dc) library) as [k|]; [|reflexivity].
    destruct Hspec as [(e & He & Hk) _].
    destruct (Habs e); [|exact Hk]. apply list_elem_of_lookup. eauto.
Qed.

Lemma lookup_miss_witness :
  Lookup bare_host cache_64bit_first "libz.so.1" = Ret ("", false).
Proof.
  apply (proj2 (lookup_miss bare_host cache_64bit_first "libz.so.1")).
  - vm_compute. reflexivity.
  - apply Forall_forall.
    repeat (apply Forall_cons; split; [apply String.eqb_neq; vm_compute; reflexivity|]).
    apply Forall_nil_2.
  - apply Forall_forall.
    repeat (apply Forall_cons; split; [eexists; vm_compute; reflexivity|]).
    apply Forall_nil_2.
Defined.

(** X14: [Lookup] always ends, on every cache and every name: its bisection
    cannot loop, since the comparator returns -1, 0 or 1 only.  It returns,
    or it panics in a comparison, or it panics with an index out of range,
    and this last only in the logging of the fallback, around a first match
    that is less than ten entries away from an end of the cache. *)
Theorem lookup_ends :
  forall h dc library,
    (exists r, Lookup h dc library = Ret r) \/
    (exists e, Lookup h dc library = Panics (PanicNumError e)) \/
    (Lookup h dc library = Panics PanicIndexOutOfRange /\
     exists i, first_match (FileEntries dc) library = Some i /\
               (i < 10 \/ length (FileEntries dc) < i + 10)%nat).
Proof.
  intros h dc library. unfold Lookup.
  destruct (lookup_override h library); [eauto|].
  destruct (bisect_outcome (FileEntries dc) library (length (FileEntries dc)) 0
              (Z.of_nat (length (FileEntries dc)))) as [[r Hr]|[e He]]; try lia.
  - rewrite Hr. cbn [mbind outcome_bind]. destruct r as [v|]; [eauto|].
    rewrite slow_scan_spec.
    pose proof (first_match_spec (FileEntries dc) library) as Hspec.
    destruct (first_match (FileEntries dc) library) as [k|]; [|eauto].
    destruct Hspec as [(e & He & Hk) _]. rewrite He.
    destruct (Nat.lt_ge_cases k 10) as [Hlow|Hlow].
    { right. right. rewrite log_neighbours_panic by lia.
      split; [reflexivity|]. exists k. split; [reflexivity | lia]. }
    destruct (Nat.lt_ge_cases (length (FileEntries dc)) (k + 10)) as [Hhigh|Hhigh].
    { right. right. rewrite log_neighbours_panic by lia.
      split; [reflexivity|]. exists k. split; [reflexivity | lia]. }
    rewrite log_neighbours_ok by lia. eauto.
  - rewrite He. eauto.
Qed.

(** ** The decoder *)

(** X15: [ReadDLCache] returns a cache exactly for the files made of a
    12-byte header that starts with "ld.so", a 4-byte little-endian count, as
    many 12-byte records as the count says, and a table in which both offsets
    of every record are followed by a terminated string; the entries of the
    cache are then the records in their order, and nothing of the header after
    its first five bytes matters. *)
Theorem ReadDLCache_success_iff :
  forall r dc,
    ReadDLCache r = Ret (inr dc) <->
    exists hd cnt recs table,
      r = (hd ++ cnt ++ concat recs ++ table)%list /\
      good_header hd = true /\ length cnt = 4%nat /\
      length recs = Z.to_nat (le_uint cnt) /\
      Forall (fun rec => length rec = 12%nat) recs /\
      mapM (decode_record table) recs = Some (FileEntries dc).
Proof.
  intros r dc. split.
  - apply ReadDLCache_success.
  - intros (hd & cnt & recs & table & -> & Hhd & Hcnt & Hn & Hall & Hes).
    rewrite ReadDLCache_complete, Hes by assumption. destruct dc; reflexivity.
Qed.

(** X16: reading back the file written for a cache gives the cache: for every
    cache whose flags fit 32 bits, whose strings hold no NUL and whose count
    and table fit 32 bits, [ReadDLCache] of its encoding returns it, with no
    error and no panic. *)
Theorem ReadDLCache_encode :
  forall dc, encodable dc -> ReadDLCache (encode dc) = Ret (inr dc).
Proof.
  intros [es] (Hok & Hcount & Htab). cbn [FileEntries] in *. unfold encode.
  cbn [FileEntries].
  destruct (length_layout_records es 0) as [Hlen Hall].
  rewrite ReadDLCache_complete.
  - change 0 with (Z.of_nat (length (@nil ascii))).
    change (layout_table es) with ([] ++ layout_table es)%list at 1.
    rewrite layout_decode; [reflexivity | exact Hok |].
    cbn [length Nat.add]. exact Htab.
  - reflexivity.
  - apply length_le32.
  - rewrite le_uint_le32, Z.mod_small, Nat2Z.id by lia. exact Hlen.
  - exact Hall.
Qed.

Lemma ReadDLCache_encode_witness :
  ReadDLCache (encode cache_21) = Ret (inr cache_21).
Proof.
  apply (ReadDLCache_encode cache_21). unfold encodable. split_and!.
  - apply Forall_forall. intros e He. vm_compute in He.
    repeat (apply elem_of_cons in He as [->|He]; [vm_compute; split_and!; congruence|]).
    apply elem_of_nil in He. contradiction.
  - vm_compute. reflexivity.
  - vm_compute. reflexivity.
Defined.

(** X17: every cache that [ReadDLCache] returns has as many entries as the
    count field of the file says, flags in the range of a signed 32-bit
    integer, and keys and values that hold no NUL byte. *)
Theorem ReadDLCache_entries_wellformed :
  forall r dc,
    ReadDLCache r = Ret (inr dc) ->
    length (FileEntries dc) = Z.to_nat (le_uint (take 4 (drop 12 r))) /\
    Forall (fun e => - 2 ^ 31 <= Flags e < 2 ^ 31 /\
                     nul_free (Key e) = true /\ nul_free (Value e) = true)
           (FileEntries dc).
Proof.
  intros r dc Hrun.
  apply ReadDLCache_success in Hrun
    as (hd & cnt & recs & table & -> & Hhd & Hcnt & Hn & Hall & Hes).
  assert (Hlen : length hd = 12%nat).
  { unfold good_header in Hhd. apply andb_true_iff in Hhd as [Hl _].
    apply Nat.eqb_eq in Hl. exact Hl. }
  split.
  - rewrite drop_app_length' by (symmetry; exact Hlen).
    rewrite take_app_length' by (symmetry; exact Hcnt).
    rewrite <- Hn. symmetry. eapply length_mapM, Hes.
  - apply Forall_forall. intros e He.
    apply mapM_Some_1 in Hes.
    apply list_elem_of_lookup in He as [i Hi].
    destruct (Forall2_lookup_r _ _ _ _ _ Hes Hi) as (rec & _ & Hrec).
    unfold decode_record in Hrec.
    destruct (cstring_at table (key_offset rec)) as [k|] eqn:Hk;
      cbn [mbind option_bind] in Hrec; [|discriminate].
    destruct (cstring_at table (value_offset rec)) as [v|] eqn:Hv;
      cbn [mbind option_bind] in Hrec; [|discriminate].
    injection Hrec as <-. cbn [Flags Key Value].
    assert (Hflags : - 2 ^ 31 <= record_flags rec < 2 ^ 31).
    { unfold record_flags. apply to_int32_range.
      split; [apply le_uint_nonneg|].
      pose proof (le_uint_bound (take 4 rec)) as Hb.
      assert (256 ^ Z.of_nat (length (take 4 rec)) <= 256 ^ 4)
        by (apply Z.pow_le_mono_r; [lia | rewrite length_take; lia]).
      change (256 ^ 4) with (2 ^ 32) in *. lia. }
    split_and!.
    + apply Hflags.
    + apply Hflags.
    + eapply cstring_at_nul_free, Hk.
    + eapply cstring_at_nul_free, Hv.
Qed.

Lemma ReadDLCache_entries_wellformed_witness :
  length (FileEntries cache_21) = 21%nat /\
  Forall (fun e => - 2 ^ 31 <= Flags e < 2 ^ 31 /\
                   nul_free (Key e) = true /\ nul_free (Value e) = true)
         (FileEntries cache_21).
Proof.
  apply (ReadDLCache_entries_wellformed (encode cache_21) cache_21).
  vm_compute. reflexivity.
Defined.

(** X18: the ways [ReadDLCache] ends.  It never runs out of steps; an error
    it returns is the error of the magic exactly when the first twelve bytes
    are missing or do not start with "ld.so", and is otherwise an
    end-of-stream error of the read; and the only panic it raises is the
    slice bounds panic of [readString]. *)
Theorem ReadDLCache_ways_to_end :
  forall r,
    ReadDLCache r <> OutOfFuel /\
    (forall p, ReadDLCache r = Panics p ->
       p = PanicSliceBounds /\ good_header (take 12 r) = true) /\
    (forall e, ReadDLCache r = Ret (inl e) ->
       if good_header (take 12 r) then is_truncated e = true else e = ErrMagic).
Proof.
  intros r. destruct (good_header (take 12 r)) eqn:Hhd.
  - assert (Hlen : (12 <= length r)%nat).
    { unfold good_header in Hhd. apply andb_true_iff in Hhd as [Hl _].
      apply Nat.eqb_eq in Hl. change (len cacheMagic) with 12%nat in Hl.
      rewrite length_take in Hl. lia. }
    pose proof (ReadDLCache_header (take 12 r) (drop 12 r) Hhd) as Hrun.
    rewrite take_drop in Hrun. rewrite Hrun. clear Hrun.
    destruct (readFull 4 (drop 12 r)) as [[e|cnt] r1] eqn:Hcnt.
    { apply readFull_inl in Hcnt as [He _].
      split_and!; [discriminate | discriminate | intros ? [= <-]; exact He]. }
    destruct (read_entries _ r1) as [[e|raw] r2] eqn:Hrecs.
    { apply read_entries_inl in Hrecs.
      split_and!; [discriminate | discriminate | intros ? [= <-]; exact Hrecs]. }
    apply read_entries_inr in Hrecs as (recs & -> & _).
    rewrite build_entries_spec.
    destruct (mapM (decode_record r2) recs); cbn [mbind outcome_bind].
    + split_and!; discriminate.
    + split_and!; [discriminate | intros ? [= <-]; auto | discriminate].
  - rewrite ReadDLCache_bad_header by assumption.
    split_and!; [discriminate | discriminate | intros ? [= <-]; reflexivity].
Qed.

(** X19: the version that follows "ld.so" in the magic is not compared: two
    files that differ only in bytes 5 to 11 of the header are read to the same
    result, whatever follows. *)
Theorem ReadDLCache_ignores_version :
  forall hd hd' rest,
    good_header hd = true -> good_header hd' = true ->
    ReadDLCache (hd ++ rest) = ReadDLCache (hd' ++ rest).
Proof.
  intros hd hd' rest Hhd Hhd'.
  rewrite !ReadDLCache_header by assumption. reflexivity.
Qed.

Lemma ReadDLCache_ignores_version_witness :
  ReadDLCache (list_ascii_of_string "ld.so-1.7.0" ++ [NUL] ++ le32 0)
  = ReadDLCache (list_ascii_of_string "ld.so-9.9.9" ++ [NUL] ++ le32 0).
Proof.
  rewrite 2!(app_assoc _ [NUL]).
  apply (ReadDLCache_ignores_version
           (list_ascii_of_string "ld.so-1.7.0" ++ [NUL])
           (list_ascii_of_string "ld.so-9.9.9" ++ [NUL]) (le32 0));
    vm_compute; reflexivity.
Defined.
(** ** The imports of one file *)

(** X20: the cache matters to [readImports] only for a name that does not
    exist: for a name that opens, or that fails to open for another reason,
    it returns the same result with every cache, and it cannot panic. *)
Theorem readImports_cache_only_for_missing :
  forall h dc dc' filename,
    (forall err, Open h filename = inl err -> IsNotExist err = false) ->
    readImports h dc filename = readImports h dc' filename /\
    exists r, readImports h dc filename = Ret r.
Proof.
  intros h dc dc' filename Hopen. unfold readImports.
  destruct (Open h filename) as [err|fd] eqn:Ho.
  - rewrite (Hopen err eq_refl). cbn [mbind outcome_bind]. eauto.
  - cbn [mbind outcome_bind]. split; [reflexivity|].
    destruct (elf_NewFile fd) as [e|elf]; [eauto|].
    destruct (ImportedLibraries elf); eauto.
Qed.

Lemma readImports_cache_only_for_missing_witness :
  readImports host_libc cache_libc "prog" = readImports host_libc empty_cache "prog" /\
  exists r, readImports host_libc cache_libc "prog" = Ret r.
Proof.
  apply (readImports_cache_only_for_missing host_libc cache_libc empty_cache "prog").
  intros err Ho. vm_compute in Ho. discriminate.
Defined.

(** X21: the imports that [readImports] returns are those that the ELF
    reader gives for a file that opened: the file of the name itself, or,
    when the name does not exist, the file of the path that [Lookup] found
    for it. *)
Theorem readImports_success_inv :
  forall h dc filename libs,
    readImports h dc filename = Ret (inr libs) ->
    exists path fd elf,
      (path = filename \/
       exists err, Open h filename = inl err /\ IsNotExist err = true /\
                   Lookup h dc filename = Ret (path, true)) /\
      Open h path = inr fd /\ elf_NewFile fd = inr elf /\
      ImportedLibraries elf = inr libs.
Proof.
  intros h dc filename libs. unfold readImports.
  assert (Hparse : forall path fd,
    Open h path = inr fd ->
    match elf_NewFile fd with
    | inl err => Ret (inl err)
    | inr elf =>
      match ImportedLibraries elf with
      | inl err => Ret (inl err)
      | inr importedLibs => Ret (inr importedLibs)
      end
    end = Ret (inr libs) ->
    exists elf, Open h path = inr fd /\ elf_NewFile fd = inr elf /\
                ImportedLibraries elf = inr libs).
  { intros path fd Ho.
    destruct (elf_NewFile fd) as [e|elf]; [discriminate|].
    destruct (ImportedLibraries elf) as [e|l] eqn:Hl; [discriminate|].
    intros [= <-]. eauto. }
  destruct (Open h filename) as [err|fd] eqn:Ho.
  - destruct (IsNotExist err) eqn:Hne; [|discriminate].
    destruct (Lookup h dc filename) as [[path ok]|p|] eqn:Hl;
      cbn [mbind outcome_bind]; try discriminate.
    destruct ok; cbn [mbind outcome_bind]; [|discriminate].
    destruct (Open h path) as [e|fd] eqn:Hp; [discriminate|].
    intros Hrun. destruct (Hparse path fd Hp Hrun) as (elf & _ & H2 & H3).
    exists path, fd, elf. split_and!; eauto.
  - cbn [mbind outcome_bind]. intros Hrun.
    destruct (Hparse filename fd Ho Hrun) as (elf & _ & H2 & H3).
    exists filename, fd, elf. split_and!; eauto.
Qed.

Lemma readImports_success_inv_witness :
  exists path fd elf,
    (path = "libc.so.6" \/
     exists err, Open host_libc "libc.so.6" = inl err /\ IsNotExist err = true /\
                 Lookup host_libc cache_libc "libc.so.6" = Ret (path, true)) /\
    Open host_libc path = inr fd /\ elf_NewFile fd = inr elf /\
    ImportedLibraries elf = inr [].
Proof.
  apply (readImports_success_inv host_libc cache_libc "libc.so.6" []).
  vm_compute. reflexivity.
Defined.

(** X22: [readImports] panics exactly when the name does not exist and the
    lookup of it in the cache panics, and then with the panic of [Lookup]. *)
Theorem readImports_panics_iff :
  forall h dc filename p,
    readImports h dc filename = Panics p <->
    (exists err, Open h filename = inl err /\ IsNotExist err = true) /\
    Lookup h dc filename = Panics p.
Proof.
  intros h dc filename p. unfold readImports.
  destruct (Open h filename) as [err|fd] eqn:Ho.
  - destruct (IsNotExist err) eqn:Hne.
    + destruct (Lookup h dc filename) as [[path ok]|q|];
        cbn [mbind outcome_bind].
      * split; [|intros [_ ?]; discriminate].
        destruct ok; cbn [mbind outcome_bind]; [|discriminate].
        destruct (Open h path) as [e|fd]; [discriminate|].
        destruct (elf_NewFile fd) as [e|elf]; [discriminate|].
        destruct (ImportedLibraries elf); discriminate.
      * split; [intros [= <-]; eauto | intros [_ [= <-]]; reflexivity].
      * split; [discriminate | intros [_ ?]; discriminate].
    + cbn [mbind outcome_bind].
      split; [discriminate | intros [(e & [= <-] & He) _]; congruence].
  - cbn [mbind outcome_bind]. split.
    + destruct (elf_NewFile fd) as [e|elf]; [discriminate|].
      destruct (ImportedLibraries elf); discriminate.
    + intros [(e & He & _) _]. discriminate.
Qed.

(** ** The command *)

(** X23: [resolveBinary] returns without an error exactly when the argument
    exists, and then it returns the argument, or when it does not exist and
    [exec.LookPath] finds it, and then it returns what [exec.LookPath] gave.
    A name that only the cache resolves is never returned without an
    error. *)
Theorem resolveBinary_succeeds_iff :
  forall h ph dc arg filename,
    resolveBinary h ph dc arg = Ret (filename, None) <->
    on_disk_or_path ph arg filename.
Proof. intros. apply resolveBinary_no_error. Qed.

(** X24: for an argument that does not exist and that [exec.LookPath] does
    not find, but that the cache resolves, [resolveBinary] returns the path
    of the cache together with the error of [exec.LookPath], which it does
    not clear; so [main] ends with [log.Fatal] and archives nothing. *)
Theorem main_refuses_cache_only_binary :
  forall h ph dc fuel iter arg err e path,
    StatErr ph arg = Some err -> IsNotExist err = true ->
    LookPath ph arg = inl e ->
    Lookup h dc arg = Ret (path, true) ->
    resolveBinary h ph dc arg = Ret (path, Some e) /\
    main_plan h ph dc fuel iter arg = Ret (FatalResolve path e).
Proof.
  intros h ph dc fuel iter arg err e path Hstat Hne Hlook Hcache.
  assert (Hres : resolveBinary h ph dc arg = Ret (path, Some e)).
  { unfold resolveBinary. rewrite Hstat, Hne, Hlook, Hcache. reflexivity. }
  split; [exact Hres|]. unfold main_plan. rewrite Hres. reflexivity.
Qed.

Lemma main_refuses_cache_only_binary_witness :
  resolveBinary host_libc path_host_none cache_libc "libc.so.6"
  = Ret ("/lib/libc.so.6", Some (ExecError "libc.so.6")) /\
  main_plan host_libc path_host_none cache_libc 5 elements "libc.so.6"
  = Ret (FatalResolve "/lib/libc.so.6" (ExecError "libc.so.6")).
Proof.
  apply (main_refuses_cache_only_binary host_libc path_host_none cache_libc 5
           elements "libc.so.6" (PathError "stat" "libc.so.6" true)
           (ExecError "libc.so.6") "/lib/libc.so.6");
    vm_compute; reflexivity.
Defined.

(** X25: [sortedSet] returns the elements it is given, each as often as
    given, in ascending order of their bytes, and the order in which the map
    is ranged does not show in the result. *)
Theorem sortedSet_order_independent :
  forall iter iter',
    iter ≡ₚ iter' ->
    sortedSet iter = sortedSet iter' /\
    StronglySorted str_le (sortedSet iter) /\
    sortedSet iter ≡ₚ iter.
Proof.
  intros iter iter' Hperm. split_and!.
  - apply sortedSet_unique, Hperm.
  - apply sortedSet_sorted.
  - apply sortedSet_perm.
Qed.

Lemma sortedSet_order_independent_witness :
  sortedSet ["libm.so"; "libc.so"; "ld.so"] = sortedSet ["ld.so"; "libm.so"; "libc.so"] /\
  StronglySorted str_le (sortedSet ["libm.so"; "libc.so"; "ld.so"]) /\
  sortedSet ["libm.so"; "libc.so"; "ld.so"] ≡ₚ ["libm.so"; "libc.so"; "ld.so"].
Proof.
  apply (sortedSet_order_independent ["libm.so"; "libc.so"; "ld.so"]
           ["ld.so"; "libm.so"; "libc.so"]).
  change ["libm.so"; "libc.so"; "ld.so"] with (["libm.so"; "libc.so"] ++ ["ld.so"])%list.
  apply (Permutation_app_comm ["libm.so"; "libc.so"] ["ld.so"]).
Defined.

(** X26: the loop of [main] over the sorted imports appends, in their order,
    the paths that [Lookup] finds, and skips the imports it does not find;
    what was in [paths] stays in front.  It returns whenever every lookup
    returns. *)
Theorem main_paths_lists_found :
  forall h dc libs paths,
    (forall lib, lib ∈ libs -> exists r, Lookup h dc lib = Ret r) ->
    main_paths h dc libs paths = Ret (paths ++ omap (found_path h dc) libs)%list.
Proof. intros h dc libs paths. apply main_paths_found. Qed.

Lemma main_paths_lists_found_witness :
  main_paths host_libc cache_libc ["libc.so.6"] ["prog"]
  = Ret (["prog"] ++ omap (found_path host_libc cache_libc) ["libc.so.6"])%list.
Proof.
  apply (main_paths_lists_found host_libc cache_libc ["libc.so.6"] ["prog"]).
  intros lib Hin. apply list_elem_of_singleton in Hin. subst lib.
  exists ("/lib/libc.so.6", true). vm_compute. reflexivity.
Defined.

(** X27: when [main] gets to the archive, its argument is a file that exists
    or that [exec.LookPath] found, and the paths to archive are that file
    followed by the paths the cache gives for the libraries reached from it
    by imports: each library once, in ascending order of the names, without
    those the cache does not hold. *)
Theorem main_archives_closure :
  forall h ph dc fuel iter arg paths,
    ranges iter ->
    main_plan h ph dc fuel iter arg = Ret (Archive paths) ->
    exists filename libs,
      on_disk_or_path ph arg filename /\
      StronglySorted str_le libs /\ NoDup libs /\
      (forall d, d ∈ libs <-> reach h dc filename d) /\
      paths = filename :: omap (found_path h dc) libs.
Proof.
  intros h ph dc fuel iter arg paths Hiter Hrun. unfold main_plan in Hrun.
  destruct (resolveBinary h ph dc arg) as [[filename err]|p|] eqn:Hres;
    cbn [mbind outcome_bind] in Hrun; try discriminate.
  destruct err as [e|]; [discriminate|].
  destruct (recursiveImports h dc fuel filename) as [[imports err]|p|] eqn:Hrec;
    cbn [mbind outcome_bind] in Hrun; try discriminate.
  destruct err as [e|]; [discriminate|].
  destruct (main_paths h dc (sortedSet (iter imports)) [filename]) as [out|p|] eqn:Hp;
    cbn [mbind outcome_bind] in Hrun; try discriminate.
  injection Hrun as <-. apply main_paths_inv in Hp as [-> _].
  destruct (Hiter imports) as [Hnodup Hin].
  exists filename, (sortedSet (iter imports)). split_and!.
  - apply resolveBinary_no_error in Hres. exact Hres.
  - apply sortedSet_sorted.
  - rewrite sortedSet_perm. exact Hnodup.
  - intros d. rewrite sortedSet_perm, Hin.
    apply (recursiveImports_reach h dc fuel filename imports Hrec).
  - reflexivity.
Qed.

Lemma main_archives_closure_witness :
  exists filename libs,
    on_disk_or_path path_host_prog "prog" filename /\
    StronglySorted str_le libs /\ NoDup libs /\
    (forall d, d ∈ libs <-> reach host_libc cache_libc filename d) /\
    ["prog"; "/lib/libc.so.6"] = filename :: omap (found_path host_libc cache_libc) libs.
Proof.
  apply (main_archives_closure host_libc path_host_prog cache_libc 5 elements "prog").
  - intros s. split; [apply NoDup_elements | intros x; apply elem_of_elements].
  - vm_compute. reflexivity.
Defined.
